(** * The task/workflow orchestrator of the Infinity Gateway

    A shallow embedding of [OrchestratorService]
    (src/services/monitoring/monitoringService.ts, second half of the file):
    the task and workflow records, workflow construction, the batch loop of
    [executeWorkflow], the single-task executor, and the three background
    callbacks of the autonomous mode (queue pass, adaptive concurrency,
    self-healing). The embedding of [MonitoringService] (first half of the
    file), the readiness probe and the timers of the autonomous mode follow
    in sections of their own.

    Conventions.
    - A JavaScript [Date] is the number of milliseconds since the epoch, in [Z];
      a JavaScript number that the code only uses as an integer is a [Z].
    - An optional field [f?: T] is an [option T].
    - A rejected promise or a thrown [Error] is its message, a [string]: the
      service only ever throws plain [Error] objects.
    - [Set<string>] is a [gset string]; the [results] object of
      [executeWorkflow] and the workflow registry are [gmap]s keyed by
      strings; [Map<string, Task>] keeps its insertion order, which the queue
      pass observes through a stable sort, so it is an association list.
    - Task objects are records held by value. The service never stores one
      task object in two places (the tasks of a workflow are created by
      [analyzeAndCreateTasks] and kept in that workflow only), so a mutation
      of a task is an update of the one container that holds it.
    - The collaborators (AI service, tool service, metrics, persistence), the
      clock and the random source are an explicit environment [Env], indexed
      by a step counter that the operations thread through. *)

From stdpp Require Import base strings list gmap sets pretty relations sorting.
From Stdlib Require Import ZArith Lia.

Set Warnings "-register-all,-clear-no-such-hyp".
Open Scope string_scope.
Open Scope list_scope.
Open Scope Z_scope.

(** ** Values exchanged with the collaborators *)

(** What the TypeScript source types as [any]: request fragments handed to a
    collaborator and the values a collaborator resolves with. *)
Inductive Json : Type :=
  | JNull
  | JBool (b : bool)
  | JNum (z : Z)
  | JStr (s : string)
  | JArr (items : list Json)
  | JObj (fields : list (string * Json)).

(** One entry of [request.tools]. *)
Record Tool : Type := mkTool {
  tool : option Json;
  input : option Json;
  tool_priority : option string
}.

(** One entry of [request.dependencies]. *)
Record DepEdge : Type := mkDepEdge {
  dependent : string;
  dependency : string
}.

(** The fields of an inbound request that the orchestrator reads. [tools] is
    [Some] exactly when [request.tools] is an array. *)
Record Request : Type := mkRequest {
  req_name : option string;
  req_description : option string;
  prompt : option string;
  messages : option Json;
  options : option Json;
  req_priority : option string;
  tools : option (list Tool);
  req_dependencies : option (list DepEdge);
  workflowId : option string
}.

(** A task's payload is the request itself (AI task) or one tool entry. *)
Inductive Payload : Type :=
  | PRequest (r : Request)
  | PTool (t : Tool).

Inductive TaskType : Type := ai | mcp | workflow | monitoring.

Inductive Status : Type := pending | running | completed | failed | cancelled.

#[global] Instance Status_eq_dec : EqDecision Status.
Proof. solve_decision. Defined.

(** ** Task records *)

Module Task.

Record t : Type := mk {
  id : string;
  type : TaskType;
  priority : string;
  payload : Payload;
  status : Status;
  createdAt : Z;
  startedAt : option Z;
  completedAt : option Z;
  result : option Json;
  error : option string;
  retries : Z;
  maxRetries : Z;
  timeout : option Z;
  dependencies : option (list string);
  dependents : option (list string)
}.

(** Field assignments [task.f = v]. *)
Definition set_status (v : Status) (x : t) : t :=
  mk (id x) (type x) (priority x) (payload x) v (createdAt x) (startedAt x)
     (completedAt x) (result x) (error x) (retries x) (maxRetries x)
     (timeout x) (dependencies x) (dependents x).

Definition set_startedAt (v : option Z) (x : t) : t :=
  mk (id x) (type x) (priority x) (payload x) (status x) (createdAt x) v
     (completedAt x) (result x) (error x) (retries x) (maxRetries x)
     (timeout x) (dependencies x) (dependents x).

Definition set_completedAt (v : option Z) (x : t) : t :=
  mk (id x) (type x) (priority x) (payload x) (status x) (createdAt x)
     (startedAt x) v (result x) (error x) (retries x) (maxRetries x)
     (timeout x) (dependencies x) (dependents x).

Definition set_result (v : option Json) (x : t) : t :=
  mk (id x) (type x) (priority x) (payload x) (status x) (createdAt x)
     (startedAt x) (completedAt x) v (error x) (retries x) (maxRetries x)
     (timeout x) (dependencies x) (dependents x).

Definition set_error (v : option string) (x : t) : t :=
  mk (id x) (type x) (priority x) (payload x) (status x) (createdAt x)
     (startedAt x) (completedAt x) (result x) v (retries x) (maxRetries x)
     (timeout x) (dependencies x) (dependents x).

Definition set_retries (v : Z) (x : t) : t :=
  mk (id x) (type x) (priority x) (payload x) (status x) (createdAt x)
     (startedAt x) (completedAt x) (result x) (error x) v (maxRetries x)
     (timeout x) (dependencies x) (dependents x).

Definition set_dependencies (v : option (list string)) (x : t) : t :=
  mk (id x) (type x) (priority x) (payload x) (status x) (createdAt x)
     (startedAt x) (completedAt x) (result x) (error x) (retries x)
     (maxRetries x) (timeout x) v (dependents x).

Definition set_dependents (v : option (list string)) (x : t) : t :=
  mk (id x) (type x) (priority x) (payload x) (status x) (createdAt x)
     (startedAt x) (completedAt x) (result x) (error x) (retries x)
     (maxRetries x) (timeout x) (dependencies x) v.

(** The dependency ids of a task; a missing array lists none. *)
Definition deps (x : t) : list string := default [] (dependencies x).

End Task.

(** ** Workflow records *)

Module Workflow.

Record t : Type := mk {
  id : string;
  name : string;
  description : option string;
  tasks : list Task.t;
  status : Status;
  createdAt : Z;
  startedAt : option Z;
  completedAt : option Z;
  result : option (gmap string Json);
  error : option string
}.

End Workflow.

(** ** The environment *)

(** A call into a collaborator, as [executeTask] issues it. *)
Inductive Call : Type :=
  | Chat (msgs : Json) (opts : option Json)
  | Complete (text : string) (opts : option Json)
  | Execute (p : Payload)
  | ExecuteTool (name : option Json) (arg : option Json)
  | SubWorkflow (wid : option string)
  | GetMetrics.

(** How an awaited promise settles. *)
Inductive Outcome (A : Type) : Type :=
  | Fulfilled (v : A)
  | Rejected (msg : string).
Arguments Fulfilled {A} v.
Arguments Rejected {A} msg.

Record Env : Type := mkEnv {
  (** [Date.now()] at a step *)
  dateNow : nat → Z;
  (** [Math.random().toString(36).substr(2, 9)] at a step *)
  mathRandom : nat → string;
  (** how the collaborator call issued at a step settles *)
  collaborator : nat → Call → Outcome Json;
  (** [memoryService.store] at a step: [Some msg] when it rejects; the
      service logs and rethrows as [Memory storage failed: ...] *)
  memoryStore : nat → option string
}.

(** ** The orchestrator's own state *)

Record Orchestrator : Type := mkOrchestrator {
  maxConcurrentTasks : Z;
  taskTimeout : Z;
  autoScalingEnabled : bool;
  selfHealingEnabled : bool;
  tasks : list (string * Task.t);
  workflows : gmap string Workflow.t;
  runningTasks : gset string;
  taskQueue : list Task.t;
  isAutonomousMode : bool
}.

Definition set_tasks (v : list (string * Task.t)) (o : Orchestrator) :=
  mkOrchestrator (maxConcurrentTasks o) (taskTimeout o) (autoScalingEnabled o)
    (selfHealingEnabled o) v (workflows o) (runningTasks o) (taskQueue o)
    (isAutonomousMode o).

Definition set_workflows (v : gmap string Workflow.t) (o : Orchestrator) :=
  mkOrchestrator (maxConcurrentTasks o) (taskTimeout o) (autoScalingEnabled o)
    (selfHealingEnabled o) (tasks o) v (runningTasks o) (taskQueue o)
    (isAutonomousMode o).

Definition set_runningTasks (v : gset string) (o : Orchestrator) :=
  mkOrchestrator (maxConcurrentTasks o) (taskTimeout o) (autoScalingEnabled o)
    (selfHealingEnabled o) (tasks o) (workflows o) v (taskQueue o)
    (isAutonomousMode o).

Definition set_maxConcurrentTasks (v : Z) (o : Orchestrator) :=
  mkOrchestrator v (taskTimeout o) (autoScalingEnabled o)
    (selfHealingEnabled o) (tasks o) (workflows o) (runningTasks o)
    (taskQueue o) (isAutonomousMode o).

Definition set_isAutonomousMode (v : bool) (o : Orchestrator) :=
  mkOrchestrator (maxConcurrentTasks o) (taskTimeout o) (autoScalingEnabled o)
    (selfHealingEnabled o) (tasks o) (workflows o) (runningTasks o)
    (taskQueue o) v.

(** The state the constructor leaves, with its defaults. *)
Definition constructor : Orchestrator :=
  mkOrchestrator 10 300 true true [] ∅ ∅ [] false.

(** ** Priorities *)

Definition getPriorityWeight (priority : string) : Z :=
  if decide (priority = "critical") then 4
  else if decide (priority = "high") then 3
  else if decide (priority = "medium") then 2
  else if decide (priority = "low") then 1
  else 2.

(** [v || 'medium']: a missing or empty string is falsy. *)
Definition orMedium (v : option string) : string :=
  match v with
  | Some s => if decide (s = "") then "medium" else s
  | None => "medium"
  end.

(** ** Building a workflow from a request *)

(** Truthiness of an optional string, as in [if (request.prompt)]. *)
Definition truthyString (v : option string) : bool :=
  match v with
  | Some s => bool_decide (s ≠ "")
  | None => false
  end.

(** Truthiness of an optional value, as in [if (payload.messages)]. *)
Definition truthy (v : option Json) : bool :=
  match v with
  | None | Some JNull => false
  | Some (JBool b) => b
  | Some (JNum z) => bool_decide (z ≠ 0)
  | Some (JStr s) => bool_decide (s ≠ "")
  | Some (JArr _) | Some (JObj _) => true
  end.

(** [`${prefix}${Date.now()}_${Math.random().toString(36).substr(2, 9)}`] *)
Definition freshId (env : Env) (n : nat) (prefix : string) : string :=
  prefix +:+ pretty (dateNow env n) +:+ "_" +:+ mathRandom env n.

Definition newTask (env : Env) (n : nat) (prefix : string) (ty : TaskType)
    (prio : string) (p : Payload) : Task.t :=
  Task.mk (freshId env n prefix) ty prio p pending (dateNow env n)
          None None None None 0 3 None None None.

(** The loop over [request.tools]: one task per tool, one step each. *)
Fixpoint toolTasks (env : Env) (n : nat) (ts : list Tool) : list Task.t :=
  match ts with
  | [] => []
  | tl :: rest =>
      newTask env n "task_mcp_" mcp (orMedium (tool_priority tl)) (PTool tl)
        :: toolTasks env (S n) rest
  end.

(** [array.find] followed by a mutation of the object found: the first
    element that satisfies [p] is replaced by its image. *)
Fixpoint updateFirst (p : Task.t → bool) (f : Task.t → Task.t)
    (l : list Task.t) : list Task.t :=
  match l with
  | [] => []
  | x :: rest => if p x then f x :: rest else x :: updateFirst p f rest
  end.

Definition hasId (i : string) (x : Task.t) : bool :=
  bool_decide (Task.id x = i).

(** [if (!a) a = []; a.push(v)] *)
Definition push (v : string) (a : option (list string)) : option (list string) :=
  Some (default [] a ++ [v]).

Definition wireEdge (ts : list Task.t) (e : DepEdge) : list Task.t :=
  match List.find (hasId (dependent e)) ts, List.find (hasId (dependency e)) ts with
  | Some _, Some dependencyTask =>
      let ts1 :=
        updateFirst (hasId (dependent e))
          (λ x, Task.set_dependencies
                  (push (Task.id dependencyTask) (Task.dependencies x)) x) ts in
      updateFirst (hasId (dependency e))
        (λ x, Task.set_dependents (push (dependent e) (Task.dependents x)) x) ts1
  | _, _ => ts
  end.

Definition setupTaskDependencies (ts : list Task.t) (deps : list DepEdge)
    : list Task.t :=
  foldl wireEdge ts deps.

(** Returns the tasks and the next free step. *)
Definition analyzeAndCreateTasks (env : Env) (n : nat) (request : Request)
    : list Task.t * nat :=
  let aiTasks :=
    if truthyString (prompt request) || truthy (messages request)
    then [newTask env n "task_ai_" ai (orMedium (req_priority request))
            (PRequest request)]
    else [] in
  let n1 := (n + length aiTasks)%nat in
  let mcpTasks := toolTasks env n1 (default [] (tools request)) in
  let n2 := (n1 + length mcpTasks)%nat in
  let created := aiTasks ++ mcpTasks in
  (match req_dependencies request with
   | Some deps => setupTaskDependencies created deps
   | None => created
   end, n2).

(** [name || `Workflow ${workflowId}`] *)
Definition workflowName (v : option string) (workflowId : string) : string :=
  match v with
  | Some s => if decide (s = "") then "Workflow " +:+ workflowId else s
  | None => "Workflow " +:+ workflowId
  end.

Definition storeError (msg : string) : string :=
  "Memory storage failed: " +:+ msg.

(** [createWorkflow]: the workflow is registered first, then snapshotted
    through the persistence collaborator; the [await] on the store is not
    guarded, so a rejection there rejects [createWorkflow]. *)
Definition createWorkflow (env : Env) (n : nat) (request : Request)
    (o : Orchestrator) : Orchestrator * nat * Outcome Workflow.t :=
  let workflowId := freshId env n "workflow_" in
  let '(created, n1) := analyzeAndCreateTasks env (S n) request in
  let wf :=
    Workflow.mk workflowId (workflowName (req_name request) workflowId)
      (req_description request) created pending (dateNow env n1)
      None None None None in
  let o' := set_workflows (<[workflowId := wf]> (workflows o)) o in
  (o', S n1,
   match memoryStore env n1 with
   | Some msg => Rejected (storeError msg)
   | None => Fulfilled wf
   end).

(** ** Executing one task *)

Definition payloadMessages (p : Payload) : option Json :=
  match p with PRequest r => messages r | PTool _ => None end.
Definition payloadPrompt (p : Payload) : option string :=
  match p with PRequest r => prompt r | PTool _ => None end.
Definition payloadOptions (p : Payload) : option Json :=
  match p with PRequest r => options r | PTool _ => None end.
Definition payloadTool (p : Payload) : option Json :=
  match p with PRequest _ => None | PTool tl => tool tl end.
Definition payloadInput (p : Payload) : option Json :=
  match p with PRequest _ => None | PTool tl => input tl end.
Definition payloadWorkflowId (p : Payload) : option string :=
  match p with PRequest r => workflowId r | PTool _ => None end.

Definition executeAITask (x : Task.t) : Call :=
  let p := Task.payload x in
  let withoutMessages :=
    match payloadPrompt p with
    | Some s =>
        if truthyString (Some s) then Complete s (payloadOptions p)
        else Execute p
    | None => Execute p
    end in
  match payloadMessages p with
  | Some m => if truthy (Some m) then Chat m (payloadOptions p) else withoutMessages
  | None => withoutMessages
  end.

Definition executeMCPTask (x : Task.t) : Call :=
  ExecuteTool (payloadTool (Task.payload x)) (payloadInput (Task.payload x)).

(** A task of type [workflow] re-enters [executeWorkflow] on another
    workflow id. [analyzeAndCreateTasks] builds only [ai] and [mcp] tasks, so
    the nested run is left to the environment like the other collaborators. *)
Definition executeWorkflowTask (x : Task.t) : Call :=
  SubWorkflow (payloadWorkflowId (Task.payload x)).

Definition executeMonitoringTask (x : Task.t) : Call := GetMetrics.

(** The [switch (task.type)] of [executeTask]; its [default] branch is out
    of reach of a [TaskType]. *)
Definition dispatch (x : Task.t) : Call :=
  match Task.type x with
  | ai => executeAITask x
  | mcp => executeMCPTask x
  | workflow => executeWorkflowTask x
  | monitoring => executeMonitoringTask x
  end.

(** [executeTask] up to its first [await]: the synchronous prefix. *)
Definition executeTask_begin (now : Z) (x : Task.t) : Task.t :=
  Task.set_startedAt (Some now) (Task.set_status running x).

(** The [catch] branch's retry logic. *)
Definition retryLogic (x : Task.t) : Task.t :=
  if decide (Task.retries x < Task.maxRetries x)
  then Task.set_status pending (Task.set_retries (Task.retries x + 1) x)
  else x.

(** [executeTask] after the collaborator call has settled. *)
Definition executeTask_settle (now : Z) (r : Outcome Json) (x : Task.t) : Task.t :=
  match r with
  | Fulfilled v =>
      Task.set_result (Some v)
        (Task.set_completedAt (Some now) (Task.set_status completed x))
  | Rejected msg =>
      retryLogic
        (Task.set_error (Some msg)
           (Task.set_completedAt (Some now) (Task.set_status failed x)))
  end.

(** One whole run of [executeTask] issued at step [n]: the task it leaves
    and how its promise settles. *)
Definition executeTask (env : Env) (n : nat) (x : Task.t)
    : Task.t * Outcome Json :=
  let x1 := executeTask_begin (dateNow env n) x in
  let r := collaborator env n (dispatch x1) in
  (executeTask_settle (dateNow env (S n)) r x1, r).

(** ** Executing a workflow *)

(** The predicate of the [filter] that computes [readyTasks]. *)
Definition IsReady (executedTasks : gset string) (x : Task.t) : Prop :=
  (Task.id x ∉ executedTasks) ∧
  (match Task.dependencies x with
   | None => True
   | Some deps => Forall (λ dep, dep ∈ executedTasks) deps
   end).

#[global] Instance IsReady_dec executedTasks x : Decision (IsReady executedTasks x).
Proof. unfold IsReady. destruct (Task.dependencies x); apply _. Defined.

Definition readyTasks (executedTasks : gset string) (ts : list Task.t)
    : list Task.t :=
  filter (IsReady executedTasks) ts.

Definition graphError : string :=
  "Circular dependency detected or no tasks ready to execute".

(** [`Task ${task.id} failed: ${result.reason}`], the reason being an
    [Error] whose message is [reason]. *)
Definition taskFailed (i reason : string) : string :=
  "Task " +:+ i +:+ " failed: Error: " +:+ reason.

(** [readyTasks.map(task => this.executeTask(task))] followed by
    [Promise.allSettled]: every ready task of [ts] is run, in the order of
    [ts], each on its own step; the other tasks are left alone. The runs of
    a batch overlap in time, but each writes its own task only, so running
    them one after the other leaves the same tasks and outcomes. Returns the
    tasks after the batch and, for the ready ones, their id and outcome. *)
Fixpoint runBatch (env : Env) (n : nat) (executedTasks : gset string)
    (ts : list Task.t) : list Task.t * list (string * Outcome Json) :=
  match ts with
  | [] => ([], [])
  | x :: rest =>
      if decide (IsReady executedTasks x) then
        let '(x', r) := executeTask env n x in
        let '(rest', rs) := runBatch env (S n) executedTasks rest in
        (x' :: rest', (Task.id x, r) :: rs)
      else
        let '(rest', rs) := runBatch env n executedTasks rest in
        (x :: rest', rs)
  end.

(** The [for] loop over the settled batch: it stops at the first rejection. *)
Fixpoint collectResults (executedTasks : gset string)
    (results : gmap string Json) (rs : list (string * Outcome Json))
    : gset string * gmap string Json * option string :=
  match rs with
  | [] => (executedTasks, results, None)
  | (i, Fulfilled v) :: rest =>
      collectResults ({[i]} ∪ executedTasks) (<[i := v]> results) rest
  | (i, Rejected reason) :: _ =>
      ({[i]} ∪ executedTasks, results, Some (taskFailed i reason))
  end.

(** How a piece of code that may loop ends. *)
Inductive Completion (A : Type) : Type :=
  | Returned (v : A)
  | Threw (msg : string)
  | OutOfFuel.
Arguments Returned {A} v.
Arguments Threw {A} msg.
Arguments OutOfFuel {A}.

(** What the [while] loop leaves: the tasks, the next step, how it ended, and
    the batches it dispatched, each with the tasks as they were when the
    batch was computed. *)
Record LoopResult : Type := mkLoopResult {
  loop_tasks : list Task.t;
  loop_step : nat;
  loop_completion : Completion (gmap string Json);
  loop_batches : list (list Task.t * list Task.t)
}.

Fixpoint executeLoop (fuel : nat) (env : Env) (n : nat)
    (executedTasks : gset string) (results : gmap string Json)
    (ts : list Task.t) : LoopResult :=
  match fuel with
  | O => mkLoopResult ts n OutOfFuel []
  | S fuel' =>
      if decide (size executedTasks < length ts)%nat then
        let ready := readyTasks executedTasks ts in
        if decide (ready = []) then mkLoopResult ts n (Threw graphError) []
        else
          let '(ts', rs) := runBatch env n executedTasks ts in
          let n' := (n + length ready)%nat in
          match collectResults executedTasks results rs with
          | (_, _, Some msg) => mkLoopResult ts' n' (Threw msg) [(ts, ready)]
          | (executedTasks', results', None) =>
              let r := executeLoop fuel' env n' executedTasks' results' ts' in
              mkLoopResult (loop_tasks r) (loop_step r) (loop_completion r)
                ((ts, ready) :: loop_batches r)
          end
      else mkLoopResult ts n (Returned results) []
  end.

(** What one call of [executeWorkflow] leaves. *)
Record Execution : Type := mkExecution {
  exec_state : Orchestrator;
  exec_step : nat;
  exec_completion : Completion (gmap string Json);
  exec_batches : list (list Task.t * list Task.t)
}.

Definition notFound (workflowId : string) : string :=
  "Workflow " +:+ workflowId +:+ " not found".

(** The [try]/[catch] of [executeWorkflow]: the workflow record once the loop
    has ended. *)
Definition closeWorkflow (now : Z) (wf : Workflow.t) (started : option Z)
    (r : LoopResult) : Workflow.t :=
  match loop_completion r with
  | Returned results =>
      Workflow.mk (Workflow.id wf) (Workflow.name wf) (Workflow.description wf)
        (loop_tasks r) completed (Workflow.createdAt wf) started (Some now)
        (Some results) (Workflow.error wf)
  | Threw msg =>
      Workflow.mk (Workflow.id wf) (Workflow.name wf) (Workflow.description wf)
        (loop_tasks r) failed (Workflow.createdAt wf) started (Some now)
        (Workflow.result wf) (Some msg)
  | OutOfFuel =>
      Workflow.mk (Workflow.id wf) (Workflow.name wf) (Workflow.description wf)
        (loop_tasks r) running (Workflow.createdAt wf) started
        (Workflow.completedAt wf) (Workflow.result wf) (Workflow.error wf)
  end.

(** The [finally] block: a rejection of the unguarded [await] on the store
    replaces whatever the [try] or the [catch] was about to deliver. *)
Definition finallyStore (env : Env) (n : nat)
    (c : Completion (gmap string Json)) : Completion (gmap string Json) :=
  match c with
  | OutOfFuel => OutOfFuel
  | _ =>
      match memoryStore env n with
      | Some msg => Threw (storeError msg)
      | None => c
      end
  end.

(** [executeWorkflow]. The loop gets one round more than there are tasks,
    which is all it can use (see [executeLoop_fuel]). *)
Definition executeWorkflow (env : Env) (n : nat) (workflowId : string)
    (o : Orchestrator) : Execution :=
  match workflows o !! workflowId with
  | None => mkExecution o n (Threw (notFound workflowId)) []
  | Some wf =>
      let r :=
        executeLoop (S (length (Workflow.tasks wf))) env n ∅ ∅
          (Workflow.tasks wf) in
      let wf' :=
        closeWorkflow (dateNow env (loop_step r)) wf (Some (dateNow env n)) r in
      mkExecution
        (set_workflows (<[workflowId := wf']> (workflows o)) o)
        (S (loop_step r))
        (finallyStore env (loop_step r) (loop_completion r))
        (loop_batches r)
  end.

(** [orchestrate]: create, then execute. *)
Definition orchestrate (env : Env) (n : nat) (request : Request)
    (o : Orchestrator) : Execution :=
  let '(o1, n1, created) := createWorkflow env n request o in
  match created with
  | Rejected msg => mkExecution o1 n1 (Threw msg) []
  | Fulfilled wf => executeWorkflow env n1 (Workflow.id wf) o1
  end.

(** ** The autonomous mode *)

(** [array.sort((a, b) => weight(b) - weight(a))]. The sort of the language
    is stable, and a stable sort has one possible result, which insertion
    from the right computes: an element goes in front of the first element
    that the comparator does not put strictly before it. *)
Section Sort.
Context {A : Type} (weight : A → Z).

Fixpoint insertDesc (a : A) (l : list A) : list A :=
  match l with
  | [] => [a]
  | b :: rest =>
      if decide (weight b - weight a ≤ 0) then a :: b :: rest
      else b :: insertDesc a rest
  end.

Definition sortDesc (l : list A) : list A := foldr insertDesc [] l.
End Sort.

Definition entryWeight (e : string * Task.t) : Z :=
  getPriorityWeight (Task.priority e.2).

(** The entries of the task map whose task is pending, by descending
    priority weight. *)
Definition pendingEntries (o : Orchestrator) : list (string * Task.t) :=
  sortDesc entryWeight (filter (λ e, Task.status e.2 = pending) (tasks o)).

Definition pendingTasks (o : Orchestrator) : list Task.t :=
  (pendingEntries o).*2.

Definition availableSlots (o : Orchestrator) : Z :=
  maxConcurrentTasks o - Z.of_nat (size (runningTasks o)).

(** The entries that one queue pass starts. *)
Definition dispatched (o : Orchestrator) : list (string * Task.t) :=
  take (Z.to_nat (Z.min (Z.of_nat (length (pendingEntries o))) (availableSlots o)))
       (pendingEntries o).

(** The synchronous part of [processTaskQueue]: every selected task is
    registered as running and its [executeTask] starts; the collaborator
    calls settle later (see [taskSettled]). The selected objects are found
    back in the map by their keys, which a [Map] keeps distinct. *)
Definition processTaskQueue (env : Env) (n : nat) (o : Orchestrator)
    : Orchestrator :=
  if isAutonomousMode o then
    let sel := dispatched o in
    set_runningTasks (list_to_set (Task.id <$> sel.*2) ∪ runningTasks o)
      (set_tasks
         ((λ e, if decide (e.1 ∈ sel.*1)
                then (e.1, executeTask_begin (dateNow env n) e.2) else e)
            <$> tasks o) o)
  else o.

(** A task started by the queue pass settles: the rest of [executeTask],
    then the [finally] that frees its slot. *)
Definition taskSettled (now : Z) (key : string) (r : Outcome Json)
    (o : Orchestrator) : Orchestrator :=
  set_runningTasks
    (runningTasks o ∖
       list_to_set (Task.id <$> (filter (λ e, e.1 = key) (tasks o)).*2))
    (set_tasks
       ((λ e, if decide (e.1 = key) then (e.1, executeTask_settle now r e.2) else e)
          <$> tasks o) o).

(** One evaluation of the adaptive concurrency callback, as a function of
    what it observes: [this.taskQueue.length] and [this.runningTasks.size].
    (The metrics it awaits first are not used.) *)
Definition scaleStep (queueLength runningCount maxConcurrent : Z) : Z :=
  if decide (queueLength > 20 ∧ runningCount < maxConcurrent)
  then maxConcurrent + 2
  else if decide (queueLength < 5 ∧ runningCount > 5 ∧ maxConcurrent > 5)
  then maxConcurrent - 1
  else maxConcurrent.

(** The callback of [startAutoScaling] on the orchestrator. *)
Definition startAutoScaling (o : Orchestrator) : Orchestrator :=
  set_maxConcurrentTasks
    (scaleStep (Z.of_nat (length (taskQueue o)))
       (Z.of_nat (size (runningTasks o))) (maxConcurrentTasks o)) o.


(** First half of the self-healing callback, on one task. *)
Definition healFailed (x : Task.t) : Task.t :=
  if decide (Task.status x = failed ∧ Task.retries x < Task.maxRetries x)
  then Task.set_retries (Task.retries x + 1) (Task.set_status pending x)
  else x.

(** [task.timeout || this.config.taskTimeout] *)
Definition effectiveTimeout (cfg : Z) (x : Task.t) : Z :=
  match Task.timeout x with
  | Some v => if decide (v = 0) then cfg else v
  | None => cfg
  end.

Definition IsStuck (now cfg : Z) (x : Task.t) : Prop :=
  Task.status x = running ∧
  (match Task.startedAt x with
   | Some s => now - s > effectiveTimeout cfg x * 1000
   | None => False
   end).

#[global] Instance IsStuck_dec now cfg x : Decision (IsStuck now cfg x).
Proof. unfold IsStuck. destruct (Task.startedAt x); apply _. Defined.

(** Second half of the self-healing callback, on one task. *)
Definition healStuck (now cfg : Z) (x : Task.t) : Task.t :=
  if decide (IsStuck now cfg x)
  then Task.set_error (Some "Task timed out") (Task.set_status failed x)
  else x.

(** The callback of [startSelfHealing] on the orchestrator. *)
Definition startSelfHealing (now : Z) (o : Orchestrator) : Orchestrator :=
  let requeued := prod_map id healFailed <$> tasks o in
  let stuck := filter (IsStuck now (taskTimeout o)) requeued.*2 in
  set_runningTasks (runningTasks o ∖ list_to_set (Task.id <$> stuck))
    (set_tasks (prod_map id (healStuck now (taskTimeout o)) <$> requeued) o).

(** [Map.get] *)
Fixpoint mapGet (key : string) (m : list (string * Task.t)) : option Task.t :=
  match m with
  | [] => None
  | (k, x) :: rest => if decide (k = key) then Some x else mapGet key rest
  end.

Definition getTask (o : Orchestrator) (taskId : string) : option Task.t :=
  mapGet taskId (tasks o).

Definition getWorkflow (o : Orchestrator) (workflowId : string)
    : option Workflow.t :=
  workflows o !! workflowId.

Definition listTasks (o : Orchestrator) (status : option Status)
    : list Task.t :=
  match status with
  | Some s => filter (λ x, Task.status x = s) (tasks o).*2
  | None => (tasks o).*2
  end.

(** ** The life of one task *)

(** Everything the service can do to one task record: the two halves of
    [executeTask] (they are separated by an [await], so the callbacks of the
    autonomous mode can run in between) and the two halves of the
    self-healing callback. *)
Inductive TaskOp : Type :=
  | OpBegin (now : Z)
  | OpSettle (now : Z) (r : Outcome Json)
  | OpHealFailed
  | OpHealStuck (now cfg : Z).

Definition applyOp (x : Task.t) (op : TaskOp) : Task.t :=
  match op with
  | OpBegin now => executeTask_begin now x
  | OpSettle now r => executeTask_settle now r x
  | OpHealFailed => healFailed x
  | OpHealStuck now cfg => healStuck now cfg x
  end.

Definition applyOps (ops : list TaskOp) (x : Task.t) : Task.t :=
  foldl applyOp x ops.

Definition isSuccess (op : TaskOp) : bool :=
  match op with OpSettle _ (Fulfilled _) => true | _ => false end.

Definition isFailure (op : TaskOp) : bool :=
  match op with
  | OpSettle _ (Rejected _) | OpHealStuck _ _ => true
  | _ => false
  end.

(** [result] and [error] are not both set. *)
Definition Exclusive (x : Task.t) : Prop :=
  Task.result x = None ∨ Task.error x = None.

(** ** The dependency graph of a workflow *)

Definition taskIds (ts : list Task.t) : list string := Task.id <$> ts.

(** [x] waits for [y]: both are tasks of the workflow and the id of [y] is
    among the dependencies of [x]. *)
Definition dependsOn (ts : list Task.t) (x y : Task.t) : Prop :=
  x ∈ ts ∧ y ∈ ts ∧ Task.id y ∈ Task.deps x.

(** [x] lies on a dependency cycle (a task that depends on itself is one). *)
Definition onCycle (ts : list Task.t) (x : Task.t) : Prop :=
  tc (dependsOn ts) x x.

(** [x] names a dependency that is no task of the workflow. *)
Definition dangling (ts : list Task.t) (x : Task.t) : Prop :=
  x ∈ ts ∧ ∃ dep, dep ∈ Task.deps x ∧ dep ∉ taskIds ts.

(** A task that can never become ready. *)
Definition blocked (ts : list Task.t) (x : Task.t) : Prop :=
  onCycle ts x ∨ dangling ts x.

(** ** Invariants and measures of the batch loop *)

(** The number of tasks whose id is still outside [executedTasks] bounds the
    number of rounds the loop can make. *)
Definition remaining (ex : gset string) (ts : list Task.t) : nat :=
  length (filter (λ i, i ∉ ex) (Task.id <$> ts)).

(** Every task whose id has been executed is [completed]. *)
Definition Done (ts : list Task.t) (ex : gset string) : Prop :=
  ∀ y, y ∈ ts → Task.id y ∈ ex → Task.status y = completed.



(** ** Vocabulary of the statements *)

(** The weight of a task, and "not after" in descending weight order. *)
Definition taskWeight (x : Task.t) : Z := getPriorityWeight (Task.priority x).

Definition byWeight (a b : Task.t) : Prop := taskWeight b ≤ taskWeight a.

(** Every collaborator call fulfils. *)
Definition allFulfil (env : Env) : Prop :=
  ∀ k c, ∃ v, collaborator env k c = Fulfilled v.

(** The same environment with another persistence service. *)
Definition withStore (store : nat → option string) (env : Env) : Env :=
  mkEnv (dateNow env) (mathRandom env) (collaborator env) store.

(** The status of a registered workflow, with the status and the retry count
    of each of its tasks. *)
Definition taskStates (o : Orchestrator) (workflowId : string)
    : option (Status * list (Status * Z)) :=
  (λ wf, (Workflow.status wf,
          (λ x, (Task.status x, Task.retries x)) <$> Workflow.tasks wf))
    <$> workflows o !! workflowId.

(** ** Concrete environments, requests, tasks and workflows

    Inputs on which the properties below are exercised. *)

(** An environment whose collaborators reject every call issued before step
    [k] and fulfil every later one; the store always succeeds. *)
Definition failsBefore (k : nat) : Env :=
  mkEnv (λ n, 1700000000000 + Z.of_nat n) (λ n, "r" +:+ pretty n)
    (λ n _, if decide (n < k)%nat then Rejected "boom" else Fulfilled (JStr "ok"))
    (λ _, None).

(** Collaborators that always fulfil, with a persistence service that is
    down. *)
Definition storeDown : Env :=
  withStore (λ _, Some "Error: connect ECONNREFUSED") (failsBefore 0).

(** A request with nothing in it. *)
Definition emptyRequest : Request :=
  mkRequest None None None None None None None None None.

(** A bare prompt, and the AI task that [analyzeAndCreateTasks] builds for
    it. *)
Definition promptRequest : Request :=
  mkRequest None None (Some "hello") None None None None None None.

Definition freshTask : Task.t :=
  newTask (failsBefore 0) 0 "task_ai_" ai "medium" (PRequest promptRequest).

(** A request whose AI task is of low priority and whose only tool is
    critical. *)
Definition mixedRequest : Request :=
  mkRequest None None (Some "hello") None None (Some "low")
    (Some [mkTool (Some (JStr "search")) None (Some "critical")]) None None.

(** A request with a prompt and two tools whose dependency list makes the
    two tool tasks wait for each other, the tasks built from it, and a
    workflow of these tasks. *)
Definition cycleRequest : Request :=
  mkRequest (Some "cycle") None (Some "hello") None None None
    (Some [mkTool (Some (JStr "search")) None None;
           mkTool (Some (JStr "fetch")) None None])
    (Some [mkDepEdge "task_mcp_1700000000002_r2" "task_mcp_1700000000003_r3";
           mkDepEdge "task_mcp_1700000000003_r3" "task_mcp_1700000000002_r2"])
    None.

Definition cycleTasks : list Task.t :=
  (analyzeAndCreateTasks (failsBefore 0) 1 cycleRequest).1.

Definition cycleMember (j : nat) : Task.t :=
  default freshTask (cycleTasks !! j).

Definition cycleWorkflow : Workflow.t :=
  Workflow.mk "workflow_1700000000000_r0" "cycle" None cycleTasks pending
    1700000000004 None None None None.

Definition cycleOrchestrator : Orchestrator :=
  set_workflows {["workflow_1700000000000_r0" := cycleWorkflow]} constructor.

(** A workflow of one task that allows two retries. *)
Definition retryTask : Task.t :=
  Task.mk "task_ai_1700000000001_r1" ai "medium" (PRequest promptRequest)
    pending 1700000000001 None None None None 0 2 None None None.

Definition retryWorkflow : Workflow.t :=
  Workflow.mk "workflow_1700000000000_r0" "retry" None [retryTask] pending
    1700000000002 None None None None.

Definition retryOrchestrator : Orchestrator :=
  set_workflows {["workflow_1700000000000_r0" := retryWorkflow]} constructor.

(** A task that has failed with its one retry used up. *)
Definition exhaustedTask : Task.t :=
  Task.mk "task_ai_1700000000001_r1" ai "medium" (PRequest promptRequest)
    failed 1700000000001 (Some 1700000000003) (Some 1700000000004) None
    (Some "boom") 1 1 None None None.

(** A task map in which task B waits for task A, in autonomous mode. *)
Definition queuedA : Task.t :=
  Task.mk "task_ai_1700000000001_a" ai "low" (PRequest promptRequest) pending
    1700000000001 None None None None 0 3 None None
    (Some ["task_mcp_1700000000002_b"]).

Definition queuedB : Task.t :=
  Task.mk "task_mcp_1700000000002_b" mcp "critical"
    (PTool (mkTool (Some (JStr "search")) None (Some "critical"))) pending
    1700000000002 None None None None 0 3 None
    (Some ["task_ai_1700000000001_a"]) None.

Definition queueOrchestrator : Orchestrator :=
  set_isAutonomousMode true
    (set_tasks [("task_ai_1700000000001_a", queuedA);
                ("task_mcp_1700000000002_b", queuedB)] constructor).

(** ** The dependency graph by ids *)

(** The ids of the tasks with the ids they wait for: all that readiness
    looks at besides [executedTasks]. *)
Definition graphOf (ts : list Task.t) : list (string * list string) :=
  (λ x, (Task.id x, Task.deps x)) <$> ts.

Definition idEdge (G : list (string * list string)) (i j : string) : Prop :=
  ∃ deps, (i, deps) ∈ G ∧ j ∈ deps.

(** Every dependency names a task. *)
Definition Closed (G : list (string * list string)) : Prop :=
  ∀ i deps j, (i, deps) ∈ G → j ∈ deps → j ∈ G.*1.

(** The result map agrees with the [result] field of every executed task. *)
Definition Agree (ts : list Task.t) (ex : gset string)
    (res : gmap string Json) : Prop :=
  ∀ x, x ∈ ts → Task.id x ∈ ex → res !! Task.id x = Task.result x.

(** A request whose tool task waits for its AI task, the tasks built from
    it, and a workflow of these tasks. *)
Definition chainRequest : Request :=
  mkRequest (Some "chain") None (Some "hello") None None None
    (Some [mkTool (Some (JStr "search")) None None])
    (Some [mkDepEdge "task_mcp_1700000000002_r2" "task_ai_1700000000001_r1"])
    None.

Definition chainTasks : list Task.t :=
  (analyzeAndCreateTasks (failsBefore 0) 1 chainRequest).1.

Definition chainWorkflow : Workflow.t :=
  Workflow.mk "workflow_1700000000000_r0" "chain" None chainTasks pending
    1700000000003 None None None None.

Definition chainOrchestrator : Orchestrator :=
  set_workflows {["workflow_1700000000000_r0" := chainWorkflow]} constructor.

(** The run of [chainWorkflow] with collaborators that fulfil, its second
    batch, the task of that batch and the task it waits for. *)
Definition chainRun : Execution :=
  executeWorkflow (failsBefore 0) 0 "workflow_1700000000000_r0"
    chainOrchestrator.

Definition chainBatch : list Task.t * list Task.t :=
  default ([], []) (exec_batches chainRun !! 1%nat).

Definition chainDependent : Task.t := default freshTask (chainBatch.2 !! 0%nat).

Definition chainDependency : Task.t := default freshTask (chainBatch.1 !! 0%nat).

(** ** Vocabulary for task construction *)





(** ** Vocabulary for the autonomous mode *)

(** The pending entries that one queue pass leaves waiting. *)
Definition waiting (o : Orchestrator) : list (string * Task.t) :=
  drop (length (dispatched o)) (pendingEntries o).

(** What the self-healing callback writes on a task it times out. *)
Definition timedOut : string := "Task timed out".

(** A task map with one task that has been running for too long. *)
Definition stuckTask : Task.t :=
  Task.mk "task_ai_1700000000001_s" ai "medium" (PRequest promptRequest)
    running 1700000000001 (Some 1700000000002) None None None 0 3 None None
    None.

Definition stuckOrchestrator : Orchestrator :=
  set_runningTasks {["task_ai_1700000000001_s"]}
    (set_isAutonomousMode true
       (set_tasks [("task_ai_1700000000001_s", stuckTask)] constructor)).

(** * The monitoring service

    A shallow embedding of [MonitoringService] (first half of the same
    source file): the four in-memory arrays and the methods that write and
    read them.

    Every Redis call of the service sits in a [try] whose handler only
    prints, and no value read from Redis reaches the arrays; the alert
    webhook is guarded in the same way. The arrays after a call are thus the
    same with or without Redis and webhook, and the model leaves both out,
    together with the console. The clock and the random source are an
    environment indexed by a step counter, as for the orchestrator: one step
    for a [generateId], one for a [new Date()]. Metric values are carried,
    never computed with, by the methods modelled here; a [Z] stands for
    them. *)

(** [Array.prototype.slice] with integer arguments: a negative index counts
    from the end, and both indices are clamped to the array. *)
Definition sliceIndex (len k : Z) : Z :=
  if decide (k < 0) then Z.max (len + k) 0 else Z.min k len.

Definition slice {A} (start : Z) (fin : option Z) (l : list A) : list A :=
  let len := Z.of_nat (length l) in
  let k := sliceIndex len start in
  let final := match fin with Some e => sliceIndex len e | None => len end in
  take (Z.to_nat (final - k)) (drop (Z.to_nat k) l).

(** [array.find] followed by a mutation of the object found. *)
Fixpoint updateFirstOf {A} (p : A → bool) (f : A → A) (l : list A) : list A :=
  match l with
  | [] => []
  | x :: rest => if p x then f x :: rest else x :: updateFirstOf p f rest
  end.

(** [Number.prototype.toString(36)] on an integer. *)
Definition digit36 (d : Z) : string :=
  default "" ((λ c, String c EmptyString) <$>
    (String.list_ascii_of_string "0123456789abcdefghijklmnopqrstuvwxyz") !! Z.to_nat d).

Fixpoint toString36_digits (fuel : nat) (z : Z) (acc : string) : string :=
  match fuel with
  | O => acc
  | S fuel' =>
      let acc' := digit36 (z `mod` 36) +:+ acc in
      if decide (z < 36) then acc' else toString36_digits fuel' (z `div` 36) acc'
  end.

Definition toString36 (z : Z) : string :=
  if decide (z < 0)
  then "-" +:+ toString36_digits (S (Z.to_nat (Z.log2 (- z)))) (- z) ""
  else toString36_digits (S (Z.to_nat (Z.log2 z))) z "".

Module Monitoring.

Inductive MetricType : Type := counter | gauge | histogram | summary.
Inductive Level : Type := debug | info | warn | error | fatal.
Inductive Severity : Type := low | medium | high | critical.
Inductive Health : Type := healthy | unhealthy | degraded.

#[global] Instance MetricType_eq_dec : EqDecision MetricType.
Proof. solve_decision. Defined.
#[global] Instance Level_eq_dec : EqDecision Level.
Proof. solve_decision. Defined.
#[global] Instance Severity_eq_dec : EqDecision Severity.
Proof. solve_decision. Defined.
#[global] Instance Health_eq_dec : EqDecision Health.
Proof. solve_decision. Defined.

(** The string a [severity] or a [status] is at run time. *)
Definition severityString (s : Severity) : string :=
  match s with
  | low => "low" | medium => "medium" | high => "high" | critical => "critical"
  end.

Definition healthString (h : Health) : string :=
  match h with
  | healthy => "healthy" | unhealthy => "unhealthy" | degraded => "degraded"
  end.

Module Metric.
Record t : Type := mk {
  id : string;
  name : string;
  value : Z;
  tags : gmap string string;
  timestamp : Z;
  type : MetricType
}.
End Metric.

Module LogEntry.
Record t : Type := mk {
  id : string;
  level : Level;
  message : string;
  service : string;
  timestamp : Z;
  metadata : option Json;
  traceId : option string;
  spanId : option string
}.
End LogEntry.

Module HealthCheck.
Record t : Type := mk {
  service : string;
  status : Health;
  timestamp : Z;
  responseTime : option Z;
  error : option string;
  metadata : option Json
}.
End HealthCheck.

(** The [metadata] of an alert: what a caller passed, or the health check
    that raised the alert. *)
Inductive Meta : Type :=
  | MetaJson (j : Json)
  | MetaCheck (check : HealthCheck.t).

Module Alert.
Record t : Type := mk {
  id : string;
  type : string;
  severity : Severity;
  message : string;
  service : string;
  timestamp : Z;
  resolved : bool;
  resolvedAt : option Z;
  metadata : option Meta
}.

Definition resolve (now : Z) (a : t) : t :=
  mk (id a) (type a) (severity a) (message a) (service a) (timestamp a)
     true (Some now) (metadata a).
End Alert.

(** [Omit<Alert, 'id' | 'timestamp' | 'resolved' | 'resolvedAt'>] *)
Record AlertInput : Type := mkAlertInput {
  alert_type : string;
  alert_severity : Severity;
  alert_message : string;
  alert_service : string;
  alert_metadata : option Meta
}.

(** [Omit<HealthCheck, 'timestamp'>] *)
Record CheckInput : Type := mkCheckInput {
  check_service : string;
  check_status : Health;
  check_responseTime : option Z;
  check_error : option string;
  check_metadata : option Json
}.

(** The clock and the random source. *)
Record Sys : Type := mkSys {
  (** [Date.now()] at a step *)
  clock : nat → Z;
  (** [Math.random().toString(36).substr(2)] at a step *)
  fraction : nat → string
}.

(** The service: its retention settings (in hours) and its four arrays. *)
Record Service : Type := mkService {
  metricsRetention : Z;
  logsRetention : Z;
  alertsRetention : Z;
  metrics : list Metric.t;
  logs : list LogEntry.t;
  alerts : list Alert.t;
  healthChecks : list HealthCheck.t
}.

Definition set_metrics (v : list Metric.t) (s : Service) : Service :=
  mkService (metricsRetention s) (logsRetention s) (alertsRetention s)
    v (logs s) (alerts s) (healthChecks s).
Definition set_logs (v : list LogEntry.t) (s : Service) : Service :=
  mkService (metricsRetention s) (logsRetention s) (alertsRetention s)
    (metrics s) v (alerts s) (healthChecks s).
Definition set_alerts (v : list Alert.t) (s : Service) : Service :=
  mkService (metricsRetention s) (logsRetention s) (alertsRetention s)
    (metrics s) (logs s) v (healthChecks s).
Definition set_healthChecks (v : list HealthCheck.t) (s : Service) : Service :=
  mkService (metricsRetention s) (logsRetention s) (alertsRetention s)
    (metrics s) (logs s) (alerts s) v.

(** The constructor, from the retention settings the configuration gives. *)
Definition constructor (metricsHours logsHours alertsHours : option Z)
    : Service :=
  mkService (default 24 metricsHours) (default 72 logsHours)
    (default 168 alertsHours) [] [] [] [].

Definition generateId (sys : Sys) (n : nat) : string :=
  toString36 (clock sys n) +:+ fraction sys n.

(** [a.push(x); if (a.length > cap) a = a.slice(-cap)] *)
Definition pushCapped {A} (cap : Z) (x : A) (a : list A) : list A :=
  let pushed := a ++ [x] in
  if decide (Z.of_nat (length pushed) > cap) then slice (- cap) None pushed
  else pushed.

Definition newMetric (sys : Sys) (n : nat) (name : string) (value : Z)
    (tags : gmap string string) (type : MetricType) : Metric.t :=
  Metric.mk (generateId sys n) name value tags (clock sys (S n)) type.

Definition recordMetric (sys : Sys) (n : nat) (name : string) (value : Z)
    (tags : gmap string string) (type : MetricType) (s : Service)
    : Service * nat :=
  (set_metrics
     (pushCapped 10000 (newMetric sys n name value tags type) (metrics s)) s,
   S (S n)).

Definition newLog (sys : Sys) (n : nat) (level : Level)
    (message service : string) (metadata : option Json)
    (traceId spanId : option string) : LogEntry.t :=
  LogEntry.mk (generateId sys n) level message service (clock sys (S n))
    metadata traceId spanId.

Definition log (sys : Sys) (n : nat) (level : Level)
    (message service : string) (metadata : option Json)
    (traceId spanId : option string) (s : Service) : Service * nat :=
  (set_logs
     (pushCapped 50000
        (newLog sys n level message service metadata traceId spanId) (logs s))
     s,
   S (S n)).

Definition newAlert (sys : Sys) (n : nat) (alert : AlertInput) : Alert.t :=
  Alert.mk (generateId sys n) (alert_type alert) (alert_severity alert)
    (alert_message alert) (alert_service alert) (clock sys (S n)) false None
    (alert_metadata alert).

Definition recordAlert (sys : Sys) (n : nat) (alert : AlertInput)
    (s : Service) : Service * nat :=
  let alertEntry := newAlert sys n alert in
  log sys (S (S n)) warn ("Alert: " +:+ alert_message alert)
    (alert_service alert)
    (Some (JObj [("alertId", JStr (Alert.id alertEntry));
                 ("severity", JStr (severityString (alert_severity alert)));
                 ("type", JStr (alert_type alert))]))
    None None
    (set_alerts (alerts s ++ [alertEntry]) s).

Definition hasAlertId (alertId : string) (a : Alert.t) : bool :=
  bool_decide (Alert.id a = alertId).

Definition resolveAlert (sys : Sys) (n : nat) (alertId : string)
    (s : Service) : Service * nat * bool :=
  match List.find (hasAlertId alertId) (alerts s) with
  | None => (s, n, false)
  | Some alert =>
      let s1 :=
        set_alerts
          (updateFirstOf (hasAlertId alertId) (Alert.resolve (clock sys n))
             (alerts s)) s in
      (log sys (S n) info ("Alert resolved: " +:+ Alert.message alert)
         (Alert.service alert) (Some (JObj [("alertId", JStr alertId)]))
         None None s1,
       true)
  end.

Definition ofService (service : string) (hc : HealthCheck.t) : Prop :=
  HealthCheck.service hc = service.

#[global] Instance ofService_dec service hc : Decision (ofService service hc).
Proof. unfold ofService. apply _. Defined.

Definition newCheck (sys : Sys) (n : nat) (healthCheck : CheckInput)
    : HealthCheck.t :=
  HealthCheck.mk (check_service healthCheck) (check_status healthCheck)
    (clock sys n) (check_responseTime healthCheck) (check_error healthCheck)
    (check_metadata healthCheck).

(** [check.error || 'Unknown error'] *)
Definition errorOrUnknown (e : option string) : string :=
  match e with
  | Some msg => if decide (msg = "") then "Unknown error" else msg
  | None => "Unknown error"
  end.

Definition pushCheck (check : HealthCheck.t) (hcs : list HealthCheck.t)
    : list HealthCheck.t :=
  let pushed := hcs ++ [check] in
  let serviceChecks := filter (ofService (HealthCheck.service check)) pushed in
  if decide (Z.of_nat (length serviceChecks) > 1000)
  then filter (λ hc, ¬ ofService (HealthCheck.service check) hc) pushed
       ++ slice (- 1000) None serviceChecks
  else pushed.

Definition recordHealthCheck (sys : Sys) (n : nat) (healthCheck : CheckInput)
    (s : Service) : Service * nat :=
  let check := newCheck sys n healthCheck in
  let s1 := set_healthChecks (pushCheck check (healthChecks s)) s in
  let '(s2, n2) :=
    recordMetric sys (S n) "health_check"
      (if decide (HealthCheck.status check = healthy) then 1 else 0)
      {[ "service" := HealthCheck.service check;
         "status" := healthString (HealthCheck.status check) ]}
      gauge s1 in
  if decide (HealthCheck.status check = unhealthy)
  then recordAlert sys n2
         (mkAlertInput "health_check_failed" high
            (HealthCheck.service check +:+ " health check failed: "
               +:+ errorOrUnknown (HealthCheck.error check))
            (HealthCheck.service check) (Some (MetaCheck check)))
         s2
  else (s2, n2).

(** [Object.entries(tags).every(([key, value]) => m.tags[key] === value)] *)
Definition hasTags (wanted : gmap string string) (m : Metric.t) : Prop :=
  map_Forall (λ key value, Metric.tags m !! key = Some value) wanted.

#[global] Instance hasTags_dec wanted m : Decision (hasTags wanted m).
Proof. unfold hasTags. apply _. Defined.

(** The array [getMetrics] filters down to, before it sorts it. *)
Definition selectMetrics (name : option string)
    (tags : option (gmap string string)) (l : list Metric.t) : list Metric.t :=
  let byName :=
    if truthyString name
    then filter (λ m, Some (Metric.name m) = name) l else l in
  match tags with
  | Some wanted => filter (hasTags wanted) byName
  | None => byName
  end.

(** [getMetrics]: the state it leaves and the array it returns. With neither
    a name nor tags, [results] is the array of the service itself, and
    [sort] sorts that array in place. *)
Definition getMetrics (name : option string)
    (tags : option (gmap string string)) (limit : option Z) (s : Service)
    : Service * list Metric.t :=
  let sorted := sortDesc Metric.timestamp (selectMetrics name tags (metrics s)) in
  (if truthyString name then s
   else match tags with Some _ => s | None => set_metrics sorted s end,
   slice 0 (Some (default 1000 limit)) sorted).

Definition getRecentLogs (limit : option Z) (s : Service) : list LogEntry.t :=
  slice (- default 100 limit) None (logs s).

Definition getAlerts (resolved : option bool) (limit : option Z) (s : Service)
    : list Alert.t :=
  slice 0 (Some (default 100 limit))
    (sortDesc Alert.timestamp
       (filter (λ a, Alert.resolved a = default false resolved) (alerts s))).

(** One round of the [forEach] of [getHealthStatus]. *)
Definition latest (acc : gmap string HealthCheck.t) (check : HealthCheck.t)
    : gmap string HealthCheck.t :=
  match acc !! HealthCheck.service check with
  | None => <[HealthCheck.service check := check]> acc
  | Some existing =>
      if decide (HealthCheck.timestamp check > HealthCheck.timestamp existing)
      then <[HealthCheck.service check := check]> acc
      else acc
  end.

Definition getHealthStatus (s : Service) : gmap string HealthCheck.t :=
  foldl latest ∅ (healthChecks s).

(** One round of the first [forEach] of [cleanupOldData], on the entries of
    [healthCheckMap] in insertion order. *)
Fixpoint groupCheck (hc : HealthCheck.t)
    (groups : list (string * list HealthCheck.t))
    : list (string * list HealthCheck.t) :=
  match groups with
  | [] => [(HealthCheck.service hc, [hc])]
  | (service, hcs) :: rest =>
      if decide (service = HealthCheck.service hc)
      then (service, hcs ++ [hc]) :: rest
      else (service, hcs) :: groupCheck hc rest
  end.

Definition healthCheckMap (hcs : list HealthCheck.t)
    : list (string * list HealthCheck.t) :=
  foldl (λ groups hc, groupCheck hc groups) [] hcs.

Definition lastPerService (keep : Z) (hcs : list HealthCheck.t)
    : list HealthCheck.t :=
  mjoin ((λ g : string * list HealthCheck.t, slice (- keep) None g.2)
           <$> healthCheckMap hcs).

Definition hourMs : Z := 60 * 60 * 1000.

(** [cleanupOldData] with [new Date()] being [now]. *)
Definition cleanupAt (now : Z) (s : Service) : Service :=
  mkService (metricsRetention s) (logsRetention s) (alertsRetention s)
    (filter (λ m, now - Metric.timestamp m < metricsRetention s * hourMs)
       (metrics s))
    (filter (λ l, now - LogEntry.timestamp l < logsRetention s * hourMs)
       (logs s))
    (filter (λ a, now - Alert.timestamp a < alertsRetention s * hourMs)
       (alerts s))
    (lastPerService 100 (healthChecks s)).

Definition cleanupOldData (sys : Sys) (n : nat) (s : Service) : Service * nat :=
  (cleanupAt (clock sys n) s, S n).

(** The object [exportData] returns, [exportedAt] apart, and what
    [importData] reads of its argument. *)
Record Export : Type := mkExport {
  export_metrics : option (list Metric.t);
  export_logs : option (list LogEntry.t);
  export_alerts : option (list Alert.t);
  export_healthChecks : option (list HealthCheck.t)
}.

Definition exportData (s : Service) : Export :=
  mkExport (Some (metrics s)) (Some (logs s)) (Some (alerts s))
    (Some (healthChecks s)).

Definition importData (sys : Sys) (n : nat) (data : Export) (s : Service)
    : Service * nat :=
  cleanupOldData sys n
    (mkService (metricsRetention s) (logsRetention s) (alertsRetention s)
       (metrics s ++ default [] (export_metrics data))
       (logs s ++ default [] (export_logs data))
       (alerts s ++ default [] (export_alerts data))
       (healthChecks s ++ default [] (export_healthChecks data))).

(** A run of [recordMetric] calls, one after the other. *)
Record MetricInput : Type := mkMetricInput {
  in_name : string;
  in_value : Z;
  in_tags : gmap string string;
  in_type : MetricType
}.

Fixpoint recordMetrics (sys : Sys) (n : nat) (inputs : list MetricInput)
    (s : Service) : Service * nat :=
  match inputs with
  | [] => (s, n)
  | i :: rest =>
      let '(s1, n1) :=
        recordMetric sys n (in_name i) (in_value i) (in_tags i) (in_type i) s in
      recordMetrics sys n1 rest s1
  end.

(** The metrics such a run creates. *)
Fixpoint newMetrics (sys : Sys) (n : nat) (inputs : list MetricInput)
    : list Metric.t :=
  match inputs with
  | [] => []
  | i :: rest =>
      newMetric sys n (in_name i) (in_value i) (in_tags i) (in_type i)
        :: newMetrics sys (S (S n)) rest
  end.

(** A clock that advances by one millisecond per step. *)
Definition ticking : Sys :=
  mkSys (λ n, 1700000000000 + Z.of_nat n) (λ n, "r" +:+ pretty n).

End Monitoring.

(** ** Vocabulary for the monitoring service *)

(** The last [k] elements of an array. *)
Definition lastN {A} (k : nat) (l : list A) : list A :=
  drop (length l - k) l.

(** A metric store at capacity. *)
Definition sampleMetric : Monitoring.Metric.t :=
  Monitoring.Metric.mk "loyw3v28r0" "cpu" 1 ∅ 1700000000001 Monitoring.gauge.

Definition fullStore : Monitoring.Service :=
  Monitoring.set_metrics (replicate (Z.to_nat 10000) sampleMetric)
    (Monitoring.constructor None None None).

(** The distinct elements of a list, in the order of their first
    occurrence: the key order of a [Map] filled from the list. *)
Definition firstSeen (l : list string) : list string :=
  foldl (λ acc x, if decide (x ∈ acc) then acc else acc ++ [x]) [] l.

(** An alert as a caller reports it. *)
Definition sampleAlert : Monitoring.AlertInput :=
  Monitoring.mkAlertInput "service_unhealthy" Monitoring.high
    "ai service is unhealthy" "ai" None.

(** ** Readiness *)

(** The probes of [checkServiceHealth] on the other services:
    [mcpService.listTools], [aiService.getModelHealth] and
    [memoryService.getStats], each as how it settles at a step. The fourth
    probe is [getMetrics] of the monitoring service above. *)
Record Probes : Type := mkProbes {
  listTools : nat → Outcome Json;
  getModelHealth : nat → Outcome Json;
  getStats : nat → Outcome Json
}.

Definition fulfils {A} (r : Outcome A) : bool :=
  match r with Fulfilled _ => true | Rejected _ => false end.

(** [checkServiceHealth]: the answer, and the monitoring service after the
    probe. *)
Definition checkServiceHealth (probes : Probes) (n : nat) (service : string)
    (mon : Monitoring.Service) : Monitoring.Service * bool :=
  if decide (service = "mcp") then (mon, fulfils (listTools probes n))
  else if decide (service = "ai") then (mon, fulfils (getModelHealth probes n))
  else if decide (service = "memory") then (mon, fulfils (getStats probes n))
  else if decide (service = "monitoring")
  then ((Monitoring.getMetrics None None None mon).1, true)
  else (mon, false).

(** The loop of [isReady], one step per probe. *)
Fixpoint isReady_loop (probes : Probes) (n : nat) (services : list string)
    (mon : Monitoring.Service) : Monitoring.Service * bool :=
  match services with
  | [] => (mon, true)
  | service :: rest =>
      let '(mon1, ok) := checkServiceHealth probes n service mon in
      if ok then isReady_loop probes (S n) rest mon1 else (mon1, false)
  end.

Definition isReady (probes : Probes) (n : nat) (mon : Monitoring.Service)
    : Monitoring.Service * bool :=
  isReady_loop probes n ["mcp"; "ai"; "memory"; "monitoring"] mon.

(** ** Timers of the autonomous mode *)

(** The callbacks that [startAutonomousMode] hands to [setInterval]. *)
Inductive Callback : Type := HealthCheckTick | ScalingTick | HealingTick.

#[global] Instance Callback_eq_dec : EqDecision Callback.
Proof. solve_decision. Defined.

(** The orchestrator with its timers: the intervals that are active, each
    under the handle [setInterval] returned for it, the handle kept in
    [healthCheckInterval], and the number of queue passes that a
    [setTimeout] has scheduled and that have not run yet. *)
Record Autonomous : Type := mkAutonomous {
  service : Orchestrator;
  healthCheckInterval : option nat;
  intervals : list (nat * Callback);
  queuePasses : nat;
  nextTimer : nat
}.

Definition setInterval (cb : Callback) (a : Autonomous) : Autonomous * nat :=
  (mkAutonomous (service a) (healthCheckInterval a)
     (intervals a ++ [(nextTimer a, cb)]) (queuePasses a) (S (nextTimer a)),
   nextTimer a).

Definition clearInterval (handle : nat) (a : Autonomous) : Autonomous :=
  mkAutonomous (service a) (healthCheckInterval a)
    (filter (λ e, e.1 ≠ handle) (intervals a)) (queuePasses a) (nextTimer a).

(** [processTaskQueue] with the [setTimeout] that ends it. *)
Definition processTaskQueue_rescheduled (env : Env) (n : nat) (a : Autonomous)
    : Autonomous :=
  if isAutonomousMode (service a)
  then mkAutonomous (processTaskQueue env n (service a))
         (healthCheckInterval a) (intervals a) (S (queuePasses a)) (nextTimer a)
  else a.

(** A scheduled queue pass runs. *)
Definition queuePassFires (env : Env) (n : nat) (a : Autonomous) : Autonomous :=
  match queuePasses a with
  | O => a
  | S k =>
      processTaskQueue_rescheduled env n
        (mkAutonomous (service a) (healthCheckInterval a) (intervals a) k
           (nextTimer a))
  end.

Definition startAutonomousMode (env : Env) (n : nat) (a : Autonomous)
    : Autonomous :=
  let '(a1, handle) :=
    setInterval HealthCheckTick
      (mkAutonomous (set_isAutonomousMode true (service a))
         (healthCheckInterval a) (intervals a) (queuePasses a) (nextTimer a)) in
  let a2 :=
    mkAutonomous (service a1) (Some handle) (intervals a1) (queuePasses a1)
      (nextTimer a1) in
  let a3 := processTaskQueue_rescheduled env n a2 in
  let a4 :=
    if autoScalingEnabled (service a3) then (setInterval ScalingTick a3).1
    else a3 in
  if selfHealingEnabled (service a4) then (setInterval HealingTick a4).1
  else a4.

Definition stopAutonomousMode (a : Autonomous) : Autonomous :=
  let a1 :=
    mkAutonomous (set_isAutonomousMode false (service a))
      (healthCheckInterval a) (intervals a) (queuePasses a) (nextTimer a) in
  match healthCheckInterval a with
  | Some handle => clearInterval handle a1
  | None => a1
  end.

(** The active intervals that run a given callback. *)
Definition running_of (cb : Callback) (a : Autonomous) : list (nat * Callback) :=
  filter (λ e, e.2 = cb) (intervals a).

(** Every handle in use was issued by [setInterval]. *)
Definition Issued (a : Autonomous) : Prop :=
  Forall (λ e, (e.1 < nextTimer a)%nat) (intervals a).

(** The orchestrator as constructed, no timer set. *)
Definition idle : Autonomous := mkAutonomous constructor None [] 0 0.

(** * Properties *)

(** ** Adaptive concurrency *)








(** The orchestrator itself never fills [taskQueue] or the task map, so in a
    state with both empty, as the constructor leaves them, an evaluation
    changes nothing. *)
Lemma startAutoScaling_idle o :
  taskQueue o = [] → runningTasks o = ∅ → startAutoScaling o = o.
Proof.
  intros Hq Hr. unfold startAutoScaling, scaleStep.
  rewrite Hq, Hr, size_empty. cbn [length].
  rewrite !decide_False by lia. by destruct o.
Qed.

(** ** Retries of one task *)

Ltac unfold_ops :=
  unfold applyOp, executeTask_begin, executeTask_settle, retryLogic,
    healFailed, healStuck in *.

Lemma applyOp_maxRetries x op :
  Task.maxRetries (applyOp x op) = Task.maxRetries x.
Proof.
  destruct op as [now|now [v|msg]| |now cfg]; unfold_ops; simpl;
    repeat case_decide; reflexivity.
Qed.

Lemma applyOp_retries x op :
  Task.retries x ≤ Task.maxRetries x →
  Task.retries x ≤ Task.retries (applyOp x op) ≤ Task.maxRetries x.
Proof.
  intros Hle.
  destruct op as [now|now [v|msg]| |now cfg]; unfold_ops; simpl;
    repeat case_decide; simpl in *; lia.
Qed.

Lemma applyOp_exhausted x op :
  Task.retries x = Task.maxRetries x →
  Task.status x ≠ pending →
  Task.status (applyOp x op) ≠ pending.
Proof.
  intros Heq Hst.
  destruct op as [now|now [v|msg]| |now cfg]; unfold_ops; simpl;
    repeat case_decide; simpl in *; try done; lia.
Qed.

Lemma applyOps_snoc ops op x :
  applyOps (ops ++ [op]) x = applyOp (applyOps ops x) op.
Proof. unfold applyOps. by rewrite foldl_app. Qed.

Lemma applyOps_invariant ops x :
  Task.retries x ≤ Task.maxRetries x →
  Task.maxRetries (applyOps ops x) = Task.maxRetries x ∧
  Task.retries x ≤ Task.retries (applyOps ops x) ≤ Task.maxRetries x.
Proof.
  intros Hle. induction ops as [|op ops IH] using rev_ind; [simpl; lia|].
  rewrite applyOps_snoc, applyOp_maxRetries.
  destruct IH as [Hmax [Hlo Hhi]]. split; [done|].
  pose proof (applyOp_retries (applyOps ops x) op) as H. lia.
Qed.

(** C4: whatever the executor and the self-healing callback do to a task, in
    whatever order, its [retries] stays at most [maxRetries]; and from the
    moment it is [failed] with [retries = maxRetries], no later state of it
    is [pending] (its [retries] stays where it is). *)
Theorem retries_never_exceed_maxRetries (ops : list TaskOp) (x : Task.t) :
  Task.retries x ≤ Task.maxRetries x →
  Task.retries (applyOps ops x) ≤ Task.maxRetries (applyOps ops x) ∧
  (Task.retries x = Task.maxRetries x → Task.status x = failed →
   Task.status (applyOps ops x) ≠ pending ∧
   Task.retries (applyOps ops x) = Task.maxRetries (applyOps ops x)).
Proof.
  intros Hle. pose proof (applyOps_invariant ops x Hle) as [Hmax Hbnd].
  split; [lia|]. intros Heq Hfailed. split; [|lia].
  induction ops as [|op ops IH] using rev_ind; [simpl; congruence|].
  rewrite applyOps_snoc. apply applyOp_exhausted.
  - pose proof (applyOps_invariant ops x Hle). lia.
  - apply IH; pose proof (applyOps_invariant ops x Hle); [tauto|lia].
Qed.

Lemma retries_never_exceed_maxRetries_witness :
  Task.retries exhaustedTask ≤ Task.maxRetries exhaustedTask ∧
  Task.status
    (applyOps [OpHealFailed; OpBegin 1700000000005;
               OpHealStuck 1700000400000 300;
               OpSettle 1700000400001 (Rejected "boom"); OpHealFailed]
       exhaustedTask)
    ≠ pending.
Proof.
  split; [simpl; lia|].
  apply (retries_never_exceed_maxRetries
           [OpHealFailed; OpBegin 1700000000005;
            OpHealStuck 1700000400000 300;
            OpSettle 1700000400001 (Rejected "boom"); OpHealFailed]
           exhaustedTask);
    [simpl; lia|reflexivity|reflexivity].
Defined.

(** ** The [result] and [error] fields *)

Lemma applyOp_result_kept x op :
  is_Some (Task.result x) → is_Some (Task.result (applyOp x op)).
Proof.
  destruct op as [now|now [v|msg]| |now cfg]; unfold_ops; simpl;
    repeat case_decide; simpl; eauto.
Qed.

Lemma applyOp_error_kept x op :
  is_Some (Task.error x) → is_Some (Task.error (applyOp x op)).
Proof.
  destruct op as [now|now [v|msg]| |now cfg]; unfold_ops; simpl;
    repeat case_decide; simpl; eauto.
Qed.

Lemma applyOp_result_source x op :
  isSuccess op = false → Task.result (applyOp x op) = Task.result x.
Proof.
  destruct op as [now|now [v|msg]| |now cfg]; unfold_ops; simpl;
    repeat case_decide; simpl; done.
Qed.

Lemma applyOp_error_source x op :
  isFailure op = false → Task.error (applyOp x op) = Task.error x.
Proof.
  destruct op as [now|now [v|msg]| |now cfg]; unfold_ops; simpl;
    repeat case_decide; simpl; done.
Qed.

Lemma applyOps_result_source ops x :
  existsb isSuccess ops = false →
  Task.result (applyOps ops x) = Task.result x.
Proof.
  induction ops as [|op ops IH] using rev_ind; [done|].
  rewrite existsb_app, orb_false_iff. simpl. rewrite orb_false_r.
  intros [Hops Hop]. rewrite applyOps_snoc, applyOp_result_source; auto.
Qed.

Lemma applyOps_error_source ops x :
  existsb isFailure ops = false →
  Task.error (applyOps ops x) = Task.error x.
Proof.
  induction ops as [|op ops IH] using rev_ind; [done|].
  rewrite existsb_app, orb_false_iff. simpl. rewrite orb_false_r.
  intros [Hops Hop]. rewrite applyOps_snoc, applyOp_error_source; auto.
Qed.

Lemma applyOps_kept ops x :
  (is_Some (Task.result x) → is_Some (Task.result (applyOps ops x))) ∧
  (is_Some (Task.error x) → is_Some (Task.error (applyOps ops x))).
Proof.
  induction ops as [|op ops [IHr IHe]] using rev_ind; [done|].
  rewrite applyOps_snoc.
  split; intros H; [apply applyOp_result_kept|apply applyOp_error_kept]; auto.
Qed.

(** C8, as the code has it. Starting from a task with neither field set:
    [result] is written only when a run of the executor succeeds and [error]
    only when a run fails or the stuck-task sweep times the task out, so the
    two are exclusive as long as the task has not both succeeded and failed;
    nothing ever clears a field once it is written; the first run of the
    executor sets exactly one of them, [result] exactly when the task ends
    [completed]; and a task that fails, is run again and succeeds ends with
    [result] set and [error] still holding the failure. *)
Theorem result_and_error_are_never_cleared (ops more : list TaskOp)
    (x : Task.t) (env : Env) (n : nat) (t1 t2 t3 t4 : Z) (msg : string)
    (v : Json) :
  Task.result x = None → Task.error x = None →
  (existsb isSuccess ops = false → Task.result (applyOps ops x) = None) ∧
  (existsb isFailure ops = false → Task.error (applyOps ops x) = None) ∧
  (existsb isSuccess ops && existsb isFailure ops = false →
   Exclusive (applyOps ops x)) ∧
  (is_Some (Task.result (applyOps ops x)) →
   is_Some (Task.result (applyOps (ops ++ more) x))) ∧
  (is_Some (Task.error (applyOps ops x)) →
   is_Some (Task.error (applyOps (ops ++ more) x))) ∧
  (let x' := (executeTask env n x).1 in
   Exclusive x' ∧
   (is_Some (Task.result x') ↔ Task.status x' = completed) ∧
   (is_Some (Task.error x') ↔ Task.status x' ≠ completed)) ∧
  (let x' := applyOps [OpBegin t1; OpSettle t2 (Rejected msg); OpBegin t3;
                       OpSettle t4 (Fulfilled v)] x in
   Task.status x' = completed ∧ Task.result x' = Some v ∧
   Task.error x' = Some msg).
Proof.
  intros Hres Herr. split_and!.
  - intros H. by rewrite applyOps_result_source.
  - intros H. by rewrite applyOps_error_source.
  - intros [H|H]%andb_false_iff; [left|right].
    + by rewrite applyOps_result_source.
    + by rewrite applyOps_error_source.
  - intros H. unfold applyOps. rewrite foldl_app.
    by apply (applyOps_kept more (applyOps ops x)).
  - intros H. unfold applyOps. rewrite foldl_app.
    by apply (applyOps_kept more (applyOps ops x)).
  - unfold executeTask, executeTask_settle, executeTask_begin, retryLogic,
      Exclusive. simpl.
    destruct (collaborator env n _) as [w|m]; simpl;
      [|case_decide; simpl]; rewrite ?Hres, ?Herr;
      (split_and!; [first [by left|by right]| |]);
      (split; intros Hx; try done; try (by eexists);
       try (by destruct Hx as [? [=]])).
  - unfold applyOps, applyOp, executeTask_settle, executeTask_begin,
      retryLogic. simpl. case_decide; done.
Qed.

Lemma result_and_error_are_never_cleared_witness :
  Task.result freshTask = None ∧ Task.error freshTask = None ∧
  Exclusive (applyOps [OpBegin 1; OpSettle 2 (Rejected "boom"); OpHealFailed]
               freshTask).
Proof.
  split; [reflexivity|]. split; [reflexivity|].
  apply (result_and_error_are_never_cleared
           [OpBegin 1; OpSettle 2 (Rejected "boom"); OpHealFailed] []
           freshTask (failsBefore 0) 0 0 0 0 0 "" JNull);
    reflexivity.
Defined.

(** C8 as stated fails: a fresh task whose first run fails and whose second
    run succeeds ends [completed] with both fields set. *)
Lemma retried_task_keeps_its_error :
  let x1 := (executeTask (failsBefore 1) 0 freshTask).1 in
  let x2 := (executeTask (failsBefore 1) 1 x1).1 in
  Task.status x1 = pending ∧ Task.status x2 = completed ∧ ¬ Exclusive x2.
Proof.
  vm_compute. split; [done|]. split; [done|]. by intros [[=]|[=]].
Qed.

(** ** The batch loop of [executeWorkflow] *)

Lemma executeTask_id env n x : Task.id (executeTask env n x).1 = Task.id x.
Proof.
  unfold executeTask, executeTask_settle, retryLogic, executeTask_begin. simpl.
  destruct (collaborator env n _); simpl; [done|]. by case_decide.
Qed.

Lemma executeTask_dependencies env n x :
  Task.dependencies (executeTask env n x).1 = Task.dependencies x.
Proof.
  unfold executeTask, executeTask_settle, retryLogic, executeTask_begin. simpl.
  destruct (collaborator env n _); simpl; [done|]. by case_decide.
Qed.

Lemma executeTask_fulfilled env n x v :
  (executeTask env n x).2 = Fulfilled v →
  Task.status (executeTask env n x).1 = completed.
Proof.
  unfold executeTask, executeTask_settle. simpl.
  destruct (collaborator env n _); simpl; [done|]. discriminate.
Qed.

Lemma runBatch_cons env n ex x rest :
  runBatch env n ex (x :: rest) =
    if decide (IsReady ex x) then
      ((executeTask env n x).1 :: (runBatch env (S n) ex rest).1,
       (Task.id x, (executeTask env n x).2) :: (runBatch env (S n) ex rest).2)
    else (x :: (runBatch env n ex rest).1, (runBatch env n ex rest).2).
Proof.
  simpl. case_decide.
  - destruct (executeTask env n x), (runBatch env (S n) ex rest); done.
  - destruct (runBatch env n ex rest); done.
Qed.

Lemma runBatch_ids env n ex ts :
  Task.id <$> (runBatch env n ex ts).1 = Task.id <$> ts.
Proof.
  revert n. induction ts as [|x rest IH]; intros n; [done|].
  rewrite runBatch_cons. case_decide; cbn [fst snd];
    by rewrite !fmap_cons, IH, ?executeTask_id.
Qed.

Lemma runBatch_dependencies env n ex ts :
  Task.dependencies <$> (runBatch env n ex ts).1 = Task.dependencies <$> ts.
Proof.
  revert n. induction ts as [|x rest IH]; intros n; [done|].
  rewrite runBatch_cons. case_decide; cbn [fst snd];
    by rewrite !fmap_cons, IH, ?executeTask_dependencies.
Qed.

Lemma runBatch_length env n ex ts :
  length (runBatch env n ex ts).1 = length ts.
Proof.
  rewrite <-(length_fmap Task.id), runBatch_ids. apply length_fmap.
Qed.

Lemma runBatch_outcomes env n ex ts :
  (runBatch env n ex ts).2.*1 = Task.id <$> readyTasks ex ts.
Proof.
  unfold readyTasks. revert n. induction ts as [|x rest IH]; intros n; [done|].
  rewrite runBatch_cons, filter_cons. case_decide; cbn [fst snd];
    by rewrite ?fmap_cons, IH.
Qed.

(** What a batch does to each task: a task that is not ready is left as it
    is; a ready one is run, and is [completed] if its promise fulfils. *)
Lemma runBatch_pointwise env n ex ts :
  Forall2
    (λ x x',
       (¬ IsReady ex x → x' = x) ∧
       (IsReady ex x → ∃ k,
          x' = (executeTask env k x).1 ∧
          (Task.id x, (executeTask env k x).2) ∈ (runBatch env n ex ts).2))
    ts (runBatch env n ex ts).1.
Proof.
  revert n. induction ts as [|x rest IH]; intros n; [constructor|].
  rewrite runBatch_cons. case_decide as Hr; simpl.
  - constructor.
    + split; [done|]. intros _. exists n. split; [done|]. by left.
    + eapply Forall2_impl; [apply IH|]. intros y y' [H1 H2]. split; [done|].
      intros Hy. destruct (H2 Hy) as (k & -> & Hin). exists k. split; [done|].
      by right.
  - constructor; [by split|]. apply IH.
Qed.

Lemma collectResults_None ex res rs ex' res' :
  collectResults ex res rs = (ex', res', None) →
  ex' = list_to_set rs.*1 ∪ ex ∧ Forall (λ p, ∃ v, p.2 = Fulfilled v) rs.
Proof.
  revert ex res. induction rs as [|[i [v|reason]] rest IH]; intros ex res; simpl.
  - intros [= <- <-]. split; [set_solver|constructor].
  - intros H. destruct (IH _ _ H) as [-> Hall]. split; [set_solver|].
    constructor; simpl; eauto.
  - discriminate.
Qed.


Lemma executeLoop_unfold fuel env n ex res ts :
  executeLoop (S fuel) env n ex res ts =
    if decide (size ex < length ts)%nat then
      if decide (readyTasks ex ts = []) then mkLoopResult ts n (Threw graphError) []
      else
        let b := runBatch env n ex ts in
        let n' := (n + length (readyTasks ex ts))%nat in
        match collectResults ex res b.2 with
        | (_, _, Some msg) =>
            mkLoopResult b.1 n' (Threw msg) [(ts, readyTasks ex ts)]
        | (ex', res', None) =>
            let r := executeLoop fuel env n' ex' res' b.1 in
            mkLoopResult (loop_tasks r) (loop_step r) (loop_completion r)
              ((ts, readyTasks ex ts) :: loop_batches r)
        end
    else mkLoopResult ts n (Returned res) [].
Proof.
  simpl. repeat case_decide; try done. by destruct (runBatch env n ex ts).
Qed.

Lemma remaining_decreases env n ex ts :
  readyTasks ex ts ≠ [] →
  (remaining (list_to_set (Task.id <$> readyTasks ex ts) ∪ ex)
     (runBatch env n ex ts).1 < remaining ex ts)%nat.
Proof.
  intros Hne. unfold remaining. rewrite runBatch_ids.
  destruct (readyTasks ex ts) as [|x l] eqn:Hready; [done|].
  assert (x ∈ readyTasks ex ts) as Hx by (rewrite Hready; by left).
  apply list_elem_of_filter in Hx as [[Hnot _] Hin].
  remember (list_to_set (Task.id <$> x :: l) ∪ ex) as ex'.
  assert (filter (λ i, i ∉ ex') (Task.id <$> ts)
          = filter (λ i, i ∉ ex') (filter (λ i, i ∉ ex) (Task.id <$> ts))) as ->.
  { rewrite list_filter_filter. apply list_filter_iff. set_solver. }
  apply (length_filter_lt _ _ (Task.id x)).
  - apply list_elem_of_filter. split; [done|]. by apply list_elem_of_fmap_2.
  - set_solver.
Qed.

(** The loop always ends by itself when it is given more rounds than there
    are tasks left to execute. *)
Lemma executeLoop_fuel fuel env n ex res ts :
  (remaining ex ts < fuel)%nat →
  loop_completion (executeLoop fuel env n ex res ts) ≠ OutOfFuel.
Proof.
  revert n ex res ts. induction fuel as [|fuel IH]; intros n ex res ts Hlt; [lia|].
  rewrite executeLoop_unfold. case_decide; [|done]. case_decide as Hr; [done|].
  simpl. destruct (collectResults ex res _) as [[ex' res'] [msg|]] eqn:Hc; [done|].
  simpl. apply IH.
  apply collectResults_None in Hc as [-> _]. rewrite runBatch_outcomes.
  pose proof (remaining_decreases env n ex ts Hr). lia.
Qed.

Lemma remaining_le ex ts : (remaining ex ts ≤ length ts)%nat.
Proof.
  unfold remaining. etrans; [apply length_filter|]. by rewrite length_fmap.
Qed.

(** X1: [executeWorkflow] always settles. Every round of its loop either
    throws or marks at least one more task as executed, so the loop makes at
    most one round per task and one more to see that it is done. *)
Theorem executeWorkflow_terminates env n wid o :
  exec_completion (executeWorkflow env n wid o) ≠ OutOfFuel.
Proof.
  unfold executeWorkflow. destruct (workflows o !! wid) as [wf|]; [|done].
  cbn [exec_completion]. unfold finallyStore.
  pose proof (executeLoop_fuel (S (length (Workflow.tasks wf))) env n ∅ ∅
                (Workflow.tasks wf)) as Hfuel.
  destruct (loop_completion _); [by destruct (memoryStore env _)..|].
  exfalso. apply Hfuel; [|done].
  pose proof (remaining_le ∅ (Workflow.tasks wf)). lia.
Qed.

Lemma runBatch_frame env n ex ts :
  Forall2
    (λ x x',
       Task.id x' = Task.id x ∧
       Task.dependencies x' = Task.dependencies x ∧
       (¬ IsReady ex x → x' = x))
    ts (runBatch env n ex ts).1.
Proof.
  revert n. induction ts as [|x rest IH]; intros n; [constructor|].
  rewrite runBatch_cons. case_decide as Hr; cbn [fst snd].
  - constructor; [|apply IH].
    by rewrite executeTask_id, executeTask_dependencies.
  - constructor; [done|apply IH].
Qed.

Lemma runBatch_outcome_source env n ex ts p :
  p ∈ (runBatch env n ex ts).2 → ∃ k c, p.2 = collaborator env k c.
Proof.
  revert n. induction ts as [|x rest IH]; intros n.
  - intros H. by apply elem_of_nil in H.
  - rewrite runBatch_cons. case_decide; cbn [fst snd]; [|apply IH].
    intros [->|Hp]%elem_of_cons; [|by eapply IH]. simpl. eauto.
Qed.

Lemma size_list_to_set_le (l : list string) :
  (size (list_to_set l : gset string) ≤ length l)%nat.
Proof.
  induction l as [|i l IH]; [done|].
  rewrite list_to_set_cons, size_union_alt, size_singleton. simpl.
  assert (size (list_to_set l ∖ {[i]} : gset string)
          ≤ size (list_to_set l : gset string))%nat
    by (apply subseteq_size; set_solver).
  lia.
Qed.

Lemma Forall2_impl_elem {A B} (P Q : A → B → Prop) l k :
  Forall2 P l k → (∀ x y, x ∈ l → P x y → Q x y) → Forall2 Q l k.
Proof.
  induction 1 as [|x y l k HP _ IH]; intros HQ; constructor.
  - apply HQ; [by left|done].
  - apply IH. intros x' y' Hx'. apply HQ. by right.
Qed.

(** ** Workflows that cannot complete *)

Section Stuck.
Context (K : string → Prop).




End Stuck.


Lemma NoDup_taskIds_inj ts x y :
  NoDup (taskIds ts) → x ∈ ts → y ∈ ts → Task.id x = Task.id y → x = y.
Proof.
  intros Hnd [i Hi]%list_elem_of_lookup_1 [j Hj]%list_elem_of_lookup_1 Hid.
  assert (i = j) as ->; [|congruence].
  eapply NoDup_lookup; [exact Hnd| |]; unfold taskIds; rewrite list_lookup_fmap.
  - by rewrite Hi.
  - by rewrite Hj, Hid.
Qed.





Lemma failsBefore_0_allFulfil : allFulfil (failsBefore 0).
Proof.
  intros k c. unfold failsBefore. cbn [collaborator].
  destruct (decide (k < 0)%nat); [lia|eauto].
Qed.



(** ** Retries inside [executeWorkflow] *)

(** C3 does not hold of the code. The collaborator of [retryTask]
    ([maxRetries = 2]) rejects the first two calls and would fulfil the
    third. [executeWorkflow] calls it once: the executor counts one retry and
    puts the task back to [pending], but it rethrows, the batch loop turns
    the rejection into the workflow's failure, and the task is never run
    again. *)
Theorem first_failure_fails_the_workflow :
  let e :=
    executeWorkflow (failsBefore 2) 0 "workflow_1700000000000_r0"
      retryOrchestrator in
  exec_completion e = Threw (taskFailed "task_ai_1700000000001_r1" "boom") ∧
  exec_step e = 2%nat ∧
  length (exec_batches e) = 1%nat ∧
  taskStates (exec_state e) "workflow_1700000000000_r0"
    = Some (failed, [(pending, 1)]).
Proof. by vm_compute. Qed.

(** ** Requests without work *)





(** ** Failures of the persistence collaborator *)

Lemma toolTasks_withStore store env n ts :
  toolTasks (withStore store env) n ts = toolTasks env n ts.
Proof. revert n. induction ts as [|tl ts IH]; intros n; simpl; by rewrite ?IH. Qed.

Lemma analyzeAndCreateTasks_withStore store env n request :
  analyzeAndCreateTasks (withStore store env) n request
  = analyzeAndCreateTasks env n request.
Proof. unfold analyzeAndCreateTasks. by rewrite toolTasks_withStore. Qed.

Lemma runBatch_withStore store env n ex ts :
  runBatch (withStore store env) n ex ts = runBatch env n ex ts.
Proof.
  revert n. induction ts as [|x ts IH]; intros n; [done|].
  rewrite !runBatch_cons. by rewrite !IH.
Qed.

Lemma executeLoop_withStore store fuel env n ex res ts :
  executeLoop fuel (withStore store env) n ex res ts
  = executeLoop fuel env n ex res ts.
Proof.
  revert n ex res ts. induction fuel as [|fuel IH]; intros n ex res ts; [done|].
  rewrite !executeLoop_unfold. rewrite runBatch_withStore.
  repeat case_decide; try done. cbv zeta.
  destruct (collectResults ex res _) as [[ex' res'] [msg|]]; [done|].
  by rewrite IH.
Qed.

(** C6, as the code has it. Nothing in the orchestrator catches a rejection
    of [memoryService.store] (which logs and rethrows). [createWorkflow]
    then rejects with the store's error, after the workflow has been
    registered with status [pending]; [executeWorkflow] then throws the
    store's error in place of its result or of its own error. Either way the
    orchestrator is left in the very state it would have with any other
    persistence service, so no status of a task or of a workflow depends on
    the store. *)
Theorem store_failure_reaches_the_caller (env : Env)
    (store : nat → option string) (n : nat) (request : Request)
    (wid : string) (o : Orchestrator) (msg : string) :
  let c := createWorkflow env n request o in
  let c' := createWorkflow (withStore store env) n request o in
  let e := executeWorkflow env n wid o in
  let e' := executeWorkflow (withStore store env) n wid o in
  c'.1 = c.1 ∧
  (∃ wf, workflows c.1.1 !! freshId env n "workflow_" = Some wf ∧
         Workflow.status wf = pending) ∧
  (memoryStore env (pred c.1.2) = Some msg → c.2 = Rejected (storeError msg)) ∧
  (exec_state e', exec_step e', exec_batches e')
    = (exec_state e, exec_step e, exec_batches e) ∧
  (is_Some (workflows o !! wid) →
   memoryStore env (pred (exec_step e)) = Some msg →
   exec_completion e = Threw (storeError msg)).
Proof.
  cbv zeta. split_and!.
  - unfold createWorkflow. rewrite analyzeAndCreateTasks_withStore.
    by destruct (analyzeAndCreateTasks env (S n) request).
  - unfold createWorkflow.
    destruct (analyzeAndCreateTasks env (S n) request) as [created n1].
    eexists. split; [apply lookup_insert_eq|done].
  - unfold createWorkflow.
    destruct (analyzeAndCreateTasks env (S n) request) as [created n1].
    simpl. by intros ->.
  - unfold executeWorkflow. destruct (workflows o !! wid) as [wf|]; [|done].
    by rewrite executeLoop_withStore.
  - intros [wf Hwf]. unfold executeWorkflow. rewrite Hwf. simpl. intros Hs.
    unfold finallyStore. rewrite Hs.
    pose proof (executeLoop_fuel (S (length (Workflow.tasks wf))) env n ∅ ∅
                  (Workflow.tasks wf)) as Hfuel.
    destruct (loop_completion _); [done|done|].
    exfalso. apply Hfuel; [|done].
    pose proof (remaining_le ∅ (Workflow.tasks wf)). lia.
Qed.

Lemma store_failure_reaches_the_caller_witness :
  is_Some (workflows retryOrchestrator !! "workflow_1700000000000_r0") ∧
  memoryStore storeDown
    (pred (exec_step (executeWorkflow storeDown 0 "workflow_1700000000000_r0"
                        retryOrchestrator)))
    = Some "Error: connect ECONNREFUSED" ∧
  exec_completion
    (executeWorkflow storeDown 0 "workflow_1700000000000_r0" retryOrchestrator)
    = Threw (storeError "Error: connect ECONNREFUSED").
Proof.
  assert (is_Some (workflows retryOrchestrator !! "workflow_1700000000000_r0"))
    as Hwf by (exists retryWorkflow; by vm_compute).
  split_and!; [exact Hwf|reflexivity|].
  apply (store_failure_reaches_the_caller storeDown (λ _, None) 0 emptyRequest
           "workflow_1700000000000_r0" retryOrchestrator
           "Error: connect ECONNREFUSED");
    [exact Hwf|reflexivity].
Defined.

(** C6 as stated fails: with the persistence service down, [createWorkflow]
    rejects, and [executeWorkflow] throws although the one task of the
    workflow, and the workflow itself, are [completed]. *)
Lemma store_failure_is_not_swallowed :
  (createWorkflow storeDown 0 promptRequest constructor).2
    = Rejected "Memory storage failed: Error: connect ECONNREFUSED" ∧
  (let e :=
     executeWorkflow storeDown 0 "workflow_1700000000000_r0" retryOrchestrator in
   exec_completion e
     = Threw "Memory storage failed: Error: connect ECONNREFUSED" ∧
   taskStates (exec_state e) "workflow_1700000000000_r0"
     = Some (completed, [(completed, 0)])).
Proof. by vm_compute. Qed.

(** ** Priority order *)

Section SortFacts.
Context {A : Type} (weight : A → Z).

Lemma insertDesc_Permutation a l : insertDesc weight a l ≡ₚ a :: l.
Proof.
  induction l as [|b l IH]; [done|]. simpl. case_decide; [done|].
  rewrite IH. apply Permutation_swap.
Qed.

Lemma sortDesc_Permutation l : sortDesc weight l ≡ₚ l.
Proof.
  induction l as [|a l IH]; [done|]. simpl.
  by rewrite insertDesc_Permutation, IH.
Qed.

Lemma insertDesc_sorted a l :
  StronglySorted (λ x y, weight y ≤ weight x) l →
  StronglySorted (λ x y, weight y ≤ weight x) (insertDesc weight a l).
Proof.
  induction l as [|b l IH]; intros Hs; simpl.
  - repeat constructor.
  - apply StronglySorted_inv in Hs as [Hl Hb]. case_decide as Hab.
    + constructor; [by constructor|]. constructor; [lia|].
      eapply Forall_impl; [exact Hb|]. simpl. intros; lia.
    + constructor; [by apply IH|].
      rewrite insertDesc_Permutation. constructor; [lia|done].
Qed.

Lemma sortDesc_sorted l :
  StronglySorted (λ x y, weight y ≤ weight x) (sortDesc weight l).
Proof.
  induction l as [|a l IH]; simpl; [constructor|by apply insertDesc_sorted].
Qed.

Lemma insertDesc_filter w a l :
  filter (λ x, weight x = w) (insertDesc weight a l)
  = filter (λ x, weight x = w) (a :: l).
Proof.
  induction l as [|b l IH]; [done|]. simpl. case_decide as Hab; [done|].
  rewrite (filter_cons _ b), IH, !(filter_cons _ a), !(filter_cons _ b).
  repeat case_decide; try done; lia.
Qed.

(** Stability: the elements of one weight keep their relative order. *)
Lemma sortDesc_stable w l :
  filter (λ x, weight x = w) (sortDesc weight l)
  = filter (λ x, weight x = w) l.
Proof.
  induction l as [|a l IH]; [done|]. simpl.
  by rewrite insertDesc_filter, !filter_cons, IH.
Qed.

(** A stable sort has one possible result: two lists in descending weight
    order whose elements of each weight come in the same order are equal.
    So [sortDesc] is the sort of the language, whatever algorithm that
    runs. *)
Lemma stable_sort_unique l1 l2 :
  StronglySorted (λ x y, weight y ≤ weight x) l1 →
  StronglySorted (λ x y, weight y ≤ weight x) l2 →
  (∀ w, filter (λ x, weight x = w) l1 = filter (λ x, weight x = w) l2) →
  l1 = l2.
Proof.
  revert l2. induction l1 as [|a l1 IH]; intros l2 Hs1 Hs2 Hf.
  - destruct l2 as [|b l2]; [done|].
    specialize (Hf (weight b)). rewrite filter_nil, filter_cons_True in Hf; done.
  - destruct l2 as [|b l2].
    { specialize (Hf (weight a)). rewrite filter_nil, filter_cons_True in Hf; done. }
    apply StronglySorted_inv in Hs1 as [Hs1 Ha].
    apply StronglySorted_inv in Hs2 as [Hs2 Hb].
    rewrite Forall_forall in Ha, Hb.
    assert (a ∈ b :: l2) as Ha2.
    { assert (a ∈ filter (λ x, weight x = weight a) (b :: l2)) as Hin
        by (rewrite <-Hf, filter_cons_True by done; by left).
      by apply list_elem_of_filter in Hin as [_ ?]. }
    assert (b ∈ a :: l1) as Hb1.
    { assert (b ∈ filter (λ x, weight x = weight b) (a :: l1)) as Hin
        by (rewrite Hf, filter_cons_True by done; by left).
      by apply list_elem_of_filter in Hin as [_ ?]. }
    assert (weight a = weight b) as Hw.
    { apply elem_of_cons in Ha2 as [->|Ha2]; [done|].
      apply elem_of_cons in Hb1 as [->|Hb1]; [done|].
      pose proof (Ha _ Hb1). pose proof (Hb _ Ha2). lia. }
    pose proof (Hf (weight a)) as Hfa.
    rewrite (filter_cons_True _ a), (filter_cons_True _ b) in Hfa by done.
    injection Hfa as <- Hfa. f_equal. apply IH; [done|done|].
    intros w. specialize (Hf w). rewrite !(filter_cons _ a) in Hf.
    case_decide; [by injection Hf|done].
Qed.

Lemma insertDesc_fmap {B} (f : B → A) b l :
  f <$> insertDesc (weight ∘ f) b l = insertDesc weight (f b) (f <$> l).
Proof.
  induction l as [|c l IH]; [done|]. simpl. case_decide; [done|].
  by rewrite fmap_cons, IH.
Qed.

Lemma sortDesc_fmap {B} (f : B → A) l :
  f <$> sortDesc (weight ∘ f) l = sortDesc weight (f <$> l).
Proof.
  induction l as [|b l IH]; [done|]. simpl. by rewrite insertDesc_fmap, IH.
Qed.
End SortFacts.

Lemma filter_snd_fmap (P : Task.t → Prop) `{!∀ x, Decision (P x)}
    (l : list (string * Task.t)) :
  (filter (λ e, P e.2) l).*2 = filter P l.*2.
Proof.
  induction l as [|e l IH]; [done|].
  rewrite fmap_cons, !filter_cons. case_decide; by rewrite ?fmap_cons, IH.
Qed.

Lemma pendingTasks_sortDesc o :
  pendingTasks o
  = sortDesc taskWeight (filter (λ x, Task.status x = pending) (tasks o).*2).
Proof.
  unfold pendingTasks, pendingEntries.
  rewrite <-filter_snd_fmap. apply (sortDesc_fmap taskWeight snd).
Qed.

(** C5, as the code has it. The weights are critical 4, high 3, medium 2,
    low 1 (anything else 2). The priority order belongs to the queue pass of
    the autonomous mode: its pending tasks are the pending tasks of the task
    map sorted by descending weight, tasks of equal weight in the order of
    the map, and the pass starts a prefix of that list. The ready set of
    [executeWorkflow] is not sorted: it is the ready tasks of the workflow in
    creation order. *)
Theorem queue_pass_orders_by_priority (o : Orchestrator) (ex : gset string)
    (ts : list Task.t) (w : Z) :
  (getPriorityWeight "critical", getPriorityWeight "high",
   getPriorityWeight "medium", getPriorityWeight "low") = (4, 3, 2, 1) ∧
  StronglySorted byWeight (pendingTasks o) ∧
  filter (λ x, taskWeight x = w) (pendingTasks o)
    = filter (λ x, taskWeight x = w)
        (filter (λ x, Task.status x = pending) (tasks o).*2) ∧
  pendingTasks o ≡ₚ filter (λ x, Task.status x = pending) (tasks o).*2 ∧
  (dispatched o).*2 `prefix_of` pendingTasks o ∧
  readyTasks ex ts `sublist_of` ts.
Proof.
  split_and!.
  - reflexivity.
  - rewrite pendingTasks_sortDesc. apply sortDesc_sorted.
  - rewrite pendingTasks_sortDesc. apply sortDesc_stable.
  - rewrite pendingTasks_sortDesc. apply sortDesc_Permutation.
  - unfold dispatched, pendingTasks. rewrite fmap_take. apply prefix_take.
  - apply sublist_filter.
Qed.

(** C5 as stated fails: the workflow built from [mixedRequest] has a low
    task followed by a critical one, both ready at once, and the one batch
    of [executeWorkflow] hands them to the executor in that order. *)
Lemma ready_set_keeps_creation_order :
  let e := orchestrate (failsBefore 0) 0 mixedRequest constructor in
  (λ b : list Task.t * list Task.t, Task.priority <$> b.2) <$> exec_batches e
    = [["low"; "critical"]] ∧
  ¬ StronglySorted byWeight
      (default [] (snd <$> head (exec_batches e))).
Proof.
  split; [by vm_compute|].
  vm_compute. intros Hs. apply StronglySorted_inv in Hs as [_ Hall].
  apply Forall_cons in Hall as [Hle _]. by apply Hle.
Qed.

(** ** Dependency order *)

Lemma IsReady_executed ex x : Task.id x ∈ ex → ¬ IsReady ex x.
Proof. intros Hin [Hnot _]. done. Qed.

Lemma IsReady_deps ex x dep : IsReady ex x → dep ∈ Task.deps x → dep ∈ ex.
Proof.
  intros [_ Hdeps] Hdep. unfold Task.deps in Hdep.
  destruct (Task.dependencies x); simpl in *.
  - rewrite Forall_forall in Hdeps. auto.
  - by apply elem_of_nil in Hdep.
Qed.

(** A batch that fulfils entirely leaves every executed task [completed]. *)
Lemma runBatch_Done env n ex res ts ex' res' :
  NoDup (taskIds ts) → Done ts ex →
  collectResults ex res (runBatch env n ex ts).2 = (ex', res', None) →
  Done (runBatch env n ex ts).1 ex'.
Proof.
  intros Hnd Hdone Hc y' Hy' Hid.
  apply collectResults_None in Hc as [-> Hall].
  rewrite runBatch_outcomes in Hid.
  apply list_elem_of_lookup_1 in Hy' as [j Hj].
  destruct (Forall2_lookup_r _ _ _ _ _ (runBatch_pointwise env n ex ts) Hj)
    as (y & Hy & Hskip & Hrun).
  destruct (Forall2_lookup_r _ _ _ _ _ (runBatch_frame env n ex ts) Hj)
    as (y0 & Hy0 & Hsame & _).
  assert (y0 = y) as -> by congruence. rewrite Hsame in Hid.
  pose proof (list_elem_of_lookup_2 _ _ _ Hy) as Hin.
  destruct (decide (IsReady ex y)) as [Hr|Hr].
  - destruct (Hrun Hr) as (k & -> & Hout).
    rewrite Forall_forall in Hall. destruct (Hall _ Hout) as [v Hv].
    by eapply executeTask_fulfilled.
  - rewrite (Hskip Hr). apply Hdone; [done|].
    apply elem_of_union in Hid as [Hid|Hid]; [|done].
    apply elem_of_list_to_set, list_elem_of_fmap in Hid as (z & Hz & Hzr).
    apply list_elem_of_filter in Hzr as [Hzready Hzin].
    assert (z = y) as -> by (eapply NoDup_taskIds_inj; eauto).
    done.
Qed.

Lemma executeLoop_respects fuel env n ex res ts :
  NoDup (taskIds ts) → Done ts ex →
  ∀ b x dep y,
    b ∈ loop_batches (executeLoop fuel env n ex res ts) →
    x ∈ b.2 → dep ∈ Task.deps x → y ∈ b.1 → Task.id y = dep →
    Task.status y = completed.
Proof.
  revert n ex res ts.
  induction fuel as [|fuel IH]; intros n ex res ts Hnd Hdone b x dep y.
  { intros Hb. by apply elem_of_nil in Hb. }
  rewrite executeLoop_unfold. case_decide; [|intros Hb; by apply elem_of_nil in Hb].
  case_decide; [intros Hb; by apply elem_of_nil in Hb|]. cbv zeta.
  assert (∀ b, b = (ts, readyTasks ex ts) → x ∈ b.2 → dep ∈ Task.deps x →
               y ∈ b.1 → Task.id y = dep → Task.status y = completed) as Hhere.
  { intros ? -> [Hr _]%list_elem_of_filter Hdep Hy Hid. simpl in Hy.
    apply Hdone; [done|]. rewrite Hid. by eapply IsReady_deps. }
  destruct (collectResults ex res _) as [[ex' res'] [msg|]] eqn:Hc; simpl.
  - intros ->%list_elem_of_singleton. by apply Hhere.
  - intros [->|Hb]%elem_of_cons; [by apply Hhere|].
    eapply IH; [| |exact Hb].
    + unfold taskIds. by rewrite runBatch_ids.
    + by eapply runBatch_Done.
Qed.

(** X2: [executeWorkflow] keeps to the dependency order: whenever it hands a
    batch to the executor, every task of the workflow that a task of the
    batch depends on is [completed] at that moment. *)
Theorem executeWorkflow_respects_dependencies (env : Env) (n : nat)
    (wid : string) (o : Orchestrator) (wf : Workflow.t) :
  workflows o !! wid = Some wf →
  NoDup (taskIds (Workflow.tasks wf)) →
  ∀ b x dep y,
    b ∈ exec_batches (executeWorkflow env n wid o) →
    x ∈ b.2 → dep ∈ Task.deps x → y ∈ b.1 → Task.id y = dep →
    Task.status y = completed.
Proof.
  intros Hwf Hnd b x dep y. unfold executeWorkflow. rewrite Hwf.
  cbn [exec_batches]. apply executeLoop_respects; [done|].
  intros z _ Hz. by apply elem_of_empty in Hz.
Qed.

(** A task that is in no batch is left as it was. *)
Lemma executeLoop_untouched fuel env n ex res ts :
  Forall2
    (λ x x',
       (∀ b y, b ∈ loop_batches (executeLoop fuel env n ex res ts) →
               y ∈ b.2 → Task.id y ≠ Task.id x) → x' = x)
    ts (loop_tasks (executeLoop fuel env n ex res ts)).
Proof.
  revert n ex res ts. induction fuel as [|fuel IH]; intros n ex res ts.
  { apply Forall_Forall2_diag, Forall_forall. done. }
  rewrite executeLoop_unfold.
  case_decide; [|apply Forall_Forall2_diag, Forall_forall; done].
  case_decide; [apply Forall_Forall2_diag, Forall_forall; done|]. cbv zeta.
  assert (Forall2
            (λ x x', (∀ y, y ∈ readyTasks ex ts → Task.id y ≠ Task.id x) →
                     x' = x)
            ts (runBatch env n ex ts).1) as Hstep.
  { eapply Forall2_impl_elem; [apply runBatch_frame|].
    intros x x' Hx (_ & _ & Hsame) Hno. apply Hsame. intros Hr.
    apply (Hno x); [|done]. by apply list_elem_of_filter. }
  destruct (collectResults ex res _) as [[ex' res'] [msg|]] eqn:Hc; simpl.
  - eapply Forall2_impl; [exact Hstep|]. intros x x' Hsame Hno.
    apply Hsame. intros y Hy. apply (Hno (ts, readyTasks ex ts)); [by left|done].
  - eapply Forall2_trans; [|exact Hstep|apply IH].
    intros x y z Hxy Hyz Hno.
    assert (y = x) as ->.
    { apply Hxy. intros y' Hy'.
      apply (Hno (ts, readyTasks ex ts)); [by left|done]. }
    apply Hyz. intros b y' Hb. apply Hno. by right.
Qed.

Lemma executeTask_fulfilled_retries env n x v :
  (executeTask env n x).2 = Fulfilled v →
  Task.retries (executeTask env n x).1 = Task.retries x.
Proof.
  unfold executeTask, executeTask_settle. simpl.
  destruct (collaborator env n _); simpl; [done|]. discriminate.
Qed.

Lemma runBatch_fulfilled env n ex res ts ex' res' :
  collectResults ex res (runBatch env n ex ts).2 = (ex', res', None) →
  Forall2 (λ x x', Task.id x' = Task.id x ∧ Task.retries x' = Task.retries x)
    ts (runBatch env n ex ts).1.
Proof.
  intros [_ Hall]%collectResults_None. rewrite Forall_forall in Hall.
  pose proof (runBatch_pointwise env n ex ts) as Hp.
  pose proof (runBatch_frame env n ex ts) as Hf.
  apply Forall2_same_length_lookup. split; [by eapply Forall2_length|].
  intros i x x' Hx Hx'.
  destruct (Forall2_lookup_l _ _ _ _ _ Hp Hx) as (y & Hy & Hskip & Hrun).
  destruct (Forall2_lookup_l _ _ _ _ _ Hf Hx) as (z & Hz & Hid & _).
  assert (y = x') as -> by congruence. assert (z = x') as -> by congruence.
  split; [done|]. destruct (decide (IsReady ex x)) as [Hr|Hr].
  - destruct (Hrun Hr) as (k & -> & Hout). destruct (Hall _ Hout) as [v Hv].
    by eapply executeTask_fulfilled_retries.
  - by rewrite (Hskip Hr).
Qed.

(** A loop that returns has left every task [completed] with the retry count
    it had. *)
Lemma executeLoop_returned fuel env n ex res ts res' :
  NoDup (taskIds ts) → Done ts ex → ex ⊆ list_to_set (taskIds ts) →
  loop_completion (executeLoop fuel env n ex res ts) = Returned res' →
  Forall2
    (λ x x', Task.id x' = Task.id x ∧ Task.status x' = completed ∧
             Task.retries x' = Task.retries x)
    ts (loop_tasks (executeLoop fuel env n ex res ts)).
Proof.
  revert n ex res ts.
  induction fuel as [|fuel IH]; intros n ex res ts Hnd Hdone Hsub; [done|].
  rewrite executeLoop_unfold. case_decide as Hsize.
  - case_decide; [done|]. cbv zeta.
    destruct (collectResults ex res _) as [[ex' res''] [msg|]] eqn:Hc; [done|].
    simpl. intros Hret.
    pose proof (runBatch_fulfilled _ _ _ _ _ _ _ Hc) as Hbatch.
    eapply Forall2_trans; [|exact Hbatch|apply IH; [| | |exact Hret]].
    + intros x y z [Hid Hre] (Hid' & Hst & Hre'). split_and!; congruence.
    + unfold taskIds. by rewrite runBatch_ids.
    + by eapply runBatch_Done.
    + unfold taskIds. rewrite runBatch_ids.
      apply collectResults_None in Hc as [-> _]. rewrite runBatch_outcomes.
      intros i [Hi|Hi]%elem_of_union; [|by apply Hsub].
      apply elem_of_list_to_set, list_elem_of_fmap in Hi as (x & -> & Hx).
      apply elem_of_list_to_set, list_elem_of_fmap_2.
      by apply list_elem_of_filter in Hx as [_ ?].
  - simpl. intros _.
    assert (ex = list_to_set (taskIds ts)) as ->.
    { apply set_subseteq_size_eq; [done|].
      rewrite size_list_to_set by done. unfold taskIds. rewrite length_fmap. lia. }
    apply Forall_Forall2_diag, Forall_forall. intros x Hx. split_and!; [done| |done].
    apply Hdone; [done|]. apply elem_of_list_to_set. by apply list_elem_of_fmap_2.
Qed.

(** X3: a task changes in [executeWorkflow] only by being in a batch: every
    task of the workflow that is in no batch is left as it was. *)
Theorem executeWorkflow_touches_dispatched_only (env : Env) (n : nat)
    (wid : string) (o : Orchestrator) (wf : Workflow.t) :
  workflows o !! wid = Some wf →
  let e := executeWorkflow env n wid o in
  ∃ wf', workflows (exec_state e) !! wid = Some wf' ∧
    Forall2
      (λ x x', (∀ b y, b ∈ exec_batches e → y ∈ b.2 → Task.id y ≠ Task.id x) →
               x' = x)
      (Workflow.tasks wf) (Workflow.tasks wf').
Proof.
  intros Hwf. cbv zeta. unfold executeWorkflow. rewrite Hwf.
  cbn [exec_state exec_batches workflows set_workflows]. eexists.
  split; [apply lookup_insert_eq|].
  replace (Workflow.tasks (closeWorkflow _ _ _ _))
    with (loop_tasks (executeLoop (S (length (Workflow.tasks wf))) env n ∅ ∅
                        (Workflow.tasks wf)))
    by (unfold closeWorkflow; by destruct (loop_completion _)).
  apply executeLoop_untouched.
Qed.

(** X4: no retry takes place inside [executeWorkflow]: when it returns a
    result map, every task of the workflow is [completed] and has the retry count
    it had before the call. *)
Theorem completed_workflow_made_no_retry (env : Env) (n : nat) (wid : string)
    (o : Orchestrator) (wf : Workflow.t) (res : gmap string Json) :
  workflows o !! wid = Some wf →
  NoDup (taskIds (Workflow.tasks wf)) →
  let e := executeWorkflow env n wid o in
  exec_completion e = Returned res →
  ∃ wf', workflows (exec_state e) !! wid = Some wf' ∧
    Workflow.status wf' = completed ∧
    Forall2
      (λ x x', Task.id x' = Task.id x ∧ Task.status x' = completed ∧
               Task.retries x' = Task.retries x)
      (Workflow.tasks wf) (Workflow.tasks wf').
Proof.
  intros Hwf Hnd. cbv zeta. unfold executeWorkflow. rewrite Hwf.
  cbn [exec_state exec_completion workflows set_workflows].
  set (r := executeLoop (S (length (Workflow.tasks wf))) env n ∅ ∅
              (Workflow.tasks wf)).
  intros Hret. assert (loop_completion r = Returned res) as Hloop.
  { unfold finallyStore in Hret.
    destruct (loop_completion r); [|by destruct (memoryStore env _)|done].
    by destruct (memoryStore env _). }
  eexists. split; [apply lookup_insert_eq|].
  unfold closeWorkflow. rewrite Hloop. simpl. split; [done|].
  apply (executeLoop_returned _ _ _ _ _ _ res); [done| |set_solver|done].
  intros y _ Hy. by apply elem_of_empty in Hy.
Qed.


(** ** The task map and the workflows *)

Lemma mapGet_None key m : key ∉ m.*1 → mapGet key m = None.
Proof.
  induction m as [|[k x] m IH]; [done|]. simpl. intros Hnot.
  rewrite decide_False by set_solver. apply IH. set_solver.
Qed.

Lemma processTaskQueue_workflows env k o :
  workflows (processTaskQueue env k o) = workflows o.
Proof. unfold processTaskQueue. by destruct (isAutonomousMode o). Qed.

Lemma createWorkflow_state env n request o :
  (createWorkflow env n request o).1.1
  = set_workflows
      (<[freshId env n "workflow_" :=
           Workflow.mk (freshId env n "workflow_")
             (workflowName (req_name request) (freshId env n "workflow_"))
             (req_description request)
             (analyzeAndCreateTasks env (S n) request).1 pending
             (dateNow env (analyzeAndCreateTasks env (S n) request).2)
             None None None None]> (workflows o)) o.
Proof.
  unfold createWorkflow.
  by destruct (analyzeAndCreateTasks env (S n) request).
Qed.

(** C9: [createWorkflow] writes the workflow registry and nothing else. The
    task map, the running set and the queue are as before, so [getTask] and
    [listTasks] answer as before; a created task whose id was not a key of
    the task map (none is, from the constructor on: no method inserts into
    the map) is unknown to [getTask]. The self-healing callback and the
    queue pass read and write the task map and the running set only: they do
    to the new state what they do to the old one, and they leave every
    workflow, hence every task of a workflow, as it is. *)
Theorem createWorkflow_leaves_the_task_map (env : Env) (n k : nat)
    (request : Request) (o : Orchestrator) (now : Z) (taskId : string)
    (status : option Status) :
  let o' := (createWorkflow env n request o).1.1 in
  (tasks o', runningTasks o', taskQueue o')
    = (tasks o, runningTasks o, taskQueue o) ∧
  getTask o' taskId = getTask o taskId ∧
  listTasks o' status = listTasks o status ∧
  (∀ wf x, workflows o' !! freshId env n "workflow_" = Some wf →
     x ∈ Workflow.tasks wf → Task.id x ∉ (tasks o).*1 →
     getTask o' (Task.id x) = None) ∧
  (tasks (startSelfHealing now o'), runningTasks (startSelfHealing now o'))
    = (tasks (startSelfHealing now o), runningTasks (startSelfHealing now o)) ∧
  (tasks (processTaskQueue env k o'), runningTasks (processTaskQueue env k o'))
    = (tasks (processTaskQueue env k o), runningTasks (processTaskQueue env k o)) ∧
  workflows (startSelfHealing now o') = workflows o' ∧
  workflows (processTaskQueue env k o') = workflows o'.
Proof.
  cbv zeta. rewrite createWorkflow_state. split_and!.
  - done.
  - done.
  - done.
  - intros wf x _ _ Hfresh. unfold getTask. by apply mapGet_None.
  - done.
  - unfold processTaskQueue. cbn [isAutonomousMode set_workflows].
    by destruct (isAutonomousMode o).
  - done.
  - apply processTaskQueue_workflows.
Qed.

Lemma createWorkflow_leaves_the_task_map_witness :
  let o' := (createWorkflow (failsBefore 0) 0 mixedRequest queueOrchestrator).1.1 in
  getTask o' "task_mcp_1700000000002_r2" = None ∧
  tasks (processTaskQueue (failsBefore 0) 9 o')
    = tasks (processTaskQueue (failsBefore 0) 9 queueOrchestrator).
Proof.
  cbv zeta.
  pose proof (createWorkflow_leaves_the_task_map (failsBefore 0) 0 9
                mixedRequest queueOrchestrator 0 "" None)
    as (_ & _ & _ & Hget & _ & Hq & _).
  split.
  - apply (Hget
             (default cycleWorkflow
                (workflows
                   (createWorkflow (failsBefore 0) 0 mixedRequest
                      queueOrchestrator).1.1
                 !! freshId (failsBefore 0) 0 "workflow_"))
             (newTask (failsBefore 0) 2 "task_mcp_" mcp "critical"
                (PTool (mkTool (Some (JStr "search")) None (Some "critical"))))).
    + by vm_compute.
    + vm_compute. right. left.
    + apply (bool_decide_unpack _). by vm_compute.
  - congruence.
Defined.

(** * Further properties of the orchestrator *)

(** ** Workflows that complete *)

Lemma runBatch_graph env n ex ts :
  graphOf (runBatch env n ex ts).1 = graphOf ts.
Proof.
  unfold graphOf. pose proof (runBatch_frame env n ex ts) as HF.
  induction HF as [|x y l k (Hid & Hdep & _) _ IH]; [done|].
  rewrite !fmap_cons, IH. unfold Task.deps. by rewrite Hid, Hdep.
Qed.

Lemma graphOf_ids ts : (graphOf ts).*1 = taskIds ts.
Proof. unfold graphOf, taskIds. rewrite <-list_fmap_compose. done. Qed.

(** In a graph without cycles and without unmatched dependencies, as long as
    a task is left to execute, some task is ready. *)
Lemma ready_exists ts ex x :
  (∀ i, sn (idEdge (graphOf ts)) i) → Closed (graphOf ts) →
  x ∈ ts → Task.id x ∉ ex → ∃ y, y ∈ ts ∧ IsReady ex y.
Proof.
  intros Hsn Hclosed. specialize (Hsn (Task.id x)).
  remember (Task.id x) as i eqn:Hi. revert x Hi.
  induction Hsn as [i _ IH]. intros x -> Hin Hex.
  destruct (decide (IsReady ex x)) as [|Hnot]; [by exists x|].
  assert (∃ dep, dep ∈ Task.deps x ∧ dep ∉ ex) as (dep & Hdep & Hdex).
  { unfold IsReady, Task.deps in *.
    destruct (Task.dependencies x) as [deps|]; simpl; [|tauto].
    destruct (decide (Forall (λ dep, dep ∈ ex) deps)) as [|HnF]; [tauto|].
    apply not_Forall_Exists in HnF; [|apply _].
    apply Exists_exists in HnF as (dep & ? & ?). by exists dep. }
  assert ((Task.id x, Task.deps x) ∈ graphOf ts) as HG
    by (unfold graphOf; apply list_elem_of_fmap; by exists x).
  pose proof (Hclosed _ _ _ HG Hdep) as Hy.
  rewrite graphOf_ids in Hy. apply list_elem_of_fmap in Hy as (y & -> & Hy).
  apply (IH (Task.id y)) with y; [|done|done|done].
  exists (Task.deps x). done.
Qed.

Lemma collectResults_fulfilled ex res rs :
  Forall (λ p, ∃ v, p.2 = Fulfilled v) rs →
  ∃ res', collectResults ex res rs = (list_to_set rs.*1 ∪ ex, res', None).
Proof.
  revert ex res. induction rs as [|[i r] rs IH]; intros ex res Hall.
  - exists res. simpl. f_equal. f_equal. set_solver.
  - apply Forall_cons in Hall as [[v Hv] Hall]. simpl in Hv. subst r. simpl.
    destruct (IH ({[i]} ∪ ex) (<[i:=v]> res) Hall) as [res' ->].
    exists res'. f_equal. f_equal. set_solver.
Qed.

Lemma collectResults_lookup ex res rs ex' res' :
  NoDup rs.*1 →
  collectResults ex res rs = (ex', res', None) →
  (∀ i v, (i, Fulfilled v) ∈ rs → res' !! i = Some v) ∧
  (∀ i, i ∉ rs.*1 → res' !! i = res !! i) ∧
  dom res' = list_to_set rs.*1 ∪ dom res.
Proof.
  revert ex res. induction rs as [|[i [v|reason]] rs IH]; intros ex res Hnd; simpl.
  - intros [= <- <-]. split_and!; [|done|set_solver].
    intros i v Hin. by apply elem_of_nil in Hin.
  - apply NoDup_cons in Hnd as [Hi Hnd]. intros Hc.
    destruct (IH _ _ Hnd Hc) as (Hin & Hout & Hdom). split_and!.
    + intros j w [[= -> ->]|Hj]%elem_of_cons; [|by apply Hin].
      rewrite Hout by done. apply lookup_insert_eq.
    + intros j Hj. apply not_elem_of_cons in Hj as [Hji Hj].
      rewrite Hout by done. by apply lookup_insert_ne.
    + rewrite Hdom, dom_insert_L. set_solver.
  - discriminate.
Qed.

Lemma runBatch_allFulfil env n ex ts :
  allFulfil env → Forall (λ p, ∃ v, p.2 = Fulfilled v) (runBatch env n ex ts).2.
Proof.
  intros Hall. apply Forall_forall. intros p Hp.
  apply runBatch_outcome_source in Hp as (k & c & ->). apply Hall.
Qed.

Lemma executed_all ts (ex : gset string) :
  NoDup (taskIds ts) → ex ⊆ list_to_set (taskIds ts) →
  ¬ (size ex < length ts)%nat → ex = list_to_set (taskIds ts).
Proof.
  intros Hnd Hsub Hsize. apply set_subseteq_size_eq; [done|].
  rewrite size_list_to_set by done. unfold taskIds. rewrite length_fmap. lia.
Qed.

Lemma unexecuted_exists ts (ex : gset string) :
  NoDup (taskIds ts) → ex ⊆ list_to_set (taskIds ts) →
  (size ex < length ts)%nat → ∃ x, x ∈ ts ∧ Task.id x ∉ ex.
Proof.
  intros Hnd Hsub Hsize.
  destruct (decide (Forall (λ i, i ∈ ex) (taskIds ts))) as [Hall|Hnot].
  - exfalso. rewrite Forall_forall in Hall.
    assert (list_to_set (taskIds ts) ⊆ ex) as Hsup
      by (intros i Hi; apply Hall; by apply elem_of_list_to_set in Hi).
    apply subseteq_size in Hsup. rewrite size_list_to_set in Hsup by done.
    unfold taskIds in Hsup. rewrite length_fmap in Hsup. lia.
  - apply not_Forall_Exists in Hnot; [|apply _].
    apply Exists_exists in Hnot as (i & Hi & Hno).
    apply list_elem_of_fmap in Hi as (x & -> & Hx). by exists x.
Qed.

Lemma readyTasks_ids_NoDup ex ts :
  NoDup (taskIds ts) → NoDup (Task.id <$> readyTasks ex ts).
Proof.
  intros Hnd. eapply sublist_NoDup; [exact Hnd|].
  unfold taskIds, readyTasks. apply fmap_sublist, sublist_filter.
Qed.

Lemma readyTasks_ids_subseteq ex ts :
  (list_to_set (Task.id <$> readyTasks ex ts) : gset string)
    ⊆ list_to_set (taskIds ts).
Proof.
  intros i [x [-> Hx]]%elem_of_list_to_set%list_elem_of_fmap.
  apply elem_of_list_to_set, list_elem_of_fmap_2.
  by apply list_elem_of_filter in Hx as [_ ?].
Qed.

(** The loop on a graph without cycles and unmatched dependencies, with
    collaborators that fulfil: it returns, with an entry for every task. *)
Lemma executeLoop_dag fuel env n ex res ts :
  NoDup (taskIds ts) →
  (∀ i, sn (idEdge (graphOf ts)) i) → Closed (graphOf ts) →
  allFulfil env →
  ex ⊆ list_to_set (taskIds ts) → dom res = ex →
  (remaining ex ts < fuel)%nat →
  ∃ res', loop_completion (executeLoop fuel env n ex res ts) = Returned res' ∧
          dom res' = list_to_set (taskIds ts).
Proof.
  revert n ex res ts.
  induction fuel as [|fuel IH];
    intros n ex res ts Hnd Hsn Hclosed Hall Hsub Hdom Hlt; [lia|].
  rewrite executeLoop_unfold. case_decide as Hsize.
  - destruct (unexecuted_exists ts ex) as (x & Hx & Hxex); [done..|].
    destruct (ready_exists ts ex x) as (y & Hy & Hready); [done..|].
    rewrite decide_False; last first.
    { intros Hnil. assert (y ∈ readyTasks ex ts) as Hin
        by (by apply list_elem_of_filter).
      rewrite Hnil in Hin. by apply elem_of_nil in Hin. }
    cbv zeta.
    destruct (collectResults_fulfilled ex res (runBatch env n ex ts).2)
      as [res1 Hc]; [by apply runBatch_allFulfil|].
    rewrite Hc. simpl.
    destruct (collectResults_lookup _ _ _ _ _
                ltac:(rewrite runBatch_outcomes; by apply readyTasks_ids_NoDup)
                Hc) as (_ & _ & Hdom1).
    rewrite runBatch_outcomes in *.
    assert (taskIds (runBatch env n ex ts).1 = taskIds ts) as Hids
      by apply runBatch_ids.
    destruct (IH (n + length (readyTasks ex ts))%nat
                (list_to_set (Task.id <$> readyTasks ex ts) ∪ ex) res1
                (runBatch env n ex ts).1) as (res' & Hret & Hdom').
    + by rewrite Hids.
    + by rewrite runBatch_graph.
    + by rewrite runBatch_graph.
    + done.
    + rewrite Hids. pose proof (readyTasks_ids_subseteq ex ts). set_solver.
    + by rewrite Hdom1, Hdom.
    + assert (readyTasks ex ts ≠ []) as Hne.
      { intros Hnil. assert (y ∈ readyTasks ex ts) as Hin
          by (by apply list_elem_of_filter).
        rewrite Hnil in Hin. by apply elem_of_nil in Hin. }
      pose proof (remaining_decreases env n ex ts Hne). lia.
    + exists res'. by rewrite <-Hids.
  - simpl. exists res. split; [done|]. rewrite Hdom. by apply executed_all.
Qed.

(** From tasks to ids: with distinct ids, a cycle among the ids is a cycle
    among the tasks. *)
Lemma idEdge_dependsOn ts i j :
  NoDup (taskIds ts) → (∀ x, ¬ dangling ts x) →
  tc (idEdge (graphOf ts)) i j →
  ∀ x, x ∈ ts → Task.id x = i →
    ∃ y, y ∈ ts ∧ Task.id y = j ∧ tc (dependsOn ts) x y.
Proof.
  intros Hnd Hnodang Htc.
  assert (∀ i j x, idEdge (graphOf ts) i j → x ∈ ts → Task.id x = i →
            ∃ y, y ∈ ts ∧ Task.id y = j ∧ dependsOn ts x y) as Hstep.
  { intros i' j' x (deps & HG & Hj) Hx Hid.
    apply list_elem_of_fmap in HG as (x0 & [= Hi0 ->] & Hx0).
    assert (x0 = x) as -> by (eapply NoDup_taskIds_inj; eauto; congruence).
    destruct (decide (j' ∈ taskIds ts)) as [Hin|Hout].
    - apply list_elem_of_fmap in Hin as (y & -> & Hy).
      exists y. split_and!; [done|done|]. by split_and!.
    - destruct (Hnodang x). split; [done|]. by exists j'. }
  induction Htc as [i j Hij|i j k Hij _ IH]; intros x Hx Hid.
  - destruct (Hstep _ _ _ Hij Hx Hid) as (y & Hy & Hidy & Hd).
    exists y. split_and!; [done|done|by apply tc_once].
  - destruct (Hstep _ _ _ Hij Hx Hid) as (y & Hy & Hidy & Hd).
    destruct (IH y Hy Hidy) as (z & Hz & Hidz & Hyz).
    exists z. split_and!; [done|done|]. by eapply tc_l.
Qed.

Lemma unblocked_sn ts :
  NoDup (taskIds ts) → (∀ x, ¬ blocked ts x) →
  (∀ i, sn (idEdge (graphOf ts)) i) ∧ Closed (graphOf ts).
Proof.
  intros Hnd Hfree.
  assert (∀ x, ¬ dangling ts x) as Hnodang by (intros x Hx; apply (Hfree x); by right).
  assert (Closed (graphOf ts)) as Hclosed.
  { intros i deps j HG Hj. rewrite graphOf_ids.
    apply list_elem_of_fmap in HG as (x & [= -> ->] & Hx).
    destruct (decide (j ∈ taskIds ts)) as [|Hout]; [done|].
    destruct (Hnodang x). split; [done|]. by exists j. }
  split; [|done]. intros i. apply tc_finite_sn.
  - intros j Hjj.
    assert (∃ x, x ∈ ts ∧ Task.id x = j) as (x & Hx & Hid).
    { inversion Hjj as [? ? (deps & HG & _)|? ? ? (deps & HG & _) _]; subst;
        apply list_elem_of_fmap in HG as (x & [= -> _] & Hx); by exists x. }
    destruct (idEdge_dependsOn ts j j Hnd Hnodang Hjj x Hx Hid)
      as (y & Hy & Hidy & Hxy).
    assert (y = x) as -> by (eapply NoDup_taskIds_inj; eauto; congruence).
    apply (Hfree x). by left.
  - exists (taskIds ts). intros j Hij.
    assert (∃ k, idEdge (graphOf ts) k j) as (k & deps & HG & Hj).
    { clear -Hij. induction Hij; eauto. }
    rewrite <-graphOf_ids. by eapply Hclosed.
Qed.

Lemma no_dependencies_unblocked ts :
  (∀ x, x ∈ ts → Task.deps x = []) → ∀ x, ¬ blocked ts x.
Proof.
  intros Hnone x [Hc|(Hx & dep & Hdep & _)].
  - unfold onCycle in Hc.
    inversion Hc as [? ? (Hx & _ & Hd)|? ? ? (Hx & _ & Hd) _]; subst;
      rewrite (Hnone _ Hx) in Hd; by apply elem_of_nil in Hd.
  - rewrite (Hnone _ Hx) in Hdep. by apply elem_of_nil in Hdep.
Qed.

(** X5: a workflow with distinct task ids, no task on a dependency cycle and
    no dependency that matches no task, run with collaborators that fulfil
    every call and a store that succeeds, makes [executeWorkflow] return a
    result map with exactly one entry per task. *)
Theorem acyclic_workflow_returns (env : Env) (n : nat) (wid : string)
    (o : Orchestrator) (wf : Workflow.t) :
  workflows o !! wid = Some wf →
  NoDup (taskIds (Workflow.tasks wf)) →
  (∀ x, ¬ blocked (Workflow.tasks wf) x) →
  allFulfil env →
  (∀ k, memoryStore env k = None) →
  ∃ res, exec_completion (executeWorkflow env n wid o) = Returned res ∧
         dom res = list_to_set (taskIds (Workflow.tasks wf)).
Proof.
  intros Hwf Hnd Hfree Hall Hstore. unfold executeWorkflow. rewrite Hwf.
  cbn [exec_completion].
  destruct (unblocked_sn _ Hnd Hfree) as [Hsn Hclosed].
  destruct (executeLoop_dag (S (length (Workflow.tasks wf))) env n ∅ ∅
              (Workflow.tasks wf)) as (res & Hret & Hdom); try done.
  { pose proof (remaining_le ∅ (Workflow.tasks wf)). lia. }
  exists res. split; [|done]. unfold finallyStore. by rewrite Hret, Hstore.
Qed.

Lemma acyclic_workflow_returns_witness :
  workflows retryOrchestrator !! "workflow_1700000000000_r0" = Some retryWorkflow ∧
  NoDup (taskIds (Workflow.tasks retryWorkflow)) ∧
  (∀ x, ¬ blocked (Workflow.tasks retryWorkflow) x) ∧
  allFulfil (failsBefore 0) ∧
  (∀ k, memoryStore (failsBefore 0) k = None) ∧
  ∃ res,
    exec_completion
      (executeWorkflow (failsBefore 0) 0 "workflow_1700000000000_r0"
         retryOrchestrator) = Returned res ∧
    dom res = list_to_set (taskIds (Workflow.tasks retryWorkflow)).
Proof.
  assert (workflows retryOrchestrator !! "workflow_1700000000000_r0"
          = Some retryWorkflow) as H1 by (by vm_compute).
  assert (NoDup (taskIds (Workflow.tasks retryWorkflow))) as H2
    by (by apply (bool_decide_unpack _); vm_compute).
  assert (∀ x, ¬ blocked (Workflow.tasks retryWorkflow) x) as H3.
  { apply no_dependencies_unblocked.
    intros x ->%list_elem_of_singleton. reflexivity. }
  assert (∀ k, memoryStore (failsBefore 0) k = None) as H4 by reflexivity.
  split_and!; [done|done|done|apply failsBefore_0_allFulfil|done|].
  apply (acyclic_workflow_returns (failsBefore 0) 0 "workflow_1700000000000_r0"
           retryOrchestrator retryWorkflow H1 H2 H3 failsBefore_0_allFulfil H4).
Defined.

(** ** The result map *)

Lemma executeTask_fulfilled_result env n x v :
  (executeTask env n x).2 = Fulfilled v →
  Task.result (executeTask env n x).1 = Some v.
Proof.
  unfold executeTask, executeTask_settle. simpl.
  destruct (collaborator env n _); simpl; [by intros [= ->]|discriminate].
Qed.

Lemma runBatch_Agree env n ex res ts ex' res' :
  NoDup (taskIds ts) → Agree ts ex res →
  collectResults ex res (runBatch env n ex ts).2 = (ex', res', None) →
  Agree (runBatch env n ex ts).1 ex' res'.
Proof.
  intros Hnd Hagree Hc y' Hy' Hid.
  pose proof (collectResults_None _ _ _ _ _ Hc) as [-> Hall].
  rewrite Forall_forall in Hall.
  destruct (collectResults_lookup _ _ _ _ _
              ltac:(rewrite runBatch_outcomes; by apply readyTasks_ids_NoDup)
              Hc) as (Hin & Hout & _).
  rewrite runBatch_outcomes in *.
  apply list_elem_of_lookup_1 in Hy' as [j Hj].
  destruct (Forall2_lookup_r _ _ _ _ _ (runBatch_pointwise env n ex ts) Hj)
    as (y & Hy & Hskip & Hrun).
  destruct (Forall2_lookup_r _ _ _ _ _ (runBatch_frame env n ex ts) Hj)
    as (y0 & Hy0 & Hsame & _).
  assert (y0 = y) as -> by congruence. rewrite Hsame in *.
  pose proof (list_elem_of_lookup_2 _ _ _ Hy) as Hyin.
  destruct (decide (IsReady ex y)) as [Hr|Hr].
  - destruct (Hrun Hr) as (k & -> & Hp). destruct (Hall _ Hp) as [v Hv].
    simpl in Hv. rewrite (executeTask_fulfilled_result _ _ _ _ Hv).
    apply Hin. by rewrite <-Hv.
  - rewrite (Hskip Hr).
    assert (Task.id y ∉ Task.id <$> readyTasks ex ts) as Hnew.
    { intros (z & Hz & Hzr)%list_elem_of_fmap.
      apply list_elem_of_filter in Hzr as [Hzready Hzin].
      assert (z = y) as -> by (eapply NoDup_taskIds_inj; eauto). done. }
    rewrite Hout by done. apply Hagree; [done|].
    apply elem_of_union in Hid as [Hid|Hid]; [|done].
    by apply elem_of_list_to_set in Hid.
Qed.

Lemma executeLoop_Agree fuel env n ex res ts res' :
  NoDup (taskIds ts) → Agree ts ex res →
  ex ⊆ list_to_set (taskIds ts) → dom res = ex →
  loop_completion (executeLoop fuel env n ex res ts) = Returned res' →
  Agree (loop_tasks (executeLoop fuel env n ex res ts))
    (list_to_set (taskIds ts)) res' ∧
  dom res' = list_to_set (taskIds ts).
Proof.
  revert n ex res ts.
  induction fuel as [|fuel IH]; intros n ex res ts Hnd Hagree Hsub Hdom; [done|].
  rewrite executeLoop_unfold. case_decide as Hsize.
  - case_decide; [done|]. cbv zeta.
    destruct (collectResults ex res _) as [[ex1 res1] [msg|]] eqn:Hc; [done|].
    simpl. intros Hret.
    assert (taskIds (runBatch env n ex ts).1 = taskIds ts) as Hids
      by apply runBatch_ids.
    pose proof (runBatch_Agree _ _ _ _ _ _ _ Hnd Hagree Hc) as Hagree1.
    destruct (collectResults_lookup _ _ _ _ _
                ltac:(rewrite runBatch_outcomes; by apply readyTasks_ids_NoDup)
                Hc) as (_ & _ & Hdom1).
    apply collectResults_None in Hc as [-> _]. rewrite runBatch_outcomes in *.
    rewrite <-Hids. apply IH; [by rewrite Hids|done| |by rewrite Hdom1, Hdom|done].
    rewrite Hids. pose proof (readyTasks_ids_subseteq ex ts). set_solver.
  - simpl. intros [= <-].
    rewrite <-(executed_all ts ex) by done. done.
Qed.

(** X6: when [executeWorkflow] returns a result map for a workflow with
    distinct task ids, the map is the one recorded on the workflow, its keys
    are exactly the task ids, and under each id it holds what the [result]
    field of that task holds. *)
Theorem result_map_collects_task_results (env : Env) (n : nat) (wid : string)
    (o : Orchestrator) (wf : Workflow.t) (res : gmap string Json) :
  workflows o !! wid = Some wf →
  NoDup (taskIds (Workflow.tasks wf)) →
  exec_completion (executeWorkflow env n wid o) = Returned res →
  ∃ wf', workflows (exec_state (executeWorkflow env n wid o)) !! wid = Some wf' ∧
    Workflow.result wf' = Some res ∧
    dom res = list_to_set (taskIds (Workflow.tasks wf)) ∧
    ∀ x, x ∈ Workflow.tasks wf' → res !! Task.id x = Task.result x.
Proof.
  intros Hwf Hnd. unfold executeWorkflow. rewrite Hwf.
  cbn [exec_state exec_completion workflows set_workflows].
  set (r := executeLoop (S (length (Workflow.tasks wf))) env n ∅ ∅
              (Workflow.tasks wf)).
  intros Hret. assert (loop_completion r = Returned res) as Hloop.
  { unfold finallyStore in Hret.
    destruct (loop_completion r); [|by destruct (memoryStore env _)|done].
    by destruct (memoryStore env _). }
  destruct (executeLoop_Agree (S (length (Workflow.tasks wf))) env n ∅ ∅
              (Workflow.tasks wf) res) as [Hagree Hdom];
    try done; try (intros x _ Hx; by apply elem_of_empty in Hx).
  eexists. split; [apply lookup_insert_eq|].
  unfold closeWorkflow. fold r. rewrite Hloop. simpl. split_and!; [done|done|].
  intros x Hx. apply Hagree; [done|].
  apply elem_of_list_to_set.
  pose proof (executeLoop_returned _ _ _ _ _ _ res Hnd
                ltac:(intros y _ Hy; by apply elem_of_empty in Hy)
                ltac:(set_solver) Hloop) as HF.
  fold r in HF. apply list_elem_of_lookup_1 in Hx as [j Hj].
  destruct (Forall2_lookup_r _ _ _ _ _ HF Hj) as (x0 & Hx0 & Hid & _).
  rewrite Hid. apply list_elem_of_fmap_2. by eapply list_elem_of_lookup_2.
Qed.

Lemma result_map_collects_task_results_witness :
  workflows retryOrchestrator !! "workflow_1700000000000_r0" = Some retryWorkflow ∧
  NoDup (taskIds (Workflow.tasks retryWorkflow)) ∧
  ∃ res,
    exec_completion
      (executeWorkflow (failsBefore 0) 0 "workflow_1700000000000_r0"
         retryOrchestrator) = Returned res ∧
    ∃ wf',
      workflows
        (exec_state
           (executeWorkflow (failsBefore 0) 0 "workflow_1700000000000_r0"
              retryOrchestrator)) !! "workflow_1700000000000_r0" = Some wf' ∧
      Workflow.result wf' = Some res.
Proof.
  assert (workflows retryOrchestrator !! "workflow_1700000000000_r0"
          = Some retryWorkflow) as H1 by (by vm_compute).
  assert (NoDup (taskIds (Workflow.tasks retryWorkflow))) as H2
    by (by apply (bool_decide_unpack _); vm_compute).
  split_and!; [done|done|].
  assert (∃ res,
            exec_completion
              (executeWorkflow (failsBefore 0) 0 "workflow_1700000000000_r0"
                 retryOrchestrator) = Returned res) as [res H3].
  { assert (match
              exec_completion
                (executeWorkflow (failsBefore 0) 0 "workflow_1700000000000_r0"
                   retryOrchestrator)
            with Returned _ => true | _ => false end = true) as Hb
      by (vm_compute; reflexivity).
    destruct (exec_completion _); [eauto|done|done]. }
  exists res. split; [exact H3|].
  destruct (result_map_collects_task_results (failsBefore 0) 0
              "workflow_1700000000000_r0" retryOrchestrator retryWorkflow res
              H1 H2 H3) as (wf' & Hwf' & Hres & _).
  exists wf'. split; [exact Hwf'|exact Hres].
Defined.

(** ** Witnesses for the properties of [executeWorkflow] proved above *)

Lemma chainOrchestrator_lookup :
  workflows chainOrchestrator !! "workflow_1700000000000_r0" = Some chainWorkflow.
Proof. by vm_compute. Qed.

Lemma chainWorkflow_NoDup : NoDup (taskIds (Workflow.tasks chainWorkflow)).
Proof. by apply (bool_decide_unpack _); vm_compute. Qed.

Lemma executeWorkflow_respects_dependencies_witness :
  workflows chainOrchestrator !! "workflow_1700000000000_r0" = Some chainWorkflow ∧
  NoDup (taskIds (Workflow.tasks chainWorkflow)) ∧
  chainBatch ∈ exec_batches chainRun ∧
  chainDependent ∈ chainBatch.2 ∧
  Task.id chainDependency ∈ Task.deps chainDependent ∧
  chainDependency ∈ chainBatch.1 ∧
  Task.status chainDependency = completed.
Proof.
  assert (chainBatch ∈ exec_batches chainRun) as Hb
    by (apply (list_elem_of_lookup_2 _ 1%nat); by vm_compute).
  assert (chainDependent ∈ chainBatch.2) as Hx
    by (apply (list_elem_of_lookup_2 _ 0%nat); by vm_compute).
  assert (Task.id chainDependency ∈ Task.deps chainDependent) as Hd
    by (vm_compute; by left).
  assert (chainDependency ∈ chainBatch.1) as Hy
    by (apply (list_elem_of_lookup_2 _ 0%nat); by vm_compute).
  split_and!;
    [apply chainOrchestrator_lookup|apply chainWorkflow_NoDup|done..|].
  exact (executeWorkflow_respects_dependencies (failsBefore 0) 0
           "workflow_1700000000000_r0" chainOrchestrator chainWorkflow
           chainOrchestrator_lookup chainWorkflow_NoDup
           chainBatch chainDependent (Task.id chainDependency) chainDependency
           Hb Hx Hd Hy eq_refl).
Defined.

Lemma executeWorkflow_touches_dispatched_only_witness :
  workflows cycleOrchestrator !! "workflow_1700000000000_r0" = Some cycleWorkflow ∧
  ∃ wf',
    workflows
      (exec_state
         (executeWorkflow (failsBefore 0) 0 "workflow_1700000000000_r0"
            cycleOrchestrator)) !! "workflow_1700000000000_r0" = Some wf' ∧
    Workflow.tasks wf' !! 1%nat = Some (cycleMember 1).
Proof.
  assert (workflows cycleOrchestrator !! "workflow_1700000000000_r0"
          = Some cycleWorkflow) as H1 by (by vm_compute).
  split; [done|].
  destruct (executeWorkflow_touches_dispatched_only (failsBefore 0) 0
              "workflow_1700000000000_r0" cycleOrchestrator cycleWorkflow H1)
    as (wf' & Hwf' & HF).
  exists wf'. split; [exact Hwf'|].
  assert (Workflow.tasks cycleWorkflow !! 1%nat = Some (cycleMember 1)) as Hx
    by (by vm_compute).
  destruct (Forall2_lookup_l _ _ _ _ _ HF Hx) as (x' & Hx' & Hsame).
  rewrite Hx'. f_equal. apply Hsame. intros b y Hb Hy.
  assert (exec_batches
            (executeWorkflow (failsBefore 0) 0 "workflow_1700000000000_r0"
               cycleOrchestrator)
          = [(cycleTasks, [cycleMember 0])]) as Hbatches by (by vm_compute).
  rewrite Hbatches in Hb. apply list_elem_of_singleton in Hb as ->.
  apply list_elem_of_singleton in Hy as ->. by vm_compute.
Defined.

Lemma completed_workflow_made_no_retry_witness :
  workflows chainOrchestrator !! "workflow_1700000000000_r0" = Some chainWorkflow ∧
  NoDup (taskIds (Workflow.tasks chainWorkflow)) ∧
  ∃ res wf',
    exec_completion chainRun = Returned res ∧
    workflows (exec_state chainRun) !! "workflow_1700000000000_r0" = Some wf' ∧
    Workflow.status wf' = completed.
Proof.
  split_and!; [apply chainOrchestrator_lookup|apply chainWorkflow_NoDup|].
  assert (∃ res, exec_completion chainRun = Returned res) as [res H3].
  { assert (match exec_completion chainRun with
            | Returned _ => true | _ => false end = true) as Hb
      by (vm_compute; reflexivity).
    destruct (exec_completion chainRun); [eauto|done|done]. }
  destruct (completed_workflow_made_no_retry (failsBefore 0) 0
              "workflow_1700000000000_r0" chainOrchestrator chainWorkflow res
              chainOrchestrator_lookup chainWorkflow_NoDup H3)
    as (wf' & Hwf' & Hst & _).
  exists res, wf'. split_and!; [exact H3|exact Hwf'|exact Hst].
Defined.

(** ** How a run ends *)



(** ** Building the task graph *)














(** ** The queue pass *)

Lemma NoDup_fst_inj {A B} (l : list (A * B)) e e' :
  NoDup l.*1 → e ∈ l → e' ∈ l → e.1 = e'.1 → e = e'.
Proof.
  induction l as [|a l IH]; intros Hnd He He' Heq.
  { by apply elem_of_nil in He. }
  rewrite fmap_cons in Hnd. apply NoDup_cons in Hnd as [Ha Hnd].
  apply elem_of_cons in He as [->|He], He' as [->|He'].
  - done.
  - exfalso. apply Ha. rewrite Heq. by apply list_elem_of_fmap_2.
  - exfalso. apply Ha. rewrite <-Heq. by apply list_elem_of_fmap_2.
  - by apply IH.
Qed.

Lemma StronglySorted_lookup_lt {A} (R : relation A) l i j a b :
  StronglySorted R l → l !! i = Some a → l !! j = Some b → (i < j)%nat → R a b.
Proof.
  intros Hs. revert i j. induction Hs as [|c l Hs IH Hall]; intros i j Hi Hj Hlt.
  { done. }
  destruct j as [|j]; [lia|]. simpl in Hj. destruct i as [|i].
  - simpl in Hi. injection Hi as ->. rewrite Forall_forall in Hall.
    apply Hall. by eapply list_elem_of_lookup_2.
  - simpl in Hi. apply (IH i j); [done|done|lia].
Qed.

Lemma pendingEntries_elem o e :
  e ∈ pendingEntries o ↔ e ∈ tasks o ∧ Task.status e.2 = pending.
Proof.
  unfold pendingEntries. rewrite sortDesc_Permutation.
  by rewrite list_elem_of_filter, (comm and).
Qed.

Lemma dispatched_elem o e :
  e ∈ dispatched o → e ∈ tasks o ∧ Task.status e.2 = pending.
Proof.
  intros He. apply pendingEntries_elem. unfold dispatched in He.
  apply elem_of_take in He as (i & Hi & _). by eapply list_elem_of_lookup_2.
Qed.

Lemma dispatched_key o e :
  NoDup (tasks o).*1 → e ∈ tasks o → e.1 ∈ (dispatched o).*1 ↔ e ∈ dispatched o.
Proof.
  intros Hnd He. split.
  - intros (e' & Heq & He')%list_elem_of_fmap.
    destruct (dispatched_elem o e' He') as [Hin _].
    by rewrite (NoDup_fst_inj (tasks o) e e' Hnd He Hin Heq).
  - apply list_elem_of_fmap_2.
Qed.

(** X9: one pass of [processTaskQueue] over a task map. Outside the
    autonomous mode it does nothing. In the autonomous mode it starts the
    first [min(pending, free slots)] pending tasks in priority order and no
    other: a started task was pending and is now [running] with [startedAt]
    stamped and its id in the running set, every other entry of the map is
    as it was, no task left waiting outweighs a started one, and the running
    set, which only grows, has at most [maxConcurrentTasks] members unless it
    had more before the pass. *)
Theorem queue_pass_admission (env : Env) (n : nat) (o : Orchestrator) :
  NoDup (tasks o).*1 →
  let o' := processTaskQueue env n o in
  (isAutonomousMode o = false → o' = o) ∧
  (isAutonomousMode o = true →
   Z.of_nat (length (dispatched o))
     = Z.max 0 (Z.min (Z.of_nat (length (pendingEntries o))) (availableSlots o)) ∧
   pendingEntries o = dispatched o ++ waiting o ∧
   (∀ e e', e ∈ dispatched o → e' ∈ waiting o →
      entryWeight e' ≤ entryWeight e) ∧
   (∀ i k x, tasks o !! i = Some (k, x) →
      ((k, x) ∈ dispatched o →
         tasks o' !! i = Some (k, executeTask_begin (dateNow env n) x)) ∧
      ((k, x) ∉ dispatched o → tasks o' !! i = Some (k, x))) ∧
   (∀ e, e ∈ dispatched o →
      e ∈ tasks o ∧ Task.status e.2 = pending ∧ Task.id e.2 ∈ runningTasks o') ∧
   runningTasks o ⊆ runningTasks o' ∧
   (∀ i, i ∈ runningTasks o' →
      i ∈ runningTasks o ∨ ∃ e, e ∈ dispatched o ∧ i = Task.id e.2) ∧
   Z.of_nat (size (runningTasks o'))
     ≤ Z.max (Z.of_nat (size (runningTasks o))) (maxConcurrentTasks o)).
Proof.
  intros Hnd. cbv zeta. unfold processTaskQueue. split.
  { by intros ->. }
  intros ->. cbn [tasks runningTasks set_runningTasks set_tasks].
  assert (length (dispatched o)
          = Z.to_nat (Z.min (Z.of_nat (length (pendingEntries o)))
                        (availableSlots o))) as Hlen.
  { unfold dispatched. rewrite length_take. lia. }
  split_and!.
  - lia.
  - unfold waiting, dispatched. rewrite length_take.
    rewrite <-(take_drop (Z.to_nat (Z.min (Z.of_nat (length (pendingEntries o)))
                                       (availableSlots o)))
                 (pendingEntries o)) at 1.
    f_equal. f_equal. lia.
  - intros e e' He He'.
    pose proof (sortDesc_sorted entryWeight
                  (filter (λ e, Task.status e.2 = pending) (tasks o))) as Hs.
    fold (pendingEntries o) in Hs.
    apply list_elem_of_lookup_1 in He as [i Hi], He' as [j Hj].
    unfold waiting in Hj. rewrite lookup_drop in Hj.
    unfold dispatched in Hi. apply lookup_take_Some in Hi as [Hi Hlt].
    fold (dispatched o) in Hj. rewrite Hlen in Hj.
    apply (StronglySorted_lookup_lt _ _ _ _ _ _ Hs Hi Hj). lia.
  - intros i k x Hi. rewrite list_lookup_fmap, Hi. simpl.
    pose proof (dispatched_key o (k, x) Hnd (list_elem_of_lookup_2 _ _ _ Hi))
      as Hkey. simpl in Hkey.
    split; intros Hd; [rewrite decide_True|rewrite decide_False]; tauto.
  - intros e He. destruct (dispatched_elem o e He) as [Hin Hp].
    split_and!; [done|done|]. apply elem_of_union_l, elem_of_list_to_set.
    apply list_elem_of_fmap_2. by apply list_elem_of_fmap_2.
  - set_solver.
  - intros i [Hi|Hi]%elem_of_union; [|by left]. right.
    apply elem_of_list_to_set in Hi.
    apply list_elem_of_fmap in Hi as (x & -> & Hx).
    apply list_elem_of_fmap in Hx as (e & -> & He). by exists e.
  - rewrite size_union_alt.
    pose proof (size_list_to_set_le (Task.id <$> (dispatched o).*2)) as H1.
    rewrite !length_fmap in H1.
    assert (size (runningTasks o ∖ list_to_set (Task.id <$> (dispatched o).*2))
            ≤ size (runningTasks o))%nat as H2
      by (apply subseteq_size; set_solver).
    unfold availableSlots in Hlen. lia.
Qed.

Lemma queue_pass_admission_witness :
  NoDup (tasks queueOrchestrator).*1 ∧
  Z.of_nat (size (runningTasks (processTaskQueue (failsBefore 0) 0 queueOrchestrator)))
    ≤ Z.max (Z.of_nat (size (runningTasks queueOrchestrator)))
        (maxConcurrentTasks queueOrchestrator).
Proof.
  assert (NoDup (tasks queueOrchestrator).*1) as Hnd
    by (by apply (bool_decide_unpack _); vm_compute).
  split; [exact Hnd|].
  destruct (queue_pass_admission (failsBefore 0) 0 queueOrchestrator Hnd)
    as [_ Hauto].
  destruct (Hauto eq_refl) as (_ & _ & _ & _ & _ & _ & _ & Hsize).
  exact Hsize.
Defined.

(** ** The self-healing sweep *)

Lemma startSelfHealing_tasks now o :
  tasks (startSelfHealing now o)
  = prod_map id (λ x, healStuck now (taskTimeout o) (healFailed x)) <$> tasks o.
Proof.
  unfold startSelfHealing. cbn [tasks set_runningTasks set_tasks].
  rewrite <-list_fmap_compose. apply list_fmap_ext. by intros i [k x] _.
Qed.

Lemma healStuck_not_stuck now cfg x : ¬ IsStuck now cfg (healStuck now cfg x).
Proof.
  unfold healStuck. case_decide as Hs; [|done]. by intros [Hr _].
Qed.

(** X10: one sweep of the self-healing callback at time [now]. Each entry of
    the task map keeps its key, and its task keeps its id and its result.
    A pending, completed or cancelled task is not touched. After the sweep no
    task is still running beyond its timeout, and a task that is failed with
    retries left is one the sweep has just timed out, every other having been
    put back to pending with one more retry counted. The running set only
    shrinks, and an id leaves it only for a task that was timed out. *)
Theorem self_healing_sweep (now : Z) (o : Orchestrator) :
  let o' := startSelfHealing now o in
  (∀ i k x, tasks o !! i = Some (k, x) →
     ∃ x', tasks o' !! i = Some (k, x') ∧
       Task.id x' = Task.id x ∧ Task.result x' = Task.result x ∧
       Task.maxRetries x' = Task.maxRetries x ∧
       (Task.status x ∈ [pending; completed; cancelled] → x' = x) ∧
       (Task.status x = failed → Task.retries x < Task.maxRetries x →
          Task.status x' = pending ∧ Task.retries x' = Task.retries x + 1 ∧
          Task.error x' = Task.error x) ∧
       (IsStuck now (taskTimeout o) x →
          Task.status x' = failed ∧ Task.error x' = Some timedOut ∧
          Task.retries x' = Task.retries x ∧ Task.id x ∉ runningTasks o') ∧
       ¬ IsStuck now (taskTimeout o) x' ∧
       (Task.status x' = failed → Task.retries x' < Task.maxRetries x' →
          Task.error x' = Some timedOut)) ∧
  length (tasks o') = length (tasks o) ∧
  runningTasks o' ⊆ runningTasks o ∧
  (∀ i, i ∈ runningTasks o → i ∉ runningTasks o' →
     ∃ e, e ∈ tasks o ∧ Task.id e.2 = i ∧ IsStuck now (taskTimeout o) e.2) ∧
  (maxConcurrentTasks o', taskTimeout o', workflows o', taskQueue o',
   isAutonomousMode o')
  = (maxConcurrentTasks o, taskTimeout o, workflows o, taskQueue o,
     isAutonomousMode o).
Proof.
  cbv zeta. split_and!.
  - intros i k x Hi. eexists. split.
    { rewrite startSelfHealing_tasks, list_lookup_fmap, Hi. reflexivity. }
    cbn [prod_map fst snd id].
    assert (healFailed x = x ∨
            (Task.status x = failed ∧ Task.retries x < Task.maxRetries x ∧
             healFailed x
             = Task.set_retries (Task.retries x + 1) (Task.set_status pending x)))
      as Hf.
    { unfold healFailed. case_decide; [right|left]; tauto. }
    split_and!.
    + unfold healStuck, healFailed. by repeat case_decide.
    + unfold healStuck, healFailed. by repeat case_decide.
    + unfold healStuck, healFailed. by repeat case_decide.
    + intros Hst.
      assert (Task.status x ≠ failed ∧ Task.status x ≠ running) as [Hnf Hnr].
      { rewrite !elem_of_cons in Hst.
        destruct Hst as [->|[->|[->|Hst]]]; [done..|by apply elem_of_nil in Hst]. }
      unfold healFailed. rewrite decide_False by tauto.
      unfold healStuck. rewrite decide_False; [done|]. by intros [? _].
    + intros Hfl Hlt. unfold healFailed. rewrite decide_True by done.
      unfold healStuck, IsStuck. by rewrite decide_False by (by intros [? _]).
    + intros Hs. assert (healFailed x = x) as ->.
      { unfold healFailed. destruct Hs as [Hr _].
        rewrite decide_False; [done|]. rewrite Hr. by intros [? _]. }
      unfold healStuck. rewrite decide_True by done. split_and!; [done..|].
      unfold startSelfHealing. cbn [runningTasks set_runningTasks set_tasks].
      apply not_elem_of_difference. right. apply elem_of_list_to_set.
      apply list_elem_of_fmap. exists x. split; [done|].
      apply list_elem_of_filter. split; [done|].
      apply list_elem_of_fmap. exists (k, x). split; [done|].
      apply list_elem_of_fmap. exists (k, x). split.
      * simpl. f_equal. unfold healFailed. destruct Hs as [Hr _].
        rewrite decide_False; [done|]. rewrite Hr. by intros [? _].
      * by eapply list_elem_of_lookup_2.
    + apply healStuck_not_stuck.
    + unfold healStuck. case_decide as Hs; [done|]. intros Hfl Hlt.
      destruct Hf as [Heq|(_ & _ & Heq)]; rewrite Heq in Hfl, Hlt.
      * exfalso. unfold healFailed in Heq. rewrite decide_True in Heq by done.
        apply (f_equal Task.status) in Heq. simpl in Heq. congruence.
      * done.
  - by rewrite startSelfHealing_tasks, length_fmap.
  - unfold startSelfHealing. cbn [runningTasks set_runningTasks set_tasks].
    set_solver.
  - intros i Hin Hout. unfold startSelfHealing in Hout.
    cbn [runningTasks set_runningTasks set_tasks] in Hout.
    apply not_elem_of_difference in Hout as [Hout|Hout]; [done|].
    apply elem_of_list_to_set, list_elem_of_fmap in Hout as (y & -> & Hy).
    apply list_elem_of_filter in Hy as [Hs Hy].
    apply list_elem_of_fmap in Hy as (e' & -> & He').
    apply list_elem_of_fmap in He' as ([k x] & -> & He).
    simpl in *. exists (k, x). simpl.
    assert (healFailed x = x) as Heq.
    { unfold healFailed in *. case_decide as Hd; [|done].
      by destruct Hs as [Hr _]. }
    rewrite Heq in *. by split_and!.
  - done.
Qed.

(** X11: timing a task out does not cancel its run. Take a task of the task
    map that the sweep at [now] finds running beyond its timeout. If its
    collaborator call fulfils afterwards, the task ends [completed] with the
    result set and the error [Task timed out] still on it. If instead the
    next sweep comes first and the task has retries left, that sweep puts it
    back to [pending] with one more retry counted, the error and the old
    [startedAt] still on it. *)
Theorem timed_out_task_is_not_cancelled (now now' t : Z) (v : Json)
    (o : Orchestrator) (i : nat) (k : string) (x : Task.t) :
  tasks o !! i = Some (k, x) →
  IsStuck now (taskTimeout o) x →
  let o1 := startSelfHealing now o in
  (∃ x1, tasks (taskSettled t k (Fulfilled v) o1) !! i = Some (k, x1) ∧
     Task.status x1 = completed ∧ Task.result x1 = Some v ∧
     Task.completedAt x1 = Some t ∧ Task.error x1 = Some timedOut ∧
     Task.retries x1 = Task.retries x) ∧
  (Task.retries x < Task.maxRetries x →
   ∃ x2, tasks (startSelfHealing now' o1) !! i = Some (k, x2) ∧
     Task.status x2 = pending ∧ Task.retries x2 = Task.retries x + 1 ∧
     Task.error x2 = Some timedOut ∧ Task.startedAt x2 = Task.startedAt x ∧
     Task.result x2 = Task.result x).
Proof.
  intros Hi Hs. cbv zeta.
  assert (tasks (startSelfHealing now o) !! i
          = Some (k, Task.set_error (Some timedOut) (Task.set_status failed x)))
    as Hi1.
  { rewrite startSelfHealing_tasks, list_lookup_fmap, Hi. simpl.
    assert (healFailed x = x) as ->.
    { unfold healFailed. destruct Hs as [Hr _].
      rewrite decide_False; [done|]. rewrite Hr. by intros [? _]. }
    unfold healStuck. by rewrite decide_True by done. }
  split.
  - eexists. split.
    { unfold taskSettled. cbn [tasks set_runningTasks set_tasks].
      rewrite list_lookup_fmap, Hi1. simpl. rewrite decide_True by done.
      reflexivity. }
    by simpl.
  - intros Hlt. eexists. split.
    { rewrite startSelfHealing_tasks, list_lookup_fmap, Hi1. simpl.
      unfold healFailed at 1. rewrite decide_True by done.
      unfold healStuck. rewrite decide_False by (by intros [? _]).
      reflexivity. }
    by simpl.
Qed.

Lemma timed_out_task_is_not_cancelled_witness :
  ∃ x1,
    tasks (taskSettled 1700000400005 "task_ai_1700000000001_s"
             (Fulfilled (JStr "late"))
             (startSelfHealing 1700000400000 stuckOrchestrator)) !! 0%nat
    = Some ("task_ai_1700000000001_s", x1) ∧
    Task.status x1 = completed ∧ Task.error x1 = Some timedOut.
Proof.
  assert (IsStuck 1700000400000 (taskTimeout stuckOrchestrator) stuckTask) as Hs
    by (by apply (bool_decide_unpack _); vm_compute).
  destruct (timed_out_task_is_not_cancelled 1700000400000 1700000430000
              1700000400005 (JStr "late") stuckOrchestrator 0
              "task_ai_1700000000001_s" stuckTask eq_refl Hs)
    as [(x1 & Hx1 & Hst & _ & _ & Herr & _) _].
  exists x1. split_and!; [exact Hx1|exact Hst|exact Herr].
Defined.

(** ** A request from end to end *)



(** * Properties of the monitoring service *)

(** ** Slices *)

Lemma slice_last {A} (k : Z) (l : list A) :
  0 < k → slice (- k) None l = lastN (Z.to_nat k) l.
Proof.
  intros Hk. unfold slice, sliceIndex, lastN.
  rewrite decide_True by lia.
  rewrite take_ge by (rewrite length_drop; lia). f_equal. lia.
Qed.

Lemma slice_all {A} (l : list A) : slice (- 0) None l = l.
Proof.
  unfold slice, sliceIndex. change (- 0) with 0.
  destruct (decide (0 < 0)) as [|_]; [lia|].
  replace (Z.to_nat (0 `min` Z.of_nat (length l))) with 0%nat by lia.
  rewrite drop_0. apply take_ge. lia.
Qed.

Lemma slice_skip {A} (k : Z) (l : list A) :
  k < 0 → slice (- k) None l = drop (Z.to_nat (- k)) l.
Proof.
  intros Hk. unfold slice, sliceIndex. rewrite decide_False by lia.
  destruct (decide (Z.to_nat (- k) ≤ length l)%nat).
  - rewrite take_ge by (rewrite length_drop; lia). f_equal. lia.
  - rewrite (drop_ge l (Z.to_nat (- k))) by lia.
    rewrite drop_ge by lia. by rewrite take_nil.
Qed.

Lemma slice_first {A} (k : Z) (l : list A) :
  0 ≤ k → slice 0 (Some k) l = take (Z.to_nat k) l.
Proof.
  intros Hk. unfold slice, sliceIndex. rewrite !decide_False by lia.
  replace (Z.to_nat (0 `min` Z.of_nat (length l))) with 0%nat by lia.
  rewrite drop_0. destruct (decide (Z.to_nat k ≤ length l)%nat).
  - f_equal. lia.
  - rewrite !take_ge; [done|lia|lia].
Qed.

Lemma slice_drop_last {A} (k : Z) (l : list A) :
  k < 0 → slice 0 (Some k) l = take (length l - Z.to_nat (- k)) l.
Proof.
  intros Hk. unfold slice, sliceIndex.
  destruct (decide (0 < 0)) as [|_]; [lia|].
  destruct (decide (k < 0)) as [_|]; [|lia].
  replace (Z.to_nat (0 `min` Z.of_nat (length l))) with 0%nat by lia.
  rewrite drop_0. f_equal. lia.
Qed.

Lemma lastN_length {A} (k : nat) (l : list A) :
  length (lastN k l) = (length l `min` k)%nat.
Proof. unfold lastN. rewrite length_drop. lia. Qed.

Lemma lastN_suffix {A} (k : nat) (l : list A) : lastN k l `suffix_of` l.
Proof. apply suffix_drop. Qed.

Lemma lastN_ge {A} (k : nat) (l : list A) :
  (length l ≤ k)%nat → lastN k l = l.
Proof.
  intros Hle. unfold lastN. by replace (length l - k)%nat with 0%nat by lia.
Qed.

Lemma lastN_app_lastN {A} (k : nat) (l r : list A) :
  lastN k (lastN k l ++ r) = lastN k (l ++ r).
Proof.
  destruct (decide (length l ≤ k)%nat) as [Hle|Hgt].
  { by rewrite (lastN_ge k l). }
  unfold lastN. rewrite !length_app, length_drop.
  replace (length l - (length l - k) + length r - k)%nat with (length r) by lia.
  replace (length l + length r - k)%nat
    with ((length l - k) + length r)%nat by lia.
  rewrite <-drop_drop. by rewrite (drop_app_le l r) by lia.
Qed.

Lemma lastN_snoc {A} (k : nat) (l : list A) (x : A) :
  (0 < k)%nat → last (lastN k (l ++ [x])) = Some x.
Proof.
  intros Hk. unfold lastN. rewrite length_app. simpl.
  rewrite drop_app_le by lia. apply last_snoc.
Qed.

Lemma pushCapped_lastN {A} (cap : Z) (x : A) (a : list A) :
  0 < cap → Monitoring.pushCapped cap x a = lastN (Z.to_nat cap) (a ++ [x]).
Proof.
  intros Hcap. unfold Monitoring.pushCapped. case_decide as Hlen.
  - by apply slice_last.
  - symmetry. apply lastN_ge. lia.
Qed.

(** ** Recording metrics *)

Lemma recordMetrics_frame sys n inputs s :
  let s' := (Monitoring.recordMetrics sys n inputs s).1 in
  (Monitoring.recordMetrics sys n inputs s).2 = (n + 2 * length inputs)%nat ∧
  Monitoring.logs s' = Monitoring.logs s ∧
  Monitoring.alerts s' = Monitoring.alerts s ∧
  Monitoring.healthChecks s' = Monitoring.healthChecks s ∧
  (Monitoring.metricsRetention s', Monitoring.logsRetention s',
   Monitoring.alertsRetention s')
  = (Monitoring.metricsRetention s, Monitoring.logsRetention s,
     Monitoring.alertsRetention s).
Proof.
  revert n s. induction inputs as [|i rest IH]; intros n s; simpl.
  { split_and!; [lia|done..]. }
  destruct (IH (S (S n))
              (Monitoring.set_metrics
                 (Monitoring.pushCapped 10000
                    (Monitoring.newMetric sys n (Monitoring.in_name i)
                       (Monitoring.in_value i) (Monitoring.in_tags i)
                       (Monitoring.in_type i)) (Monitoring.metrics s)) s))
    as (-> & -> & -> & -> & ->).
  split_and!; [lia|done..].
Qed.

Lemma recordMetrics_metrics sys n inputs s :
  inputs ≠ [] →
  Monitoring.metrics (Monitoring.recordMetrics sys n inputs s).1
  = lastN (Z.to_nat 10000)
      (Monitoring.metrics s ++ Monitoring.newMetrics sys n inputs).
Proof.
  revert n s. induction inputs as [|i rest IH]; intros n s Hne; [done|].
  simpl. destruct rest as [|j rest].
  - simpl. by rewrite pushCapped_lastN.
  - rewrite IH by done. cbn [Monitoring.metrics Monitoring.set_metrics].
    rewrite pushCapped_lastN by done.
    rewrite lastN_app_lastN. by rewrite <-(assoc_L (++)).
Qed.

(** X13: the metric store after a run of [recordMetric] calls. It holds, in
    the order of recording, the last 10000 of the metrics it held before
    followed by the metrics just recorded: never more than 10000, the
    metric recorded last always among them. The logs, the alerts and the
    health checks are not touched. *)
Theorem metric_store_keeps_the_latest (sys : Monitoring.Sys) (n : nat)
    (inputs : list Monitoring.MetricInput) (s : Monitoring.Service) :
  inputs ≠ [] →
  let s' := (Monitoring.recordMetrics sys n inputs s).1 in
  Monitoring.metrics s'
    = lastN (Z.to_nat 10000)
        (Monitoring.metrics s ++ Monitoring.newMetrics sys n inputs) ∧
  Z.of_nat (length (Monitoring.metrics s')) ≤ 10000 ∧
  last (Monitoring.metrics s') = last (Monitoring.newMetrics sys n inputs) ∧
  (Z.of_nat (length (Monitoring.metrics s) + length inputs) ≤ 10000 →
   Monitoring.metrics s'
     = Monitoring.metrics s ++ Monitoring.newMetrics sys n inputs) ∧
  (Monitoring.logs s', Monitoring.alerts s', Monitoring.healthChecks s')
  = (Monitoring.logs s, Monitoring.alerts s, Monitoring.healthChecks s).
Proof.
  intros Hne. cbv zeta.
  assert (length (Monitoring.newMetrics sys n inputs) = length inputs) as Hlen.
  { clear. revert n. induction inputs as [|i rest IH]; intros n; [done|].
    simpl. by rewrite IH. }
  rewrite recordMetrics_metrics by done. split_and!.
  - done.
  - rewrite lastN_length. lia.
  - destruct (Monitoring.newMetrics sys n inputs) as [|m ms] eqn:Hnew
      using rev_ind.
    { destruct inputs; [done|discriminate]. }
    rewrite (assoc_L (++)), lastN_snoc by lia. by rewrite last_snoc.
  - intros Hfit. apply lastN_ge. rewrite length_app. lia.
  - by destruct (recordMetrics_frame sys n inputs s) as (_ & -> & -> & -> & _).
Qed.

Lemma metric_store_keeps_the_latest_witness :
  length
    (Monitoring.metrics
       (Monitoring.recordMetrics Monitoring.ticking 0
          [Monitoring.mkMetricInput "cpu" 1 ∅ Monitoring.gauge;
           Monitoring.mkMetricInput "cpu" 2 ∅ Monitoring.gauge]
          (Monitoring.constructor None None None)).1) = 2%nat.
Proof.
  destruct (metric_store_keeps_the_latest Monitoring.ticking 0
              [Monitoring.mkMetricInput "cpu" 1 ∅ Monitoring.gauge;
               Monitoring.mkMetricInput "cpu" 2 ∅ Monitoring.gauge]
              (Monitoring.constructor None None None))
    as (_ & _ & _ & Hfit & _); [done|].
  rewrite Hfit; [reflexivity|simpl; lia].
Defined.

(** ** Alerts *)

Lemma updateFirstOf_spec {A} (p : A → bool) (f : A → A) (l : list A) :
  match List.find p l with
  | None => Forall (λ x, p x = false) l
  | Some a =>
      ∃ i, l !! i = Some a ∧ p a = true ∧
           (∀ j b, (j < i)%nat → l !! j = Some b → p b = false) ∧
           updateFirstOf p f l = <[i := f a]> l
  end.
Proof.
  induction l as [|x l IH]; simpl; [constructor|].
  destruct (p x) eqn:Hpx.
  - exists 0%nat. split_and!; [done|done| |done]. intros j b Hj. lia.
  - destruct (List.find p l) as [a|].
    + destruct IH as (i & Hi & Hpa & Hbefore & Hupd).
      exists (S i). split_and!; [done|done| |by rewrite Hupd].
      intros [|j] b Hj Hb; [by injection Hb as <-|].
      apply (Hbefore j); [lia|done].
    + by constructor.
Qed.

(** X14: [resolveAlert] answers [false] exactly when no stored alert carries
    the id, and then changes nothing. Otherwise it marks the first alert
    with that id, and only that one, as resolved at the current time,
    whether or not it was resolved before, and appends one [info] entry to
    the logs. *)
Theorem resolveAlert_marks_the_first_match (sys : Monitoring.Sys) (n : nat)
    (alertId : string) (s : Monitoring.Service) :
  let r := Monitoring.resolveAlert sys n alertId s in
  (r.2 = false ↔ alertId ∉ Monitoring.Alert.id <$> Monitoring.alerts s) ∧
  (r.2 = false → r.1 = (s, n)) ∧
  (r.2 = true →
   ∃ i a,
     Monitoring.alerts s !! i = Some a ∧ Monitoring.Alert.id a = alertId ∧
     (∀ j b, (j < i)%nat → Monitoring.alerts s !! j = Some b →
        Monitoring.Alert.id b ≠ alertId) ∧
     Monitoring.alerts r.1.1
       = <[i := Monitoring.Alert.resolve (Monitoring.clock sys n) a]>
           (Monitoring.alerts s) ∧
     Monitoring.logs r.1.1
       = lastN (Z.to_nat 50000)
           (Monitoring.logs s ++
              [Monitoring.newLog sys (S n) Monitoring.info
                 ("Alert resolved: " +:+ Monitoring.Alert.message a)
                 (Monitoring.Alert.service a)
                 (Some (JObj [("alertId", JStr alertId)])) None None]) ∧
     (Monitoring.metrics r.1.1, Monitoring.healthChecks r.1.1)
     = (Monitoring.metrics s, Monitoring.healthChecks s) ∧
     r.1.2 = S (S (S n))).
Proof.
  cbv zeta. unfold Monitoring.resolveAlert.
  pose proof (updateFirstOf_spec (Monitoring.hasAlertId alertId)
                (Monitoring.Alert.resolve (Monitoring.clock sys n))
                (Monitoring.alerts s)) as Hspec.
  destruct (List.find (Monitoring.hasAlertId alertId) (Monitoring.alerts s))
    as [a|].
  - destruct Hspec as (i & Hi & Hpa & Hbefore & Hupd).
    apply bool_decide_eq_true in Hpa. simpl. split_and!.
    + split; [done|]. intros Hnot. exfalso. apply Hnot. rewrite <-Hpa.
      apply list_elem_of_fmap_2. by eapply list_elem_of_lookup_2.
    + done.
    + intros _. exists i, a. split_and!; [done|done| | | |done|done].
      * intros j b Hj Hb. specialize (Hbefore j b Hj Hb).
        by apply bool_decide_eq_false in Hbefore.
      * by rewrite Hupd.
      * by rewrite pushCapped_lastN.
  - simpl. split_and!; [|done|done]. split; [|done]. intros _.
    intros (b & Hid & Hb)%list_elem_of_fmap. rewrite Forall_forall in Hspec.
    specialize (Hspec b Hb). apply bool_decide_eq_false in Hspec. congruence.
Qed.

(** ** Health checks *)

Lemma filter_all {A} (P : A → Prop) `{!∀ x, Decision (P x)} (l : list A) :
  Forall P l → filter P l = l.
Proof.
  induction 1 as [|x l Hx _ IH]; [done|].
  by rewrite filter_cons, decide_True, IH.
Qed.

Lemma filter_none {A} (P : A → Prop) `{!∀ x, Decision (P x)} (l : list A) :
  Forall (λ x, ¬ P x) l → filter P l = [].
Proof.
  induction 1 as [|x l Hx _ IH]; [done|].
  by rewrite filter_cons, decide_False, IH.
Qed.

Lemma Forall_filter_self {A} (P : A → Prop) `{!∀ x, Decision (P x)} (l : list A) :
  Forall P (filter P l).
Proof. apply Forall_forall. by intros x [? _]%list_elem_of_filter. Qed.

Lemma Forall_lastN {A} (P : A → Prop) (k : nat) (l : list A) :
  Forall P l → Forall P (lastN k l).
Proof. intros Hl. unfold lastN. by apply Forall_drop. Qed.

Lemma pushCheck_spec check hcs :
  let P := Monitoring.ofService (Monitoring.HealthCheck.service check) in
  filter P (Monitoring.pushCheck check hcs)
    = lastN (Z.to_nat 1000) (filter P hcs ++ [check]) ∧
  filter (λ hc, ¬ P hc) (Monitoring.pushCheck check hcs)
    = filter (λ hc, ¬ P hc) hcs ∧
  last (Monitoring.pushCheck check hcs) = Some check.
Proof.
  cbv zeta. unfold Monitoring.pushCheck.
  set (P := Monitoring.ofService (Monitoring.HealthCheck.service check)).
  assert (filter P (hcs ++ [check]) = filter P hcs ++ [check]) as HP.
  { rewrite filter_app. f_equal. rewrite filter_cons, decide_True; done. }
  assert (filter (λ hc, ¬ P hc) (hcs ++ [check]) = filter (λ hc, ¬ P hc) hcs)
    as HnP.
  { rewrite filter_app, filter_cons, decide_False, filter_nil.
    - apply app_nil_r.
    - by intros H; apply H. }
  rewrite HP, HnP. case_decide as Hlen.
  - change (-1000) with (Z.opp 1000). rewrite slice_last by lia. split_and!.
    + rewrite filter_app.
      rewrite (filter_none P (filter (λ hc, ¬ P hc) hcs))
        by apply Forall_filter_self.
      simpl. apply filter_all, Forall_lastN. rewrite <-HP.
      apply Forall_filter_self.
    + rewrite filter_app.
      rewrite (filter_all (λ hc, ¬ P hc) (filter (λ hc, ¬ P hc) hcs))
        by apply Forall_filter_self.
      rewrite (filter_none (λ hc, ¬ P hc)
                 (lastN (Z.to_nat 1000) (filter P hcs ++ [check])));
        [apply app_nil_r|].
      apply Forall_lastN. rewrite <-HP.
      eapply Forall_impl; [apply (Forall_filter_self P)|]. tauto.
    + by rewrite last_app, lastN_snoc by lia.
  - split_and!; [|done|apply last_snoc].
    rewrite HP. symmetry. apply lastN_ge. lia.
Qed.

(** X15: [recordHealthCheck] on a check of service [svc]. Afterwards the
    stored checks of [svc] are the last 1000 of those stored before followed
    by the new one, which is the last element of the array; the checks of
    every other service are kept, in their order. One [health_check] metric
    is recorded, with value 1 for a healthy check and 0 otherwise. An
    unhealthy check, and no other, raises one alert of severity [high] that
    carries the check as metadata; a check that is not unhealthy leaves
    alerts and logs as they are. *)
Theorem recordHealthCheck_effects (sys : Monitoring.Sys) (n : nat)
    (healthCheck : Monitoring.CheckInput) (s : Monitoring.Service) :
  let s' := (Monitoring.recordHealthCheck sys n healthCheck s).1 in
  let check := Monitoring.newCheck sys n healthCheck in
  let P := Monitoring.ofService (Monitoring.check_service healthCheck) in
  filter P (Monitoring.healthChecks s')
    = lastN (Z.to_nat 1000) (filter P (Monitoring.healthChecks s) ++ [check]) ∧
  Z.of_nat (length (filter P (Monitoring.healthChecks s'))) ≤ 1000 ∧
  filter (λ hc, ¬ P hc) (Monitoring.healthChecks s')
    = filter (λ hc, ¬ P hc) (Monitoring.healthChecks s) ∧
  last (Monitoring.healthChecks s') = Some check ∧
  (∃ m, Monitoring.metrics s'
        = lastN (Z.to_nat 10000) (Monitoring.metrics s ++ [m]) ∧
        Monitoring.Metric.name m = "health_check" ∧
        Monitoring.Metric.type m = Monitoring.gauge ∧
        Monitoring.Metric.value m
        = (if decide (Monitoring.check_status healthCheck = Monitoring.healthy)
           then 1 else 0) ∧
        Monitoring.Metric.tags m !! "service"
        = Some (Monitoring.check_service healthCheck)) ∧
  (Monitoring.check_status healthCheck = Monitoring.unhealthy →
   ∃ a, Monitoring.alerts s' = Monitoring.alerts s ++ [a] ∧
        Monitoring.Alert.type a = "health_check_failed" ∧
        Monitoring.Alert.severity a = Monitoring.high ∧
        Monitoring.Alert.resolved a = false ∧
        Monitoring.Alert.service a = Monitoring.check_service healthCheck ∧
        Monitoring.Alert.message a
        = Monitoring.check_service healthCheck +:+ " health check failed: "
            +:+ Monitoring.errorOrUnknown (Monitoring.check_error healthCheck) ∧
        Monitoring.Alert.metadata a = Some (Monitoring.MetaCheck check) ∧
        ∃ l, Monitoring.logs s'
             = lastN (Z.to_nat 50000) (Monitoring.logs s ++ [l]) ∧
             Monitoring.LogEntry.level l = Monitoring.warn ∧
             Monitoring.LogEntry.message l
             = "Alert: " +:+ Monitoring.Alert.message a) ∧
  (Monitoring.check_status healthCheck ≠ Monitoring.unhealthy →
   Monitoring.alerts s' = Monitoring.alerts s ∧
   Monitoring.logs s' = Monitoring.logs s).
Proof.
  cbv zeta.
  destruct (pushCheck_spec (Monitoring.newCheck sys n healthCheck)
              (Monitoring.healthChecks s)) as (HP & HnP & Hlast).
  cbn [Monitoring.newCheck Monitoring.HealthCheck.service] in HP, HnP.
  assert (Monitoring.healthChecks
            (Monitoring.recordHealthCheck sys n healthCheck s).1
          = Monitoring.pushCheck (Monitoring.newCheck sys n healthCheck)
              (Monitoring.healthChecks s)) as Hhc.
  { unfold Monitoring.recordHealthCheck, Monitoring.recordMetric.
    by case_decide. }
  rewrite Hhc. split_and!.
  - exact HP.
  - rewrite HP, lastN_length. lia.
  - exact HnP.
  - exact Hlast.
  - eexists. split.
    + unfold Monitoring.recordHealthCheck, Monitoring.recordMetric.
      rewrite pushCapped_lastN by done. case_decide; reflexivity.
    + simpl. split_and!; [done|done|done|].
      rewrite lookup_insert_eq. done.
  - intros Hun. eexists. split.
    + unfold Monitoring.recordHealthCheck, Monitoring.recordMetric.
      cbn [Monitoring.newCheck Monitoring.HealthCheck.status].
      rewrite (decide_True (P := Monitoring.check_status healthCheck
                                 = Monitoring.unhealthy)) by done.
      reflexivity.
    + simpl. split_and!; try done. eexists. split.
      * unfold Monitoring.recordHealthCheck, Monitoring.recordMetric.
        cbn [Monitoring.newCheck Monitoring.HealthCheck.status].
        rewrite (decide_True (P := Monitoring.check_status healthCheck
                                   = Monitoring.unhealthy)) by done.
        unfold Monitoring.recordAlert, Monitoring.log.
        cbn [fst Monitoring.logs Monitoring.set_logs Monitoring.set_alerts
             Monitoring.set_metrics].
        rewrite pushCapped_lastN by done. reflexivity.
      * done.
  - intros Hok. unfold Monitoring.recordHealthCheck, Monitoring.recordMetric.
    cbn [Monitoring.newCheck Monitoring.HealthCheck.status].
    by rewrite (decide_False (P := Monitoring.check_status healthCheck
                                   = Monitoring.unhealthy)) by done.
Qed.

(** ** Reading the arrays *)

Section Newest.
Context {A : Type} (weight : A → Z).

(** The first [k] elements of a sorted array and the rest: nothing in the
    rest outweighs anything in front. *)
Lemma newest_first (k : Z) (l : list A) :
  let r := slice 0 (Some k) (sortDesc weight l) in
  StronglySorted (λ x y, weight y ≤ weight x) r ∧
  (0 ≤ k → Z.of_nat (length r) = Z.min k (Z.of_nat (length l))) ∧
  ∃ rest, sortDesc weight l = r ++ rest ∧ l ≡ₚ r ++ rest ∧
          ∀ x y, x ∈ r → y ∈ rest → weight y ≤ weight x.
Proof.
  cbv zeta.
  assert (∃ j, slice 0 (Some k) (sortDesc weight l)
               = take j (sortDesc weight l) ∧
               (0 ≤ k → j = Z.to_nat k)) as (j & -> & Hj).
  { destruct (decide (0 ≤ k)).
    - exists (Z.to_nat k). by rewrite slice_first.
    - eexists. rewrite slice_drop_last by lia. split; [done|lia]. }
  pose proof (sortDesc_sorted weight l) as Hs.
  pose proof (sortDesc_Permutation weight l) as Hp.
  rewrite <-(take_drop j (sortDesc weight l)) in Hs, Hp.
  split_and!.
  - by apply StronglySorted_app_1_l in Hs.
  - intros Hk. rewrite (Hj Hk), length_take.
    rewrite (Permutation_length (sortDesc_Permutation weight l)). lia.
  - exists (drop j (sortDesc weight l)). split_and!.
    + by rewrite take_drop.
    + done.
    + intros x y Hx Hy.
      apply (StronglySorted_app_1_elem_of _ _ _ x y Hs Hx Hy).
Qed.
End Newest.

Lemma selectMetrics_elem name tags l m :
  m ∈ Monitoring.selectMetrics name tags l ↔
  m ∈ l ∧
  (truthyString name = true → Some (Monitoring.Metric.name m) = name) ∧
  (∀ wanted, tags = Some wanted → Monitoring.hasTags wanted m).
Proof.
  unfold Monitoring.selectMetrics.
  destruct tags as [wanted|], (truthyString name);
    rewrite ?list_elem_of_filter; split.
  - intros (Ht & Hn & Hm). split_and!; [done|done|]. by intros ? [= <-].
  - intros (Hm & Hn & Ht). split_and!; [by apply Ht|by apply Hn|done].
  - intros (Ht & Hm). split_and!; [done|done|]. by intros ? [= <-].
  - intros (Hm & _ & Ht). split; [by apply Ht|done].
  - intros (Hn & Hm). by split_and!.
  - intros (Hm & Hn & _). split; [by apply Hn|done].
  - intros Hm. by split_and!.
  - by intros (Hm & _).
Qed.

(** X16: what [getMetrics] returns. The metrics that pass the name filter
    (applied only for a non-empty name) and the tag filter, sorted by
    descending timestamp and cut after [limit] (1000 by default): the
    returned metrics and the ones left out make up the matching metrics, and
    none left out is more recent than any returned. A call with a name or
    with tags leaves the service as it is. *)
Theorem getMetrics_returns_the_newest (name : option string)
    (tags : option (gmap string string)) (limit : option Z)
    (s : Monitoring.Service) :
  let r := Monitoring.getMetrics name tags limit s in
  StronglySorted
    (λ a b, Monitoring.Metric.timestamp b ≤ Monitoring.Metric.timestamp a)
    r.2 ∧
  (∀ m, m ∈ r.2 →
     m ∈ Monitoring.metrics s ∧
     (truthyString name = true → Some (Monitoring.Metric.name m) = name) ∧
     (∀ wanted, tags = Some wanted → Monitoring.hasTags wanted m)) ∧
  (0 ≤ default 1000 limit →
   Z.of_nat (length r.2)
   = Z.min (default 1000 limit)
       (Z.of_nat
          (length (Monitoring.selectMetrics name tags (Monitoring.metrics s))))) ∧
  (∃ rest,
     Monitoring.selectMetrics name tags (Monitoring.metrics s) ≡ₚ r.2 ++ rest ∧
     ∀ x y, x ∈ r.2 → y ∈ rest →
       Monitoring.Metric.timestamp y ≤ Monitoring.Metric.timestamp x) ∧
  (truthyString name = true ∨ is_Some tags → r.1 = s).
Proof.
  cbv zeta. unfold Monitoring.getMetrics. cbn [fst snd].
  destruct (newest_first Monitoring.Metric.timestamp (default 1000 limit)
              (Monitoring.selectMetrics name tags (Monitoring.metrics s)))
    as (Hs & Hlen & rest & Hsplit & Hperm & Hnew).
  split_and!.
  - done.
  - intros m Hm. apply selectMetrics_elem. rewrite Hperm.
    apply elem_of_app. by left.
  - done.
  - by exists rest.
  - intros [->|[w ->]]; [done|]. by destruct (truthyString name).
Qed.

(** X17: [getMetrics] without a name and without tags sorts the array of the
    service itself, most recent first, and [recordMetric] trims that array
    from the front. On a store at capacity, the metric that the next
    [recordMetric] drops is then one with the greatest timestamp of all,
    where without the read it is the metric recorded first. *)
Theorem unfiltered_read_turns_eviction_around (sys : Monitoring.Sys) (n : nat)
    (limit : option Z) (name : string) (value : Z)
    (tags : gmap string string) (type : Monitoring.MetricType)
    (s : Monitoring.Service) :
  Z.of_nat (length (Monitoring.metrics s)) = 10000 →
  let new := Monitoring.newMetric sys n name value tags type in
  let s1 := (Monitoring.getMetrics None None limit s).1 in
  Monitoring.metrics s1
    = sortDesc Monitoring.Metric.timestamp (Monitoring.metrics s) ∧
  (∃ evicted kept,
     Monitoring.metrics s ≡ₚ evicted :: kept ∧
     (∀ m, m ∈ Monitoring.metrics s →
        Monitoring.Metric.timestamp m ≤ Monitoring.Metric.timestamp evicted) ∧
     Monitoring.metrics
       (Monitoring.recordMetric sys n name value tags type s1).1
     = kept ++ [new]) ∧
  Monitoring.metrics (Monitoring.recordMetric sys n name value tags type s).1
    = drop 1 (Monitoring.metrics s) ++ [new].
Proof.
  intros Hfull. cbv zeta.
  assert (∀ l : list Monitoring.Metric.t, Z.of_nat (length l) = 10000 →
            Monitoring.pushCapped 10000
              (Monitoring.newMetric sys n name value tags type) l
            = drop 1 l
              ++ [Monitoring.newMetric sys n name value tags type]) as Hpush.
  { intros l Hl. rewrite pushCapped_lastN by done. unfold lastN.
    rewrite length_app. simpl.
    replace (length l + 1 - Z.to_nat 10000)%nat with 1%nat by lia.
    apply drop_app_le. lia. }
  split_and!.
  - done.
  - pose proof (sortDesc_sorted Monitoring.Metric.timestamp
                  (Monitoring.metrics s)) as Hs.
    pose proof (sortDesc_Permutation Monitoring.Metric.timestamp
                  (Monitoring.metrics s)) as Hp.
    unfold Monitoring.getMetrics, Monitoring.recordMetric.
    cbn [fst truthyString Monitoring.selectMetrics Monitoring.metrics
         Monitoring.set_metrics].
    rewrite Hpush by (by rewrite (Permutation_length Hp)).
    destruct (sortDesc Monitoring.Metric.timestamp (Monitoring.metrics s))
      as [|evicted kept].
    { apply Permutation_length in Hp. simpl in Hp. lia. }
    exists evicted, kept. split_and!.
    + done.
    + intros m Hm. rewrite <-Hp in Hm.
      apply StronglySorted_inv in Hs as [_ Hall].
      apply elem_of_cons in Hm as [->|Hm]; [lia|].
      rewrite Forall_forall in Hall. by apply Hall.
    + done.
  - unfold Monitoring.recordMetric. cbn [fst Monitoring.metrics
                                         Monitoring.set_metrics].
    by apply Hpush.
Qed.

Lemma unfiltered_read_turns_eviction_around_witness :
  Monitoring.metrics
    (Monitoring.recordMetric Monitoring.ticking 0 "cpu" 2 ∅ Monitoring.gauge
       fullStore).1
  = drop 1 (Monitoring.metrics fullStore)
    ++ [Monitoring.newMetric Monitoring.ticking 0 "cpu" 2 ∅ Monitoring.gauge].
Proof.
  assert (Z.of_nat (length (Monitoring.metrics fullStore)) = 10000) as Hfull.
  { unfold fullStore. cbn [Monitoring.metrics Monitoring.set_metrics].
    rewrite length_replicate. lia. }
  destruct (unfiltered_read_turns_eviction_around Monitoring.ticking 0 None
              "cpu" 2 ∅ Monitoring.gauge fullStore Hfull) as (_ & _ & Hdrop).
  exact Hdrop.
Defined.

(** X18: [getRecentLogs] returns a suffix of the logs: the last [limit] of
    them for a positive [limit] (100 by default). For [limit] 0 it returns
    all the logs, not none; for a negative [limit] it returns the logs
    without the first [-limit]. *)
Theorem getRecentLogs_returns_a_suffix (limit : option Z)
    (s : Monitoring.Service) :
  Monitoring.getRecentLogs limit s `suffix_of` Monitoring.logs s ∧
  (0 < default 100 limit →
   Monitoring.getRecentLogs limit s
     = lastN (Z.to_nat (default 100 limit)) (Monitoring.logs s) ∧
   Z.of_nat (length (Monitoring.getRecentLogs limit s))
     = Z.min (default 100 limit) (Z.of_nat (length (Monitoring.logs s)))) ∧
  (limit = Some 0 → Monitoring.getRecentLogs limit s = Monitoring.logs s) ∧
  (default 100 limit < 0 →
   Monitoring.getRecentLogs limit s
     = drop (Z.to_nat (- default 100 limit)) (Monitoring.logs s)).
Proof.
  unfold Monitoring.getRecentLogs.
  assert (0 < default 100 limit →
          slice (- default 100 limit) None (Monitoring.logs s)
          = lastN (Z.to_nat (default 100 limit)) (Monitoring.logs s)) as Hpos
    by apply slice_last.
  assert (default 100 limit < 0 →
          slice (- default 100 limit) None (Monitoring.logs s)
          = drop (Z.to_nat (- default 100 limit)) (Monitoring.logs s)) as Hneg
    by apply slice_skip.
  split_and!.
  - destruct (Z.lt_trichotomy (default 100 limit) 0) as [Hlt|[Heq|Hgt]].
    + rewrite Hneg by done. apply suffix_drop.
    + rewrite Heq. rewrite slice_all. done.
    + rewrite Hpos by done. apply lastN_suffix.
  - intros Hgt. split; [by apply Hpos|]. rewrite Hpos by done.
    rewrite lastN_length. lia.
  - intros ->. apply slice_all.
  - done.
Qed.

(** X19: [getAlerts] returns alerts of the store whose [resolved] flag is the
    one asked for (unresolved by default), most recent first, at most
    [limit] of them (100 by default); the alerts with that flag that it
    leaves out are no more recent than any it returns. *)
Theorem getAlerts_returns_the_newest (resolved : option bool)
    (limit : option Z) (s : Monitoring.Service) :
  let r := Monitoring.getAlerts resolved limit s in
  let wanted :=
    filter (λ a, Monitoring.Alert.resolved a = default false resolved)
      (Monitoring.alerts s) in
  StronglySorted
    (λ a b, Monitoring.Alert.timestamp b ≤ Monitoring.Alert.timestamp a) r ∧
  (∀ a, a ∈ r →
     a ∈ Monitoring.alerts s ∧
     Monitoring.Alert.resolved a = default false resolved) ∧
  (0 ≤ default 100 limit →
   Z.of_nat (length r) = Z.min (default 100 limit) (Z.of_nat (length wanted))) ∧
  (∃ rest,
     wanted ≡ₚ r ++ rest ∧
     ∀ x y, x ∈ r → y ∈ rest →
       Monitoring.Alert.timestamp y ≤ Monitoring.Alert.timestamp x).
Proof.
  cbv zeta. unfold Monitoring.getAlerts.
  destruct (newest_first Monitoring.Alert.timestamp (default 100 limit)
              (filter (λ a, Monitoring.Alert.resolved a = default false resolved)
                 (Monitoring.alerts s)))
    as (Hs & Hlen & rest & Hsplit & Hperm & Hnew).
  split_and!.
  - done.
  - intros a Ha.
    assert (a ∈ filter (λ a, Monitoring.Alert.resolved a = default false resolved)
                  (Monitoring.alerts s)) as Hin.
    { rewrite Hperm. apply elem_of_app. by left. }
    apply list_elem_of_filter in Hin. tauto.
  - done.
  - by exists rest.
Qed.

(** ** Health status *)

Lemma getHealthStatus_invariant (l : list Monitoring.HealthCheck.t) :
  let h := foldl Monitoring.latest ∅ l in
  (∀ svc, h !! svc = None ↔ svc ∉ Monitoring.HealthCheck.service <$> l) ∧
  (∀ svc c, h !! svc = Some c →
     ∃ i, l !! i = Some c ∧ Monitoring.HealthCheck.service c = svc ∧
       ∀ j c', l !! j = Some c' → Monitoring.HealthCheck.service c' = svc →
         Monitoring.HealthCheck.timestamp c' ≤ Monitoring.HealthCheck.timestamp c ∧
         ((j < i)%nat →
          Monitoring.HealthCheck.timestamp c' < Monitoring.HealthCheck.timestamp c)).
Proof.
  cbv zeta. induction l as [|x l [IHdom IHmax]] using rev_ind.
  { cbn [foldl]. split.
    - intros svc. rewrite lookup_empty. split; [|done].
      intros _ H. by apply elem_of_nil in H.
    - intros svc c H. by rewrite lookup_empty in H. }
  rewrite foldl_app. simpl.
  set (h := foldl Monitoring.latest ∅ l) in *.
  assert (∀ j c', (l ++ [x]) !! j = Some c' →
            (l !! j = Some c' ∧ (j < length l)%nat) ∨ (j = length l ∧ c' = x))
    as Hsnoc.
  { intros j c' Hj. apply lookup_app_Some in Hj as [Hj|[Hge Hj]].
    - left. split; [done|]. by eapply lookup_lt_Some.
    - right. apply list_lookup_singleton_Some in Hj as [Hj ->].
      split; [lia|done]. }
  assert (∀ svc c,
            svc ≠ Monitoring.HealthCheck.service x → h !! svc = Some c →
            ∃ i, (l ++ [x]) !! i = Some c ∧
              Monitoring.HealthCheck.service c = svc ∧
              ∀ j c', (l ++ [x]) !! j = Some c' →
                Monitoring.HealthCheck.service c' = svc →
                Monitoring.HealthCheck.timestamp c'
                  ≤ Monitoring.HealthCheck.timestamp c ∧
                ((j < i)%nat →
                 Monitoring.HealthCheck.timestamp c'
                   < Monitoring.HealthCheck.timestamp c)) as Hother.
  { intros svc c Hne Hc. destruct (IHmax svc c Hc) as (i & Hi & Hsvc & Hmax).
    exists i. split_and!; [by apply lookup_app_l_Some|done|].
    intros j c' Hj Hsvc'. destruct (Hsnoc j c' Hj) as [[Hj' _]|[_ ->]].
    - by apply Hmax.
    - congruence. }
  assert (∀ svc, svc ∉ Monitoring.HealthCheck.service <$> (l ++ [x]) ↔
                 (svc ∉ Monitoring.HealthCheck.service <$> l) ∧
                 svc ≠ Monitoring.HealthCheck.service x) as Hdom.
  { intros svc. rewrite fmap_app. simpl. rewrite elem_of_app.
    rewrite list_elem_of_singleton. tauto. }
  assert (∀ c,
            (∀ j c', l !! j = Some c' →
               Monitoring.HealthCheck.service c'
               = Monitoring.HealthCheck.service x →
               Monitoring.HealthCheck.timestamp c'
                 < Monitoring.HealthCheck.timestamp x) →
            <[Monitoring.HealthCheck.service x := x]> h
              !! Monitoring.HealthCheck.service x = Some c →
            ∃ i, (l ++ [x]) !! i = Some c ∧
              Monitoring.HealthCheck.service c
              = Monitoring.HealthCheck.service x ∧
              ∀ j c', (l ++ [x]) !! j = Some c' →
                Monitoring.HealthCheck.service c'
                = Monitoring.HealthCheck.service x →
                Monitoring.HealthCheck.timestamp c'
                  ≤ Monitoring.HealthCheck.timestamp c ∧
                ((j < i)%nat →
                 Monitoring.HealthCheck.timestamp c'
                   < Monitoring.HealthCheck.timestamp c)) as Hnew.
  { intros c Hless Hc. rewrite lookup_insert_eq in Hc. injection Hc as <-.
    exists (length l). split_and!.
    - rewrite lookup_app_r by lia. by rewrite Nat.sub_diag.
    - done.
    - intros j c' Hj Hsvc'. destruct (Hsnoc j c' Hj) as [[Hj' _]|[-> ->]].
      + specialize (Hless j c' Hj' Hsvc'). lia.
      + split; lia. }
  unfold Monitoring.latest.
  destruct (h !! Monitoring.HealthCheck.service x) as [existing|] eqn:Hex.
  - destruct (IHmax _ _ Hex) as (i & Hi & Hsvc & Hmax).
    case_decide as Hgt.
    + split.
      * intros svc. rewrite Hdom, <-IHdom.
        destruct (decide (svc = Monitoring.HealthCheck.service x)) as [->|Hne].
        -- rewrite lookup_insert_eq. split; [done|]. tauto.
        -- rewrite lookup_insert_ne by done. tauto.
      * intros svc c Hc.
        destruct (decide (svc = Monitoring.HealthCheck.service x)) as [->|Hne].
        -- apply Hnew; [|done]. intros j c' Hj Hsvc'.
           destruct (Hmax j c' Hj Hsvc') as [Hle _]. lia.
        -- rewrite lookup_insert_ne in Hc by done. by apply Hother.
    + split.
      * intros svc. rewrite Hdom, <-IHdom.
        destruct (decide (svc = Monitoring.HealthCheck.service x)) as [->|Hne];
          [|tauto].
        rewrite Hex. split; [done|]. tauto.
      * intros svc c Hc.
        destruct (decide (svc = Monitoring.HealthCheck.service x)) as [->|Hne];
          [|by apply Hother].
        rewrite Hex in Hc. injection Hc as <-.
        exists i. split_and!; [by apply lookup_app_l_Some|done|].
        intros j c' Hj Hsvc'. destruct (Hsnoc j c' Hj) as [[Hj' _]|[-> ->]].
        -- by apply Hmax.
        -- split; [lia|]. apply lookup_lt_Some in Hi. lia.
  - assert (Monitoring.HealthCheck.service x
            ∉ Monitoring.HealthCheck.service <$> l) as Hfresh
      by (by apply IHdom).
    split.
    + intros svc. rewrite Hdom, <-IHdom.
      destruct (decide (svc = Monitoring.HealthCheck.service x)) as [->|Hne].
      * rewrite lookup_insert_eq. split; [done|]. tauto.
      * rewrite lookup_insert_ne by done. tauto.
    + intros svc c Hc.
      destruct (decide (svc = Monitoring.HealthCheck.service x)) as [->|Hne].
      * apply Hnew; [|done]. intros j c' Hj Hsvc'. exfalso. apply Hfresh.
        rewrite <-Hsvc'. apply list_elem_of_fmap_2.
        by eapply list_elem_of_lookup_2.
      * rewrite lookup_insert_ne in Hc by done. by apply Hother.
Qed.

(** X20: [getHealthStatus] has one entry for each service that has a stored
    health check, and none for any other. The entry of a service is a stored
    check of that service with the greatest timestamp, and among several
    with that timestamp the one stored first. *)
Theorem getHealthStatus_returns_the_latest (s : Monitoring.Service) :
  let h := Monitoring.getHealthStatus s in
  (∀ svc, is_Some (h !! svc) ↔
          svc ∈ Monitoring.HealthCheck.service <$> Monitoring.healthChecks s) ∧
  (∀ svc c, h !! svc = Some c →
     ∃ i, Monitoring.healthChecks s !! i = Some c ∧
       Monitoring.HealthCheck.service c = svc ∧
       ∀ j c', Monitoring.healthChecks s !! j = Some c' →
         Monitoring.HealthCheck.service c' = svc →
         Monitoring.HealthCheck.timestamp c' ≤ Monitoring.HealthCheck.timestamp c ∧
         ((j < i)%nat →
          Monitoring.HealthCheck.timestamp c' < Monitoring.HealthCheck.timestamp c)).
Proof.
  cbv zeta. unfold Monitoring.getHealthStatus.
  destruct (getHealthStatus_invariant (Monitoring.healthChecks s))
    as [Hdom Hmax].
  split; [|done]. intros svc. specialize (Hdom svc).
  rewrite <-not_eq_None_Some.
  destruct (decide (svc ∈ Monitoring.HealthCheck.service
                      <$> Monitoring.healthChecks s)); tauto.
Qed.

(** ** Clean-up *)

Lemma firstSeen_snoc l x :
  firstSeen (l ++ [x])
  = if decide (x ∈ firstSeen l) then firstSeen l else firstSeen l ++ [x].
Proof. unfold firstSeen. by rewrite foldl_app. Qed.

Lemma firstSeen_elem l x : x ∈ firstSeen l ↔ x ∈ l.
Proof.
  induction l as [|y l IH] using rev_ind; [done|].
  rewrite firstSeen_snoc. case_decide as Hy.
  - rewrite elem_of_app, list_elem_of_singleton, <-IH.
    split; [tauto|]. intros [?| ->]; done.
  - by rewrite !elem_of_app, IH.
Qed.

Lemma firstSeen_NoDup l : NoDup (firstSeen l).
Proof.
  induction l as [|y l IH] using rev_ind; [constructor|].
  rewrite firstSeen_snoc. case_decide as Hy; [done|].
  apply NoDup_app. split_and!; [done| |apply NoDup_singleton].
  intros x Hx ->%list_elem_of_singleton. done.
Qed.

Lemma groupCheck_groups (x : Monitoring.HealthCheck.t)
    (F : string → list Monitoring.HealthCheck.t) (K : list string) :
  NoDup K →
  Monitoring.groupCheck x ((λ svc, (svc, F svc)) <$> K)
  = if decide (Monitoring.HealthCheck.service x ∈ K)
    then (λ svc, (svc, if decide (svc = Monitoring.HealthCheck.service x)
                       then F svc ++ [x] else F svc)) <$> K
    else ((λ svc, (svc, F svc)) <$> K)
         ++ [(Monitoring.HealthCheck.service x, [x])].
Proof.
  induction K as [|k K IH]; intros Hnd.
  { by rewrite decide_False by apply not_elem_of_nil. }
  apply NoDup_cons in Hnd as [Hk Hnd]. rewrite fmap_cons.
  cbn [Monitoring.groupCheck].
  destruct (decide (k = Monitoring.HealthCheck.service x)) as [->|Hne].
  - rewrite decide_True by left. rewrite fmap_cons.
    rewrite decide_True by done. f_equal.
    apply list_fmap_ext. intros i svc Hi. rewrite decide_False; [done|].
    intros ->. apply Hk. by eapply list_elem_of_lookup_2.
  - rewrite IH by done. case_decide as Hin.
    + rewrite decide_True by (by right). rewrite fmap_cons.
      by rewrite (decide_False (P := k = _)) by done.
    + rewrite decide_False; [done|].
      intros [?|?]%elem_of_cons; [congruence|done].
Qed.

Lemma filter_ofService_snoc svc l x :
  filter (Monitoring.ofService svc) (l ++ [x])
  = if decide (svc = Monitoring.HealthCheck.service x)
    then filter (Monitoring.ofService svc) l ++ [x]
    else filter (Monitoring.ofService svc) l.
Proof.
  rewrite filter_app, filter_cons, filter_nil.
  destruct (decide (Monitoring.ofService svc x)) as [Hs|Hs];
    unfold Monitoring.ofService in Hs.
  - by rewrite decide_True by done.
  - rewrite decide_False by done. apply app_nil_r.
Qed.

Lemma healthCheckMap_spec (l : list Monitoring.HealthCheck.t) :
  Monitoring.healthCheckMap l
  = (λ svc, (svc, filter (Monitoring.ofService svc) l))
      <$> firstSeen (Monitoring.HealthCheck.service <$> l).
Proof.
  induction l as [|x l IH] using rev_ind; [done|].
  unfold Monitoring.healthCheckMap in *. rewrite foldl_app. simpl.
  rewrite IH, groupCheck_groups by apply firstSeen_NoDup.
  rewrite fmap_app. simpl. rewrite firstSeen_snoc.
  destruct (decide (Monitoring.HealthCheck.service x
                    ∈ firstSeen (Monitoring.HealthCheck.service <$> l)))
    as [Hin|Hout].
  - apply list_fmap_ext. intros i svc _. by rewrite filter_ofService_snoc.
  - rewrite fmap_app. simpl. f_equal.
    + apply list_fmap_ext. intros i svc Hi. rewrite filter_ofService_snoc.
      rewrite decide_False; [done|]. intros ->. apply Hout.
      by eapply list_elem_of_lookup_2.
    + rewrite filter_ofService_snoc, decide_True by done.
      rewrite (filter_none (Monitoring.ofService _) l); [done|].
      apply Forall_forall. intros y Hy Hsvc. apply Hout, firstSeen_elem.
      rewrite <-Hsvc. by apply list_elem_of_fmap_2.
Qed.

Lemma filter_mjoin_groups (G : string → list Monitoring.HealthCheck.t)
    (K : list string) (svc : string) :
  NoDup K → (∀ k, Forall (Monitoring.ofService k) (G k)) →
  filter (Monitoring.ofService svc) (mjoin (G <$> K))
  = if decide (svc ∈ K) then G svc else [].
Proof.
  intros Hnd HG. induction K as [|k K IH].
  { by rewrite decide_False by apply not_elem_of_nil. }
  apply NoDup_cons in Hnd as [Hk Hnd]. rewrite fmap_cons.
  change (mjoin (G k :: (G <$> K))) with (G k ++ mjoin (G <$> K)).
  rewrite filter_app, IH by done.
  destruct (decide (svc = k)) as [->|Hne].
  - rewrite (decide_False (P := k ∈ K)) by done.
    rewrite (decide_True (P := k ∈ k :: K)) by left.
    rewrite filter_all by apply HG. apply app_nil_r.
  - rewrite (filter_none (Monitoring.ofService svc) (G k)).
    + simpl. case_decide as Hin.
      * by rewrite decide_True by (by right).
      * rewrite decide_False; [done|].
        intros [?|?]%elem_of_cons; [congruence|done].
    + eapply Forall_impl; [apply (HG k)|]. unfold Monitoring.ofService.
      intros y -> ?. done.
Qed.

Lemma firstSeen_blocks (G : string → list Monitoring.HealthCheck.t)
    (K : list string) :
  NoDup K → (∀ k, Forall (Monitoring.ofService k) (G k)) →
  (∀ k, k ∈ K → G k ≠ []) →
  firstSeen (Monitoring.HealthCheck.service <$> mjoin (G <$> K)) = K.
Proof.
  intros Hnd HG Hne. induction K as [|k K IH] using rev_ind; [done|].
  apply NoDup_app in Hnd as (Hnd & Hdisj & _).
  rewrite fmap_app, join_app, fmap_app. simpl. rewrite app_nil_r.
  assert (∀ pre, k ∉ pre → G k ≠ [] →
            foldl (λ acc x, if decide (x ∈ acc) then acc else acc ++ [x]) pre
              (Monitoring.HealthCheck.service <$> G k) = pre ++ [k]) as Hblock.
  { intros pre Hpre Hnon. specialize (HG k).
    destruct (G k) as [|y ys]; [done|].
    apply Forall_cons in HG as [Hy Hys]. unfold Monitoring.ofService in Hy.
    simpl. rewrite Hy, decide_False by done. clear Hnon.
    induction Hys as [|z zs Hz _ IHz]; [done|].
    unfold Monitoring.ofService in Hz. simpl. rewrite Hz.
    rewrite decide_True; [done|]. apply elem_of_app. right. by left. }
  unfold firstSeen. rewrite foldl_app. fold (firstSeen
    (Monitoring.HealthCheck.service <$> mjoin (G <$> K))).
  rewrite IH; [|done|].
  - apply Hblock.
    + intros Hk. apply (Hdisj k Hk). by left.
    + apply Hne. apply elem_of_app. right. by left.
  - intros k' Hk'. apply Hne. apply elem_of_app. by left.
Qed.

Lemma lastN_lastN {A} (k : nat) (l : list A) : lastN k (lastN k l) = lastN k l.
Proof. apply lastN_ge. rewrite lastN_length. lia. Qed.

Lemma lastPerService_spec (keep : Z) (l : list Monitoring.HealthCheck.t) :
  0 < keep →
  Monitoring.lastPerService keep l
  = mjoin ((λ svc, lastN (Z.to_nat keep) (filter (Monitoring.ofService svc) l))
             <$> firstSeen (Monitoring.HealthCheck.service <$> l)).
Proof.
  intros Hkeep. unfold Monitoring.lastPerService.
  rewrite healthCheckMap_spec, <-list_fmap_compose. f_equal.
  apply list_fmap_ext. intros i svc _. simpl. by apply slice_last.
Qed.

Lemma lastPerService_filter (keep : Z) (l : list Monitoring.HealthCheck.t) svc :
  0 < keep →
  filter (Monitoring.ofService svc) (Monitoring.lastPerService keep l)
  = lastN (Z.to_nat keep) (filter (Monitoring.ofService svc) l).
Proof.
  intros Hkeep. rewrite lastPerService_spec by done.
  rewrite (filter_mjoin_groups
             (λ svc, lastN (Z.to_nat keep) (filter (Monitoring.ofService svc) l))).
  - case_decide as Hin; [done|].
    rewrite (filter_none (Monitoring.ofService svc) l); [done|].
    apply Forall_forall. intros y Hy Hsvc. apply Hin, firstSeen_elem.
    rewrite <-Hsvc. by apply list_elem_of_fmap_2.
  - apply firstSeen_NoDup.
  - intros k. apply Forall_lastN, Forall_filter_self.
Qed.

Lemma lastPerService_idempotent (keep : Z) (l : list Monitoring.HealthCheck.t) :
  0 < keep →
  Monitoring.lastPerService keep (Monitoring.lastPerService keep l)
  = Monitoring.lastPerService keep l.
Proof.
  intros Hkeep.
  rewrite (lastPerService_spec keep (Monitoring.lastPerService keep l)) by done.
  assert (firstSeen (Monitoring.HealthCheck.service
                       <$> Monitoring.lastPerService keep l)
          = firstSeen (Monitoring.HealthCheck.service <$> l)) as ->.
  { rewrite (lastPerService_spec keep l) by done.
    apply (firstSeen_blocks
             (λ svc, lastN (Z.to_nat keep) (filter (Monitoring.ofService svc) l))).
    - apply firstSeen_NoDup.
    - intros k. apply Forall_lastN, Forall_filter_self.
    - intros k Hk Hnil. apply (proj1 (firstSeen_elem _ _)) in Hk.
      apply list_elem_of_fmap in Hk as (y & -> & Hy).
      assert (y ∈ filter (Monitoring.ofService (Monitoring.HealthCheck.service y)) l)
        as Hin by (by apply list_elem_of_filter).
      apply (f_equal length) in Hnil. rewrite lastN_length in Hnil.
      destruct (filter _ l); [by apply elem_of_nil in Hin|].
      cbn [length] in Hnil. lia. }
  rewrite (lastPerService_spec keep l) by done.
  f_equal. apply list_fmap_ext. intros i svc _. simpl.
  rewrite <-(lastPerService_spec keep l) by done.
  rewrite lastPerService_filter by done. apply lastN_lastN.
Qed.

Lemma filter_filter_same {A} (P : A → Prop) `{!∀ x, Decision (P x)} (l : list A) :
  filter P (filter P l) = filter P l.
Proof. apply filter_all, Forall_filter_self. Qed.

(** X21: [cleanupOldData] at time [now]. A metric, a log entry or an alert
    stays exactly if it is younger than its retention period. Of the health
    checks of each service the last 100 stay, in their order; the array is
    regrouped by service, the services in the order of their first check.
    Cleaning up again at the same time changes nothing. *)
Theorem cleanupOldData_keeps_what_is_recent (sys : Monitoring.Sys) (n : nat)
    (s : Monitoring.Service) :
  let now := Monitoring.clock sys n in
  let s' := (Monitoring.cleanupOldData sys n s).1 in
  (∀ m, m ∈ Monitoring.metrics s' ↔
        m ∈ Monitoring.metrics s ∧
        now - Monitoring.Metric.timestamp m
          < Monitoring.metricsRetention s * 3600000) ∧
  (∀ l, l ∈ Monitoring.logs s' ↔
        l ∈ Monitoring.logs s ∧
        now - Monitoring.LogEntry.timestamp l
          < Monitoring.logsRetention s * 3600000) ∧
  (∀ a, a ∈ Monitoring.alerts s' ↔
        a ∈ Monitoring.alerts s ∧
        now - Monitoring.Alert.timestamp a
          < Monitoring.alertsRetention s * 3600000) ∧
  Monitoring.metrics s' `sublist_of` Monitoring.metrics s ∧
  Monitoring.logs s' `sublist_of` Monitoring.logs s ∧
  Monitoring.alerts s' `sublist_of` Monitoring.alerts s ∧
  (∀ svc, filter (Monitoring.ofService svc) (Monitoring.healthChecks s')
          = lastN (Z.to_nat 100)
              (filter (Monitoring.ofService svc) (Monitoring.healthChecks s))) ∧
  Monitoring.healthChecks s'
    = mjoin ((λ svc, filter (Monitoring.ofService svc)
                       (Monitoring.healthChecks s'))
               <$> firstSeen (Monitoring.HealthCheck.service
                                <$> Monitoring.healthChecks s)) ∧
  (∀ k, Monitoring.clock sys k = now →
        (Monitoring.cleanupOldData sys k s').1 = s').
Proof.
  cbv zeta. unfold Monitoring.cleanupOldData, Monitoring.cleanupAt.
  cbn [fst Monitoring.metrics Monitoring.logs Monitoring.alerts
       Monitoring.healthChecks Monitoring.metricsRetention
       Monitoring.logsRetention Monitoring.alertsRetention].
  change Monitoring.hourMs with 3600000.
  split_and!.
  - intros m. rewrite list_elem_of_filter. tauto.
  - intros l. rewrite list_elem_of_filter. tauto.
  - intros a. rewrite list_elem_of_filter. tauto.
  - apply sublist_filter.
  - apply sublist_filter.
  - apply sublist_filter.
  - intros svc. by apply lastPerService_filter.
  - rewrite (lastPerService_spec 100) at 1 by done. f_equal.
    apply list_fmap_ext. intros i svc _. simpl.
    by rewrite lastPerService_filter.
  - intros k ->. f_equal; try apply filter_filter_same.
    by apply lastPerService_idempotent.
Qed.

(** ** The life of an alert *)

Lemma slice_first_all {A} (k : Z) (l : list A) :
  Z.of_nat (length l) ≤ k → slice 0 (Some k) l = l.
Proof.
  intros Hk. rewrite slice_first by lia. apply take_ge. lia.
Qed.

(** X22: an alert from [recordAlert] to [resolveAlert]. [recordAlert] appends
    the alert, unresolved, to the alerts, which have no cap, and [getAlerts]
    then returns it among the unresolved ones whenever fewer than [limit]
    were unresolved before. If no older alert carries the same id,
    [resolveAlert] with its id answers [true] and marks this alert;
    afterwards the unresolved alerts that [getAlerts] returns are again those
    from before the alert was recorded. *)
Theorem alert_life_cycle (sys : Monitoring.Sys) (n : nat)
    (alert : Monitoring.AlertInput) (limit : option Z)
    (s : Monitoring.Service) :
  let a := Monitoring.newAlert sys n alert in
  let r1 := Monitoring.recordAlert sys n alert s in
  let r2 := Monitoring.resolveAlert sys r1.2 (Monitoring.Alert.id a) r1.1 in
  Monitoring.Alert.id a ∉ Monitoring.Alert.id <$> Monitoring.alerts s →
  Monitoring.alerts r1.1 = Monitoring.alerts s ++ [a] ∧
  (Z.of_nat (length (filter (λ x, Monitoring.Alert.resolved x = false)
                       (Monitoring.alerts s))) < default 100 limit →
   a ∈ Monitoring.getAlerts (Some false) limit r1.1) ∧
  r2.2 = true ∧
  Monitoring.alerts r2.1.1
    = Monitoring.alerts s
      ++ [Monitoring.Alert.resolve (Monitoring.clock sys r1.2) a] ∧
  Monitoring.getAlerts (Some false) limit r2.1.1
    = Monitoring.getAlerts (Some false) limit s ∧
  (Monitoring.metrics r2.1.1, Monitoring.healthChecks r2.1.1)
  = (Monitoring.metrics s, Monitoring.healthChecks s).
Proof.
  cbv zeta. intros Hfresh.
  set (a := Monitoring.newAlert sys n alert).
  assert (Monitoring.alerts (Monitoring.recordAlert sys n alert s).1
          = Monitoring.alerts s ++ [a]) as Halerts by done.
  assert ((Monitoring.recordAlert sys n alert s).2 = S (S (S (S n)))) as Hstep
    by done.
  assert (List.find (Monitoring.hasAlertId (Monitoring.Alert.id a))
            (Monitoring.alerts s ++ [a]) = Some a) as Hfind.
  { clear -Hfresh. induction (Monitoring.alerts s) as [|b l IH]; simpl.
    - unfold Monitoring.hasAlertId. by rewrite bool_decide_eq_true_2.
    - rewrite fmap_cons in Hfresh. apply not_elem_of_cons in Hfresh as [Hb Hl].
      unfold Monitoring.hasAlertId at 1. rewrite bool_decide_eq_false_2 by done.
      by apply IH. }
  assert (updateFirstOf (Monitoring.hasAlertId (Monitoring.Alert.id a))
            (Monitoring.Alert.resolve (Monitoring.clock sys (S (S (S (S n))))))
            (Monitoring.alerts s ++ [a])
          = Monitoring.alerts s
            ++ [Monitoring.Alert.resolve (Monitoring.clock sys (S (S (S (S n))))) a])
    as Hupd.
  { clear -Hfresh.
    induction (Monitoring.alerts s) as [|b l IH]; cbn [app updateFirstOf].
    - unfold Monitoring.hasAlertId. by rewrite bool_decide_eq_true_2.
    - rewrite fmap_cons in Hfresh. apply not_elem_of_cons in Hfresh as [Hb Hl].
      unfold Monitoring.hasAlertId at 1. rewrite bool_decide_eq_false_2 by done.
      f_equal. by apply IH. }
  assert (Monitoring.alerts
            (Monitoring.resolveAlert sys (S (S (S (S n))))
               (Monitoring.Alert.id a)
               (Monitoring.recordAlert sys n alert s).1).1.1
          = Monitoring.alerts s
            ++ [Monitoring.Alert.resolve
                  (Monitoring.clock sys (S (S (S (S n))))) a]) as Hres.
  { unfold Monitoring.resolveAlert. rewrite Halerts, Hfind.
    cbn [fst Monitoring.log Monitoring.alerts Monitoring.set_logs
         Monitoring.set_alerts].
    exact Hupd. }
  rewrite Hstep. split_and!.
  - done.
  - intros Hroom. unfold Monitoring.getAlerts. rewrite Halerts.
    rewrite slice_first_all.
    + rewrite sortDesc_Permutation. apply list_elem_of_filter. split; [done|].
      apply elem_of_app. right. by left.
    + rewrite (Permutation_length (sortDesc_Permutation _ _)).
      rewrite filter_app, filter_cons, decide_True, filter_nil by done.
      rewrite length_app. simpl in *. lia.
  - unfold Monitoring.resolveAlert. by rewrite Halerts, Hfind.
  - done.
  - unfold Monitoring.getAlerts. rewrite Hres. simpl.
    rewrite filter_app, filter_cons, decide_False by done.
    by rewrite filter_nil, app_nil_r.
  - unfold Monitoring.resolveAlert. by rewrite Halerts, Hfind.
Qed.

Lemma alert_life_cycle_witness :
  (Monitoring.resolveAlert Monitoring.ticking 4
     (Monitoring.Alert.id (Monitoring.newAlert Monitoring.ticking 0 sampleAlert))
     (Monitoring.recordAlert Monitoring.ticking 0 sampleAlert
        (Monitoring.constructor None None None)).1).2 = true.
Proof.
  assert (Monitoring.Alert.id (Monitoring.newAlert Monitoring.ticking 0 sampleAlert)
          ∉ Monitoring.Alert.id
              <$> Monitoring.alerts (Monitoring.constructor None None None))
    as Hfresh by (cbn; apply not_elem_of_nil).
  destruct (alert_life_cycle Monitoring.ticking 0 sampleAlert None
              (Monitoring.constructor None None None) Hfresh)
    as (_ & _ & Htrue & _).
  exact Htrue.
Defined.

(** * Readiness and the timers of the autonomous mode *)

(** X23: [isReady] answers [true] exactly when the probes of the tool
    service, the AI service and the memory service all fulfil; the probe
    of the monitoring service cannot make it answer [false]. That probe is
    an unfiltered [getMetrics]: after a [true] answer the metric store is
    sorted most recent first. After a [false] answer the monitoring service
    is as before. *)
Theorem isReady_depends_on_three_probes (probes : Probes) (n : nat)
    (mon : Monitoring.Service) :
  let r := isReady probes n mon in
  (r.2 = true ↔
   fulfils (listTools probes n) = true ∧
   fulfils (getModelHealth probes (S n)) = true ∧
   fulfils (getStats probes (S (S n))) = true) ∧
  (r.2 = true →
   Monitoring.metrics r.1
     = sortDesc Monitoring.Metric.timestamp (Monitoring.metrics mon) ∧
   (Monitoring.logs r.1, Monitoring.alerts r.1, Monitoring.healthChecks r.1)
   = (Monitoring.logs mon, Monitoring.alerts mon, Monitoring.healthChecks mon)) ∧
  (r.2 = false → r.1 = mon).
Proof.
  cbv zeta. unfold isReady. cbn [isReady_loop].
  unfold checkServiceHealth.
  repeat (rewrite decide_True by done || rewrite decide_False by done).
  destruct (fulfils (listTools probes n));
    [|split_and!; [split; [done|tauto]|done|done]].
  destruct (fulfils (getModelHealth probes (S n)));
    [|split_and!; [split; [done|tauto]|done|done]].
  destruct (fulfils (getStats probes (S (S n))));
    [|split_and!; [split; [done|tauto]|done|done]].
  split_and!; [done|done|done].
Qed.

Lemma setInterval_intervals cb a :
  intervals (setInterval cb a).1 = intervals a ++ [(nextTimer a, cb)].
Proof. done. Qed.

Lemma startAutonomousMode_state env n a :
  let a' := startAutonomousMode env n a in
  healthCheckInterval a' = Some (nextTimer a) ∧
  queuePasses a' = S (queuePasses a) ∧
  service a' = processTaskQueue env n (set_isAutonomousMode true (service a)) ∧
  ∃ h1 h2,
    intervals a'
    = intervals a ++ [(nextTimer a, HealthCheckTick)]
      ++ (if autoScalingEnabled (service a) then [(h1, ScalingTick)] else [])
      ++ (if selfHealingEnabled (service a) then [(h2, HealingTick)] else []) ∧
    (nextTimer a < h1)%nat ∧ (nextTimer a < h2)%nat.
Proof.
  cbv zeta. unfold startAutonomousMode, setInterval, processTaskQueue_rescheduled.
  cbn [fst snd service isAutonomousMode set_isAutonomousMode intervals
       queuePasses nextTimer healthCheckInterval].
  assert (∀ o, autoScalingEnabled (processTaskQueue env n o)
               = autoScalingEnabled o ∧
               selfHealingEnabled (processTaskQueue env n o)
               = selfHealingEnabled o) as Hcfg.
  { intros o. unfold processTaskQueue. by destruct (isAutonomousMode o). }
  destruct (Hcfg (set_isAutonomousMode true (service a))) as [Hsc Hhe].
  cbn [autoScalingEnabled selfHealingEnabled set_isAutonomousMode] in Hsc, Hhe.
  destruct (autoScalingEnabled (service a)) eqn:Hs,
           (selfHealingEnabled (service a)) eqn:Hh;
    cbn [service intervals queuePasses nextTimer healthCheckInterval fst];
    rewrite ?Hsc, ?Hhe;
    cbn [service intervals queuePasses nextTimer healthCheckInterval fst];
    rewrite ?Hsc, ?Hhe;
    cbn [service intervals queuePasses nextTimer healthCheckInterval fst];
    (split_and!; [done|done|done|]).
  - exists (S (nextTimer a)), (S (S (nextTimer a))).
    rewrite <- ?(assoc_L (++)). split_and!; [done|lia..].
  - exists (S (nextTimer a)), (S (nextTimer a)).
    rewrite <- ?(assoc_L (++)). split_and!; [done|lia..].
  - exists (S (nextTimer a)), (S (nextTimer a)).
    rewrite <- ?(assoc_L (++)). split_and!; [done|lia..].
  - exists (S (nextTimer a)), (S (nextTimer a)).
    rewrite <- ?(assoc_L (++)). split_and!; [done|lia..].
Qed.

Lemma stopAutonomousMode_state a :
  isAutonomousMode (service (stopAutonomousMode a)) = false ∧
  queuePasses (stopAutonomousMode a) = queuePasses a ∧
  intervals (stopAutonomousMode a)
  = match healthCheckInterval a with
    | Some handle => filter (λ e, e.1 ≠ handle) (intervals a)
    | None => intervals a
    end.
Proof. unfold stopAutonomousMode. by destruct (healthCheckInterval a). Qed.

Lemma processTaskQueue_isAutonomousMode env n o :
  isAutonomousMode (processTaskQueue env n o) = isAutonomousMode o.
Proof.
  unfold processTaskQueue. by destruct (isAutonomousMode o) eqn:Hm.
Qed.

Lemma queuePassFires_S env n a k :
  queuePasses a = S k →
  queuePassFires env n a
  = processTaskQueue_rescheduled env n
      (mkAutonomous (service a) (healthCheckInterval a) (intervals a) k
         (nextTimer a)).
Proof. unfold queuePassFires. by intros ->. Qed.

Lemma processTaskQueue_rescheduled_off env n a :
  isAutonomousMode (service a) = false →
  processTaskQueue_rescheduled env n a = a.
Proof. unfold processTaskQueue_rescheduled. by intros ->. Qed.

Lemma processTaskQueue_rescheduled_on env n a :
  isAutonomousMode (service a) = true →
  queuePasses (processTaskQueue_rescheduled env n a) = S (queuePasses a).
Proof. unfold processTaskQueue_rescheduled. by intros ->. Qed.

(** X24: what [stopAutonomousMode] stops. Start the autonomous mode and stop
    it again: the flag is off and the health-check interval of this start is
    cleared, but the auto-scaling and the self-healing intervals that the
    start has set, one each if enabled, stay active, as does every interval
    of an earlier start; the handle of the health-check interval of an
    earlier start was overwritten, so that interval is never cleared. The
    queue pass that is still scheduled does nothing when it runs and
    schedules no other; a new start before it runs makes two passes run per
    period from then on. *)
Theorem stop_leaves_background_intervals (env : Env) (n k : nat)
    (a : Autonomous) :
  Issued a →
  let a1 := startAutonomousMode env n a in
  let a2 := stopAutonomousMode a1 in
  isAutonomousMode (service a2) = false ∧
  running_of HealthCheckTick a2 = running_of HealthCheckTick a ∧
  length (running_of ScalingTick a2)
    = (length (running_of ScalingTick a)
       + if autoScalingEnabled (service a) then 1 else 0)%nat ∧
  length (running_of HealingTick a2)
    = (length (running_of HealingTick a)
       + if selfHealingEnabled (service a) then 1 else 0)%nat ∧
  intervals a `sublist_of` intervals a2 ∧
  queuePasses a2 = S (queuePasses a) ∧
  service (queuePassFires env k a2) = service a2 ∧
  queuePasses (queuePassFires env k a2) = queuePasses a ∧
  queuePasses (startAutonomousMode env k a2) = S (S (queuePasses a)) ∧
  queuePasses (queuePassFires env k (startAutonomousMode env k a2))
    = S (S (queuePasses a)).
Proof.
  intros Hissued. cbv zeta.
  destruct (startAutonomousMode_state env n a)
    as (Hh & Hq & _ & h1 & h2 & Hint & Hh1 & Hh2).
  generalize dependent (startAutonomousMode env n a). intros a1 Hh Hq Hint.
  destruct (stopAutonomousMode_state a1) as (Hoff & Hq2 & Hstop0).
  rewrite Hq in Hq2.
  assert (intervals (stopAutonomousMode a1)
          = intervals a
            ++ (if autoScalingEnabled (service a) then [(h1, ScalingTick)] else [])
            ++ (if selfHealingEnabled (service a) then [(h2, HealingTick)] else []))
    as Hstop.
  { rewrite Hstop0, Hh, Hint, !filter_app.
    rewrite (filter_all (λ e : nat * Callback, e.1 ≠ nextTimer a) (intervals a)).
    - f_equal. rewrite filter_cons, decide_False, filter_nil by (simpl; tauto).
      rewrite app_nil_l. f_equal.
      + destruct (autoScalingEnabled (service a)); [|done].
        by rewrite filter_cons, decide_True, filter_nil by (simpl; lia).
      + destruct (selfHealingEnabled (service a)); [|done].
        by rewrite filter_cons, decide_True, filter_nil by (simpl; lia).
    - eapply Forall_impl; [exact Hissued|]. simpl. lia. }
  destruct (startAutonomousMode_state env k (stopAutonomousMode a1))
    as (_ & Hq3 & Hsvc3 & _).
  rewrite Hq2 in Hq3.
  split_and!.
  - exact Hoff.
  - unfold running_of. rewrite Hstop, !filter_app.
    destruct (autoScalingEnabled (service a)), (selfHealingEnabled (service a));
      rewrite ?filter_cons, ?decide_False, ?filter_nil by done;
      by rewrite ?app_nil_r.
  - unfold running_of. rewrite Hstop, !filter_app, !length_app.
    destruct (autoScalingEnabled (service a)), (selfHealingEnabled (service a));
      rewrite ?filter_cons, ?filter_nil; simpl; lia.
  - unfold running_of. rewrite Hstop, !filter_app, !length_app.
    destruct (autoScalingEnabled (service a)), (selfHealingEnabled (service a));
      rewrite ?filter_cons, ?filter_nil; simpl; lia.
  - rewrite Hstop. by apply sublist_inserts_r.
  - exact Hq2.
  - rewrite queuePassFires_S with (k := queuePasses a) by exact Hq2.
    by rewrite processTaskQueue_rescheduled_off by exact Hoff.
  - rewrite queuePassFires_S with (k := queuePasses a) by exact Hq2.
    by rewrite processTaskQueue_rescheduled_off by exact Hoff.
  - exact Hq3.
  - rewrite queuePassFires_S with (k := S (queuePasses a)) by exact Hq3.
    rewrite processTaskQueue_rescheduled_on; [done|].
    cbn [service]. rewrite Hsvc3. rewrite processTaskQueue_isAutonomousMode.
    done.
Qed.

Lemma stop_leaves_background_intervals_witness :
  length (running_of HealingTick
            (stopAutonomousMode (startAutonomousMode (failsBefore 0) 0 idle)))
  = 1%nat.
Proof.
  assert (Issued idle) as Hissued by constructor.
  destruct (stop_leaves_background_intervals (failsBefore 0) 0 1 idle Hissued)
    as (_ & _ & _ & Hheal & _).
  exact Hheal.
Defined.
